(** * GentooUI: installation orchestrator, command runner and wizard navigator

    A shallow embedding of
      - [gentooui/core/installer.py]  (class [InstallationManager]),
      - [gentooui/utils/system.py]    (function [run_command]),
      - [gentooui/core/app.py]        (class [GentooUIApp], step navigation),
    followed by the properties of the natural-language design document
    that concern them; then of the screens and their callbacks in
    [app.py], of the other functions of [utils/system.py], of [main.py]
    and of the deep merge of [core/config.py], with properties read off
    the code.

    Conventions of the embedding.
      - A Python [int] is a [Z], a [float] literal is a [Q] (only literals
        such as [0.0], [0.1] and [1.0] occur and they are only stored and
        compared), a [str] is a [string], [Optional[T]] is [option T].
      - An exception is a value of [Py.exn]: the class of the exception as
        far as the [except] clauses of the sources can tell classes apart,
        and the text that [str(e)] gives.
      - A call that may raise returns a [Py.result].
      - The [logger] calls of the orchestrator are left out: they never
        influence control flow.  Those of [validate_prerequisites] are
        kept, because the text speaks about its warning. *)

From Stdlib Require Import List String ZArith QArith Bool Lia DecimalString.
From Stdlib Require Import Ascii Orders Mergesort Sorted Permutation.
Import ListNotations.
Open Scope string_scope.
Open Scope Z_scope.

Set Implicit Arguments.

(* ===================================================================== *)
(** ** Python exceptions and results                                      *)
(* ===================================================================== *)

Module Py.

(** The [except] clauses of the sources distinguish three kinds of
    exception object:
      - instances of [asyncio.TimeoutError] (a subclass of [Exception]),
      - other instances of [Exception],
      - instances of [BaseException] that are not instances of
        [Exception]: [KeyboardInterrupt], [SystemExit],
        [asyncio.CancelledError], [GeneratorExit]. *)
Inductive exc_class : Type :=
| TimeoutError
| OtherException
| BaseExceptionOnly.

Record exn : Type := mk_exn {
  exn_class : exc_class;
  exn_str : string            (* str(e) *)
}.

(** [isinstance(e, Exception)], what [except Exception] tests. *)
Definition is_Exception (e : exn) : bool :=
  match exn_class e with
  | BaseExceptionOnly => false
  | _ => true
  end.

(** [isinstance(e, asyncio.TimeoutError)]. *)
Definition is_TimeoutError (e : exn) : bool :=
  match exn_class e with
  | TimeoutError => true
  | _ => false
  end.

Inductive result (A : Type) : Type :=
| Returned (a : A)
| Raised (e : exn).

Arguments Returned {A} a.
Arguments Raised {A} e.

End Py.

Import Py.

(* ===================================================================== *)
(** ** core/config.py (the settings the orchestrator reads)               *)
(* ===================================================================== *)

Module Config.

Record DiskConfig : Type := mkDiskConfig {
  target_disk : string;
  partition_scheme : string
}.

Record AppConfig : Type := mkAppConfig {
  dry_run : bool;
  verbose : bool;
  disk : DiskConfig;
  mount_point : string;
  work_dir : string
}.

(** The defaults of the two dataclasses. *)
Definition default_DiskConfig : DiskConfig :=
  mkDiskConfig "/dev/sda" "gpt".

Definition default_AppConfig : AppConfig :=
  mkAppConfig false false default_DiskConfig "/mnt/gentoo" "/tmp/gentooui".

End Config.

(* ===================================================================== *)
(** ** core/installer.py                                                  *)
(* ===================================================================== *)

Module Installer.

Import Config.

Inductive InstallationStep : Type :=
| DISK_SETUP
| STAGE3_DOWNLOAD
| STAGE3_EXTRACT
| PORTAGE_SETUP
| SYSTEM_CONFIG
| KERNEL_INSTALL
| KERNEL_CONFIG
| KERNEL_COMPILE
| BOOTLOADER_INSTALL
| FINALIZATION.

(** The [value] of each member of the enumeration. *)
Definition value (s : InstallationStep) : string :=
  match s with
  | DISK_SETUP => "disk_setup"
  | STAGE3_DOWNLOAD => "stage3_download"
  | STAGE3_EXTRACT => "stage3_extract"
  | PORTAGE_SETUP => "portage_setup"
  | SYSTEM_CONFIG => "system_config"
  | KERNEL_INSTALL => "kernel_install"
  | KERNEL_CONFIG => "kernel_config"
  | KERNEL_COMPILE => "kernel_compile"
  | BOOTLOADER_INSTALL => "bootloader_install"
  | FINALIZATION => "finalization"
  end.

Record StepProgress : Type := mkStepProgress {
  step : InstallationStep;
  name : string;
  progress : Q;
  status : string;
  details : option string;
  error : option string
}.

(** A progress callback.  Python callables may keep state and may raise:
    the callback sees the events it was given before (oldest first) and
    the new event, and answers [None] when it returns and [Some e] when it
    raises [e].  Its return value is discarded by [_report_progress]. *)
Definition Callback : Type :=
  list StepProgress -> StepProgress -> option exn.

(** The behaviour of an awaited stage coroutine, as the orchestrator can
    observe it: it returns, it raises, or it calls
    [self._report_progress(step, name, progress, status)] and goes on in a
    way that may depend on whether that call raised (the exception of a
    raising callback propagates into the stage).  The stage coroutines of
    the source only ever pass these four arguments. *)
Inductive Coro (R : Type) : Type :=
| Return (r : R)
| Raise (e : exn)
| Report (s : InstallationStep) (n : string) (p : Q) (st : string)
         (k : option exn -> Coro R).

Arguments Return {R} r.
Arguments Raise {R} e.
Arguments Report {R} s n p st k.

(** Who called [_report_progress]: the loop of [run_full_installation]
    itself, or the stage coroutine it awaits.  Ghost information. *)
Inductive Origin : Type :=
| ByOrchestrator
| ByStage.

Definition Stage : Type := (InstallationStep * string * Coro bool)%type.

(** The fields of [InstallationManager] that the orchestration reads or
    writes, and three ghost fields that record what it did:
      - [emitted]: the arguments of every [_report_progress] call, in
        order, with the caller;
      - [delivered]: the events handed to the registered callback;
      - [invoked]: for every stage coroutine awaited by
        [run_full_installation], its step and what [get_current_step]
        answered at that moment. *)
Record InstallationManager : Type := mkManager {
  config : AppConfig;
  progress_callback : option Callback;
  current_step : option InstallationStep;
  steps : list Stage;
  emitted : list (Origin * StepProgress);
  delivered : list StepProgress;
  invoked : list (InstallationStep * option InstallationStep)
}.

(** [__init__]: no callback, no current step. *)
Definition init (cfg : AppConfig) (the_steps : list Stage)
  : InstallationManager :=
  mkManager cfg None None the_steps [] [] [].

Definition set_progress_callback
  (self : InstallationManager) (callback : Callback) : InstallationManager :=
  mkManager (config self) (Some callback) (current_step self) (steps self)
            (emitted self) (delivered self) (invoked self).

Definition set_current_step
  (self : InstallationManager) (s : InstallationStep) : InstallationManager :=
  mkManager (config self) (progress_callback self) (Some s) (steps self)
            (emitted self) (delivered self) (invoked self).

Definition log_emitted
  (self : InstallationManager) (o : Origin) (ev : StepProgress)
  : InstallationManager :=
  mkManager (config self) (progress_callback self) (current_step self) (steps self)
            (emitted self ++ [(o, ev)]) (delivered self) (invoked self).

Definition log_delivered
  (self : InstallationManager) (ev : StepProgress) : InstallationManager :=
  mkManager (config self) (progress_callback self) (current_step self) (steps self)
            (emitted self) (delivered self ++ [ev]) (invoked self).

Definition get_current_step (self : InstallationManager)
  : option InstallationStep :=
  current_step self.

Definition log_invoked
  (self : InstallationManager) (s : InstallationStep) : InstallationManager :=
  mkManager (config self) (progress_callback self) (current_step self) (steps self)
            (emitted self) (delivered self)
            (invoked self ++ [(s, get_current_step self)]).

(** [_report_progress]: "Report progress to the callback if set."  The
    answer is [Some e] when the callback raised [e].  The call is recorded
    in [emitted] whether or not a callback is set; the event is built and
    handed over, and recorded in [delivered], only when one is. *)
Definition _report_progress
  (o : Origin) (self : InstallationManager)
  (s : InstallationStep) (n : string) (p : Q) (st : string)
  (d : option string) (err : option string)
  : option exn * InstallationManager :=
  let step_progress := mkStepProgress s n p st d err in
  let self := log_emitted self o step_progress in
  match progress_callback self with
  | Some callback =>
      (callback (delivered self) step_progress,
       log_delivered self step_progress)
  | None => (None, self)
  end.

(** Awaiting a stage coroutine. *)
Fixpoint await {R : Type} (c : Coro R) (self : InstallationManager)
  : result R * InstallationManager :=
  match c with
  | Return r => (Returned r, self)
  | Raise e => (Raised e, self)
  | Report s n p st k =>
      let '(raised, self) := _report_progress ByStage self s n p st None None in
      await (k raised) self
  end.

(** The inner [except Exception as e:] of the loop body. *)
Definition inner_except
  (s : InstallationStep) (n : string) (e : exn) (self : InstallationManager)
  : result bool * InstallationManager :=
  if is_Exception e then
    let error_msg := "Exception in step " ++ n ++ ": " ++ exn_str e in
    let '(raised, self) :=
      _report_progress ByOrchestrator self s n 0%Q "Error" None (Some error_msg) in
    match raised with
    | Some e' => (Raised e', self)
    | None => (Returned false, self)
    end
  else (Raised e, self).

(** The [for] loop of [run_full_installation], the rest of [self.steps]
    being [todo].  A [Raised] answer is an exception leaving the loop. *)
Fixpoint run_steps (todo : list Stage) (self : InstallationManager)
  : result bool * InstallationManager :=
  match todo with
  | [] => (Returned true, self)
  | (s, n, func) :: todo' =>
      let self := set_current_step self s in
      let '(raised, self) :=
        _report_progress ByOrchestrator self s n 0%Q "Starting..." None None in
      match raised with
      | Some e => (Raised e, self)
      | None =>
          (* try: *)
          let '(success, self) := await func (log_invoked self s) in
          match success with
          | Raised e => inner_except s n e self
          | Returned false =>
              let error_msg := "Step failed: " ++ n in
              let '(raised, self) :=
                _report_progress ByOrchestrator self s n 0%Q "Failed" None
                                 (Some error_msg) in
              match raised with
              | Some e => inner_except s n e self
              | None => (Returned false, self)
              end
          | Returned true =>
              let '(raised, self) :=
                _report_progress ByOrchestrator self s n 1%Q "Completed" None None in
              match raised with
              | Some e => inner_except s n e self
              | None => run_steps todo' self
              end
          end
      end
  end.

(** [run_full_installation]: the loop inside the outer
    [try: ... except Exception as e: ... return False]. *)
Definition run_full_installation (self : InstallationManager)
  : result bool * InstallationManager :=
  let '(r, self) := run_steps (steps self) self in
  match r with
  | Returned b => (Returned b, self)
  | Raised e =>
      if is_Exception e then (Returned false, self) else (Raised e, self)
  end.

Definition get_all_steps (self : InstallationManager)
  : list (InstallationStep * string) :=
  map (fun '(s, n, _) => (s, n)) (steps self).

(** *** The ten stage coroutines

    The managers of [gentooui/installers] are collaborators: what they do
    is a parameter.  Those that are handed
    [progress_callback=lambda p, s: self._report_progress(STEP, NAME, p, s)]
    can call it any number of times ([Progress]) and see its exception if
    it raises. *)
Inductive Work (R : Type) : Type :=
| Finish (r : R)
| Fail (e : exn)
| Progress (p : Q) (st : string) (k : option exn -> Work R).

Arguments Finish {R} r.
Arguments Fail {R} e.
Arguments Progress {R} p st k.

(** Running a manager operation with the lambda that binds step and name. *)
Fixpoint with_progress_callback {R : Type}
  (s : InstallationStep) (n : string) (w : Work R) : Coro R :=
  match w with
  | Finish r => Return r
  | Fail e => Raise e
  | Progress p st k =>
      Report s n p st (fun raised => with_progress_callback s n (k raised))
  end.

(** [try: <body> except Exception as e: ...; return False]. *)
Fixpoint except_return_False (body : Coro bool) : Coro bool :=
  match body with
  | Return b => Return b
  | Raise e => if is_Exception e then Return false else Raise e
  | Report s n p st k =>
      Report s n p st (fun raised => except_return_False (k raised))
  end.

(** A direct [self._report_progress(...)] statement followed by [next]. *)
Definition report_then {R : Type}
  (s : InstallationStep) (n : string) (p : Q) (st : string) (next : Coro R)
  : Coro R :=
  Report s n p st
    (fun raised => match raised with Some e => Raise e | None => next end).

(** [if not await <op>: return False] followed by [next]. *)
Definition unless_return_False (op : result bool) (next : Coro bool)
  : Coro bool :=
  match op with
  | Raised e => Raise e
  | Returned false => Return false
  | Returned true => next
  end.

Record DiskManager : Type := mkDiskManager {
  create_partition_table : result bool;
  create_partitions : result bool;
  format_filesystems : result bool;
  mount_filesystems : result bool
}.

Record Stage3Manager : Type := mkStage3Manager {
  download_stage3 : Work bool;
  extract_stage3 : Work bool
}.

Record PortageManager : Type := mkPortageManager {
  setup_portage : Work bool
}.

Record KernelManager : Type := mkKernelManager {
  install_sources : Work bool;
  configure_kernel : Work bool;
  compile_kernel : Work bool
}.

Record BootloaderManager : Type := mkBootloaderManager {
  install_bootloader : Work bool
}.

Record SystemManager : Type := mkSystemManager {
  configure_system : Work bool;
  finalize_installation : Work bool
}.

Record Managers : Type := mkManagers {
  disk_manager : DiskManager;
  stage3_manager : Stage3Manager;
  portage_manager : PortageManager;
  kernel_manager : KernelManager;
  bootloader_manager : BootloaderManager;
  system_manager : SystemManager
}.

Definition run_disk_setup (m : Managers) : Coro bool :=
  let dm := disk_manager m in
  let n := "Setting up disk partitions" in
  except_return_False
    (report_then DISK_SETUP n (1 # 10) "Creating partition table..."
    (unless_return_False (create_partition_table dm)
    (report_then DISK_SETUP n (3 # 10) "Creating partitions..."
    (unless_return_False (create_partitions dm)
    (report_then DISK_SETUP n (6 # 10) "Formatting filesystems..."
    (unless_return_False (format_filesystems dm)
    (report_then DISK_SETUP n (9 # 10) "Mounting filesystems..."
    (unless_return_False (mount_filesystems dm)
    (Return true))))))))).

Definition run_stage3_download (m : Managers) : Coro bool :=
  except_return_False
    (with_progress_callback STAGE3_DOWNLOAD "Downloading Stage3"
       (download_stage3 (stage3_manager m))).

Definition run_stage3_extract (m : Managers) : Coro bool :=
  except_return_False
    (with_progress_callback STAGE3_EXTRACT "Extracting Stage3"
       (extract_stage3 (stage3_manager m))).

Definition run_portage_setup (m : Managers) : Coro bool :=
  except_return_False
    (with_progress_callback PORTAGE_SETUP "Configuring Portage"
       (setup_portage (portage_manager m))).

Definition run_system_config (m : Managers) : Coro bool :=
  except_return_False
    (with_progress_callback SYSTEM_CONFIG "System configuration"
       (configure_system (system_manager m))).

Definition run_kernel_install (m : Managers) : Coro bool :=
  except_return_False
    (with_progress_callback KERNEL_INSTALL "Installing kernel sources"
       (install_sources (kernel_manager m))).

Definition run_kernel_config (m : Managers) : Coro bool :=
  except_return_False
    (with_progress_callback KERNEL_CONFIG "Configuring kernel"
       (configure_kernel (kernel_manager m))).

Definition run_kernel_compile (m : Managers) : Coro bool :=
  except_return_False
    (with_progress_callback KERNEL_COMPILE "Compiling kernel"
       (compile_kernel (kernel_manager m))).

Definition run_bootloader_install (m : Managers) : Coro bool :=
  except_return_False
    (with_progress_callback BOOTLOADER_INSTALL "Installing bootloader"
       (install_bootloader (bootloader_manager m))).

Definition run_finalization (m : Managers) : Coro bool :=
  except_return_False
    (with_progress_callback FINALIZATION "Finalizing installation"
       (finalize_installation (system_manager m))).

(** [self.steps] as [__init__] builds it. *)
Definition installation_steps (m : Managers) : list Stage :=
  [ (DISK_SETUP, "Setting up disk partitions", run_disk_setup m);
    (STAGE3_DOWNLOAD, "Downloading Stage3", run_stage3_download m);
    (STAGE3_EXTRACT, "Extracting Stage3", run_stage3_extract m);
    (PORTAGE_SETUP, "Configuring Portage", run_portage_setup m);
    (SYSTEM_CONFIG, "System configuration", run_system_config m);
    (KERNEL_INSTALL, "Installing kernel sources", run_kernel_install m);
    (KERNEL_CONFIG, "Configuring kernel", run_kernel_config m);
    (KERNEL_COMPILE, "Compiling kernel", run_kernel_compile m);
    (BOOTLOADER_INSTALL, "Installing bootloader", run_bootloader_install m);
    (FINALIZATION, "Finalizing installation", run_finalization m) ].

(** [InstallationManager(config)]. *)
Definition new (cfg : AppConfig) (m : Managers) : InstallationManager :=
  init cfg (installation_steps m).

(** *** validate_prerequisites

    The host, as the three queries of [validate_prerequisites] see it:
    [os.geteuid()], [Path(p).exists()] and [any(Path(p).iterdir())], each
    answering for the path text it is given.  The two queries of the file
    system can raise: [Path.exists()] when the path cannot be examined
    ([PermissionError]), [Path.iterdir()] when the path is no directory
    ([NotADirectoryError]) or cannot be read.  [path_str] is the text
    that [str(Path(p))] gives. *)
Record Host : Type := mkHost {
  geteuid : Z;
  exists_ : string -> result bool;
  any_iterdir : string -> result bool;
  path_str : string -> string
}.

Inductive Level : Type :=
| INFO
| WARNING
| ERROR.

Definition LogRecord : Type := (Level * string)%type.

(** [validate_prerequisites] has no handler: what a query raises leaves
    it.  The second component is what was logged until then. *)
Definition validate_prerequisites (self : InstallationManager) (h : Host)
  : result bool * list LogRecord :=
  let cfg := config self in
  let log0 : list LogRecord :=
    [(INFO, "Validating installation prerequisites")] in
  if negb (dry_run cfg) && negb (geteuid h =? 0) then
    (Returned false, app log0 [(ERROR, "Installation must run as root")])
  else
    let target := target_disk (disk cfg) in
    (* not self.config.dry_run and not target_disk.exists() *)
    let disk_missing : result bool :=
      if negb (dry_run cfg) then
        match exists_ h target with
        | Returned present => Returned (negb present)
        | Raised e => Raised e
        end
      else Returned false in
    match disk_missing with
    | Raised e => (Raised e, log0)
    | Returned true =>
        (Returned false,
         app log0
           [(ERROR, "Target disk does not exist: " ++ path_str h target)])
    | Returned false =>
        let mount := mount_point cfg in
        (* mount_point.exists() and any(mount_point.iterdir()) *)
        let not_empty : result bool :=
          match exists_ h mount with
          | Returned true => any_iterdir h mount
          | Returned false => Returned false
          | Raised e => Raised e
          end in
        match not_empty with
        | Raised e => (Raised e, log0)
        | Returned warn =>
            let log1 :=
              if warn then
                app log0
                  [(WARNING,
                    "Mount point is not empty: " ++ path_str h mount)]
              else log0 in
            (Returned true,
             app log1 [(INFO, "Prerequisites validation completed")])
        end
    end.

End Installer.

(* ===================================================================== *)
(** ** utils/system.py: run_command                                       *)
(* ===================================================================== *)

Module System.

Definition bytes : Type := list Byte.byte.

(** What the child process does once it has been spawned, as
    [process.communicate()] observes it: it exits by itself after some
    time with a return code and what it wrote, it never exits, or the
    await is interrupted by an exception of its own (for instance
    [asyncio.CancelledError]). *)
Inductive Child : Type :=
| Exits (after : Q) (returncode : Z) (out err : bytes)
| NeverExits
| Interrupted (e : exn).

(** The collaborators of [run_command]:
    [asyncio.create_subprocess_exec] applied to the command, [cwd] and [env], which
    raises when the process cannot be launched; [bytes.decode('utf-8')],
    which raises [UnicodeDecodeError] on ill-formed input; and what
    [process.kill()] and [await process.wait()] do in the handler of the
    timeout: [None] when the call returns, [Some e] when it raises [e]
    ([kill] raises [ProcessLookupError] when the process has exited in
    the meantime). *)
Record Host : Type := mkHost {
  create_subprocess_exec :
    list string -> option string -> option (list (string * string)) ->
    result Child;
  decode_utf8 : bytes -> result string;
  kill : option exn;
  wait : option exn
}.

(** Operations performed on the process handle, in order (ghost). *)
Inductive ProcessOp : Type :=
| Spawn
| Communicate
| Kill
| Wait.

(** [asyncio.TimeoutError()], whose [str] is empty. *)
Definition timeout_error : exn := mk_exn TimeoutError "".

(** What reading the unbound local [process] raises. *)
Definition unbound_process : exn :=
  mk_exn OtherException
    "cannot access local variable 'process' where it is not associated with a value".

(** [await asyncio.wait_for(process.communicate(), timeout=timeout)].
    [None]: the await never completes.  With [capture_output] false the
    streams are not piped and [communicate] gives [None] for both. *)
Definition wait_for_communicate
  (child : Child) (timeout : option Q) (capture_output : bool)
  : option (result (Z * option bytes * option bytes)) :=
  let piped (b : bytes) := if capture_output then Some b else None in
  match child with
  | Interrupted e => Some (Raised e)
  | NeverExits =>
      match timeout with
      | Some _ => Some (Raised timeout_error)
      | None => None
      end
  | Exits after rc out err =>
      match timeout with
      | Some t =>
          if Qle_bool after t
          then Some (Returned (rc, piped out, piped err))
          else Some (Raised timeout_error)
      | None => Some (Returned (rc, piped out, piped err))
      end
  end.

(** [stdout.decode('utf-8')] if [stdout] is truthy, else the empty text. *)
Definition decode_or_empty (h : Host) (data : option bytes) : result string :=
  match data with
  | None => Returned ""
  | Some [] => Returned ""
  | Some b => decode_utf8 h b
  end.

(** The two [except] clauses of [run_command]; [process] is [None] while
    the local variable is still unbound.  An exception raised inside the
    first handler, by reading [process], by [kill] or by [wait], is not
    caught by the second one: it leaves [run_command]. *)
Definition run_command_except
  (h : Host) (process : option Child) (e : exn) (ops : list ProcessOp)
  : result (Z * string * string) * list ProcessOp :=
  if is_TimeoutError e then
    match process with
    | Some _ =>
        match kill h with
        | Some e' => (Raised e', app ops [Kill])
        | None =>
            match wait h with
            | Some e' => (Raised e', app ops [Kill; Wait])
            | None =>
                (Returned (-1, "", "Command timed out"),
                 app ops [Kill; Wait])
            end
        end
    | None => (Raised unbound_process, ops)
    end
  else if is_Exception e then (Returned (-1, "", exn_str e), ops)
  else (Raised e, ops).

(** [run_command].  The first component is [None] when the call never
    returns (a child that never exits, awaited without timeout). *)
Definition run_command
  (h : Host) (command : list string) (cwd : option string)
  (env : option (list (string * string))) (timeout : option Q)
  (capture_output : bool)
  : option (result (Z * string * string)) * list ProcessOp :=
  let some '(r, ops) := (Some r, ops) in
  match create_subprocess_exec h command cwd env with
  | Raised e => some (run_command_except h None e [])
  | Returned process =>
      let ops := [Spawn; Communicate] in
      match wait_for_communicate process timeout capture_output with
      | None => (None, ops)
      | Some (Raised e) => some (run_command_except h (Some process) e ops)
      | Some (Returned (returncode, stdout, stderr)) =>
          match decode_or_empty h stdout with
          | Raised e => some (run_command_except h (Some process) e ops)
          | Returned stdout_str =>
              match decode_or_empty h stderr with
              | Raised e => some (run_command_except h (Some process) e ops)
              | Returned stderr_str =>
                  (Some (Returned (returncode, stdout_str, stderr_str)), ops)
              end
          end
      end
  end.

End System.

(* ===================================================================== *)
(** ** core/app.py: step navigation of GentooUIApp                        *)
(* ===================================================================== *)

Module App.

(** [str(n)] for a Python [int]. *)
Definition str_int (n : Z) : string :=
  DecimalString.NilZero.string_of_int (Z.to_int n).

(** The reactive attributes of the application, its step table, and the
    two widgets that the navigation updates. *)
Record GentooUIApp : Type := mkApp {
  current_step : Z;
  total_steps : Z;
  installation_active : bool;
  dry_run_mode : bool;
  steps : list (string * string);
  main_progress : Z;                 (* ProgressBar "#main-progress" *)
  step_counter : string              (* Static "#step-counter" *)
}.

Definition step_counter_text (current total : Z) : string :=
  "Step " ++ str_int (current + 1) ++ "/" ++ str_int total.

(** The class attributes, [__init__], [compose] and [on_mount]. *)
Definition new (cfg : Config.AppConfig) : GentooUIApp :=
  mkApp 0 7 false (Config.dry_run cfg)
        [ ("Welcome", "welcome");
          ("Disk Setup", "disk_setup");
          ("Stage3", "stage3");
          ("Configuration", "configuration");
          ("Kernel", "kernel");
          ("Bootloader", "bootloader");
          ("Finalization", "finalization") ]
        0 (step_counter_text 0 7).

Definition update_step_counter (self : GentooUIApp) : GentooUIApp :=
  mkApp (current_step self) (total_steps self) (installation_active self)
        (dry_run_mode self) (steps self) (main_progress self)
        (step_counter_text (current_step self) (total_steps self)).

Definition set_step (self : GentooUIApp) (i : Z) : GentooUIApp :=
  mkApp i (total_steps self) (installation_active self)
        (dry_run_mode self) (steps self) i (step_counter self).

Definition advance_step (self : GentooUIApp) : GentooUIApp :=
  if current_step self <? total_steps self - 1 then
    update_step_counter (set_step self (current_step self + 1))
  else self.

Definition previous_step (self : GentooUIApp) : GentooUIApp :=
  if current_step self >? 0 then
    update_step_counter (set_step self (current_step self - 1))
  else self.

(** A navigation request, and a finite sequence of them. *)
Inductive Nav : Type :=
| Advance
| Retreat.

Definition navigate (self : GentooUIApp) (op : Nav) : GentooUIApp :=
  match op with
  | Advance => advance_step self
  | Retreat => previous_step self
  end.

Definition navigate_all (self : GentooUIApp) (ops : list Nav) : GentooUIApp :=
  fold_left navigate ops self.

End App.

(* ===================================================================== *)
(** ** Vocabulary of the properties                                       *)
(* ===================================================================== *)

Module Trace.

Import Installer.

(** The callback honours its signature [Callable[[StepProgress], None]]:
    whenever it is called it returns.  No callback at all counts. *)
Definition returns_normally (cb : option Callback) : Prop :=
  match cb with
  | None => True
  | Some f => forall seen ev, f seen ev = None
  end.

(** Every exception a callback raises is an instance of [Exception]. *)
Definition raises_only_Exception (cb : option Callback) : Prop :=
  match cb with
  | None => True
  | Some f => forall seen ev e, f seen ev = Some e -> is_Exception e = true
  end.

(** What a stage coroutine reports, and how it ends, when every one of
    its [_report_progress] calls returns. *)
Fixpoint reports {R : Type} (c : Coro R) : list StepProgress :=
  match c with
  | Report s n p st k => mkStepProgress s n p st None None :: reports (k None)
  | _ => []
  end.

Fixpoint outcome {R : Type} (c : Coro R) : result R :=
  match c with
  | Return r => Returned r
  | Raise e => Raised e
  | Report _ _ _ _ k => outcome (k None)
  end.

(** Every exception that can come out of a stage coroutine, whatever the
    callback does, is an instance of [Exception]. *)
Fixpoint raises_only_Exception_coro {R : Type} (c : Coro R) : Prop :=
  match c with
  | Return _ => True
  | Raise e => is_Exception e = true
  | Report _ _ _ _ k => forall raised, raises_only_Exception_coro (k raised)
  end.

Definition stage_step (stg : Stage) : InstallationStep := fst (fst stg).
Definition stage_name (stg : Stage) : string := snd (fst stg).
Definition stage_func (stg : Stage) : Coro bool := snd stg.

(** The stage returns True. *)
Definition succeeds (stg : Stage) : Prop :=
  outcome (stage_func stg) = Returned true.

(** The stage returns False, or raises an error (an instance of
    [Exception]). *)
Definition fails (stg : Stage) : Prop :=
  outcome (stage_func stg) = Returned false \/
  exists e, outcome (stage_func stg) = Raised e /\ is_Exception e = true.

(** The four events that the loop of [run_full_installation] emits. *)
Definition starting (s : InstallationStep) (n : string) : StepProgress :=
  mkStepProgress s n 0%Q "Starting..." None None.

Definition completed (s : InstallationStep) (n : string) : StepProgress :=
  mkStepProgress s n 1%Q "Completed" None None.

Definition failed (s : InstallationStep) (n : string) : StepProgress :=
  mkStepProgress s n 0%Q "Failed" None (Some ("Step failed: " ++ n)).

Definition errored (s : InstallationStep) (n : string) (e : exn)
  : StepProgress :=
  mkStepProgress s n 0%Q "Error" None
    (Some ("Exception in step " ++ n ++ ": " ++ exn_str e)).

(** The event that closes a stage, by the way its coroutine ended. *)
Definition terminal (s : InstallationStep) (n : string) (o : result bool)
  : StepProgress :=
  match o with
  | Returned true => completed s n
  | Returned false => failed s n
  | Raised e => errored s n e
  end.

(** Everything emitted for one stage that was started and closed: the
    "starting" event, the reports of the stage itself, the terminal
    event. *)
Definition block (stg : Stage) : list (Origin * StepProgress) :=
  let '(s, n, func) := stg in
  (ByOrchestrator, starting s n)
    :: map (pair ByStage) (reports func)
    ++ [(ByOrchestrator, terminal s n (outcome func))].

(** The events of a trace that the orchestrator emitted itself. *)
Definition by_orchestrator (o : Origin) : bool :=
  match o with
  | ByOrchestrator => true
  | ByStage => false
  end.

Definition own (tr : list (Origin * StepProgress)) : list StepProgress :=
  map snd (filter (fun x => by_orchestrator (fst x)) tr).

(** The entry of [invoked] for a stage awaited while it is current. *)
Definition launch (stg : Stage)
  : InstallationStep * option InstallationStep :=
  (stage_step stg, Some (stage_step stg)).

(** The event carries a non-empty error message. *)
Definition has_error (ev : StepProgress) : bool :=
  match error ev with
  | Some msg => negb (msg =? "")%string
  | None => false
  end.

Definition is_status (st : string) (ev : StepProgress) : bool :=
  (status ev =? st)%string.

(** The manager once the callback has returned from each event of [evs],
    emitted in this order. *)
Definition quiet_emit
  (self : InstallationManager) (evs : list (Origin * StepProgress))
  : InstallationManager :=
  mkManager (config self) (progress_callback self) (current_step self)
            (steps self) (emitted self ++ evs)
            (match progress_callback self with
             | Some _ => delivered self ++ map snd evs
             | None => delivered self
             end)
            (invoked self).

(** The manager when the coroutine of a stage that was started has ended,
    and after the stage has been closed as well, the callback returning
    from every event. *)
Definition stage_ended (self : InstallationManager) (stg : Stage)
  : InstallationManager :=
  let '(s, n, func) := stg in
  quiet_emit
    (log_invoked
       (quiet_emit (set_current_step self s)
                   [(ByOrchestrator, starting s n)]) s)
    (map (pair ByStage) (reports func)).

Definition after_stage (self : InstallationManager) (stg : Stage)
  : InstallationManager :=
  let '(s, n, func) := stg in
  quiet_emit (stage_ended self stg)
             [(ByOrchestrator, terminal s n (outcome func))].

Definition after_stages
  (self : InstallationManager) (stgs : list Stage) : InstallationManager :=
  fold_left after_stage stgs self.

(** What was emitted between two states of the manager. *)
Definition emitted_since (before after : InstallationManager)
  : list (Origin * StepProgress) :=
  skipn (List.length (emitted before)) (emitted after).

(** The two events of the orchestrator's own for a stage: the opening
    one and the closing one. *)
Definition brackets (stg : Stage) : list StepProgress :=
  let '(s, n, func) := stg in [starting s n; terminal s n (outcome func)].

(** The same when the stage succeeded. *)
Definition success_brackets (stg : Stage) : list StepProgress :=
  [starting (stage_step stg) (stage_name stg);
   completed (stage_step stg) (stage_name stg)].

(** What the registered callback was handed when [tr] was emitted and it
    returned every time. *)
Definition handed (cb : option Callback) (tr : list (Origin * StepProgress))
  : list StepProgress :=
  match cb with
  | Some _ => map snd tr
  | None => []
  end.

(** The coroutine that reports as [c] does but returns False wherever [c]
    raises. *)
Fixpoint returning_False (c : Coro bool) : Coro bool :=
  match c with
  | Return b => Return b
  | Raise _ => Return false
  | Report s n p st k => Report s n p st (fun raised => returning_False (k raised))
  end.

(** The manager with another stage sequence. *)
Definition with_steps (self : InstallationManager) (stgs : list Stage)
  : InstallationManager :=
  mkManager (config self) (progress_callback self) (current_step self) stgs
            (emitted self) (delivered self) (invoked self).

(** An exception that leaves a call is an error: an instance of
    [Exception]. *)
Definition contained {R : Type} (r : result R) : Prop :=
  match r with
  | Returned _ => True
  | Raised e => is_Exception e = true
  end.

(** The manager with another callback, or none. *)
Definition with_callback (self : InstallationManager) (cb : option Callback)
  : InstallationManager :=
  mkManager (config self) cb (current_step self) (steps self)
            (emitted self) (delivered self) (invoked self).

(** An emitted event that carries an error message is one of the
    orchestrator's own and stands at progress 0.0. *)
Definition error_at_zero (x : Origin * StepProgress) : Prop :=
  has_error (snd x) = true -> progress (snd x) = 0%Q /\ fst x = ByOrchestrator.

(** An entry of [invoked] whose stage was the current one when awaited. *)
Definition awaited_while_current
  (x : InstallationStep * option InstallationStep) : Prop :=
  snd x = Some (fst x).

(** [after] is [self] with more events emitted, all of them satisfying
    [error_at_zero], and nothing else of the orchestration changed. *)
Definition only_emits (self after : InstallationManager) : Prop :=
  config after = config self
  /\ progress_callback after = progress_callback self
  /\ steps after = steps self
  /\ current_step after = current_step self
  /\ invoked after = invoked self
  /\ exists evs, emitted after = (emitted self ++ evs)%list /\ Forall error_at_zero evs.

(** What was awaited between two states of the manager. *)
Definition invoked_since (before after : InstallationManager)
  : list (InstallationStep * option InstallationStep) :=
  skipn (List.length (invoked before)) (invoked after).

(** [after] is [self] after some turns of the loop over stages of
    [todo]. *)
Definition loop_progress
  (todo : list Stage) (self after : InstallationManager) : Prop :=
  config after = config self
  /\ progress_callback after = progress_callback self
  /\ steps after = steps self
  /\ (exists evs, emitted after = (emitted self ++ evs)%list /\ Forall error_at_zero evs)
  /\ (exists ens, invoked after = (invoked self ++ ens)%list
                  /\ Forall awaited_while_current ens)
  /\ (todo = [] -> current_step after = current_step self)
  /\ (todo <> [] ->
      exists stg, In stg todo /\ current_step after = Some (stage_step stg)).

End Trace.

(* ===================================================================== *)
(** ** Vocabulary of the properties of the runner and the navigator       *)
(* ===================================================================== *)

Module Runner.

Import System.

(** The child is still running when [t] seconds have passed. *)
Definition exceeds (child : Child) (t : Q) : Prop :=
  match child with
  | Exits after _ _ _ => (t < after)%Q
  | NeverExits => True
  | Interrupted _ => False
  end.

(** Whatever goes wrong on the host is an ordinary error: a launch that
    fails raises an [Exception] other than [asyncio.TimeoutError] (an
    [OSError] such as [FileNotFoundError] or [PermissionError]), and an
    interrupted await or a failing decoder raise an instance of
    [Exception]. *)
Definition ordinary_failures
  (h : Host) (command : list string) (cwd : option string)
  (env : option (list (string * string))) : Prop :=
  (forall e, create_subprocess_exec h command cwd env = Raised e ->
             exn_class e = OtherException)
  /\ (forall e, create_subprocess_exec h command cwd env
                = Returned (Interrupted e) ->
                is_Exception e = true)
  /\ (forall b e, decode_utf8 h b = Raised e -> is_Exception e = true)
  /\ kill h = None
  /\ wait h = None.

End Runner.

Module Wizard.

Import App.

(** The index is a valid position of the step sequence. *)
Definition in_range (self : GentooUIApp) : Prop :=
  0 <= current_step self <= total_steps self - 1.

(** The identifiers of the navigator's steps, and the values of the steps
    of the orchestrator's stages, in order. *)
Definition navigator_ids (self : GentooUIApp) : list string :=
  map snd (steps self).

Definition orchestrator_ids (stgs : list Installer.Stage) : list string :=
  map (fun stg => Installer.value (fst (fst stg))) stgs.

Definition navigator_names (self : GentooUIApp) : list string :=
  map fst (steps self).

Definition orchestrator_names (stgs : list Installer.Stage) : list string :=
  map (fun stg => snd (fst stg)) stgs.

Fixpoint same_texts (l1 l2 : list string) : bool :=
  match l1, l2 with
  | [], [] => true
  | x :: l1', y :: l2' => (x =? y)%string && same_texts l1' l2'
  | _, _ => false
  end.

Definition occurs_in (l : list string) (x : string) : bool :=
  existsb (String.eqb x) l.

End Wizard.

(* ===================================================================== *)
(** ** Concrete managers, callbacks and hosts                             *)
(* ===================================================================== *)

Module Demo.

Import Config Installer.

(** A callback that records nothing and returns. *)
Definition silent : Callback := fun _ _ => None.

(** A callback that raises [RuntimeError("widget gone")] when it is handed
    an event whose status is "Failed", and returns otherwise. *)
Definition raises_on_failed : Callback :=
  fun _ ev =>
    if (status ev =? "Failed")%string
    then Some (mk_exn OtherException "widget gone")
    else None.

(** A callback that raises [RuntimeError("widget gone")] when it is handed
    an event whose status is "Completed", and returns otherwise. *)
Definition raises_on_completed : Callback :=
  fun _ ev =>
    if (status ev =? "Completed")%string
    then Some (mk_exn OtherException "widget gone")
    else None.

Definition KeyboardInterrupt : exn := mk_exn BaseExceptionOnly "".

Definition RuntimeError (msg : string) : exn := mk_exn OtherException msg.

(** Three stages: A succeeds, B returns False, C would succeed. *)
Definition stage_A : Stage := (DISK_SETUP, "Setting up disk partitions", Return true).
Definition stage_B : Stage := (STAGE3_DOWNLOAD, "Downloading Stage3", Return false).
Definition stage_C : Stage := (STAGE3_EXTRACT, "Extracting Stage3", Return true).

(** B when it raises [RuntimeError("no network")] instead, and when it is
    interrupted by Ctrl-C. *)
Definition stage_B_raises : Stage :=
  (STAGE3_DOWNLOAD, "Downloading Stage3", Raise (RuntimeError "no network")).

Definition stage_B_interrupted : Stage :=
  (STAGE3_DOWNLOAD, "Downloading Stage3", Raise KeyboardInterrupt).

Definition manager (cb : option Callback) (stgs : list Stage)
  : InstallationManager :=
  mkManager default_AppConfig cb None stgs [] [] [].

(** Collaborators for which every operation succeeds at once. *)
Definition obliging : Managers :=
  mkManagers
    (mkDiskManager (Returned true) (Returned true) (Returned true) (Returned true))
    (mkStage3Manager (Progress (1 # 2) "Downloading..." (fun _ => Finish true))
                     (Finish true))
    (mkPortageManager (Finish true))
    (mkKernelManager (Finish true) (Finish true) (Finish true))
    (mkBootloaderManager (Finish true))
    (mkSystemManager (Finish true) (Finish true)).

Definition CancelledError : exn := mk_exn BaseExceptionOnly "".

Definition stage_B_cancelled : Stage :=
  (STAGE3_DOWNLOAD, "Downloading Stage3", Raise CancelledError).

(** A host on which the installer is not root, the target disk is
    missing and the mount point holds files. *)
Definition hostile : Host :=
  mkHost 1000 (fun p => Returned (p =? "/mnt/gentoo")%string)
         (fun _ => Returned true) (fun p => p).

(** A host on which the installer is root and the mount point is a
    regular file. *)
Definition NotADirectoryError (path : string) : exn :=
  mk_exn OtherException ("[Errno 20] Not a directory: '" ++ path ++ "'").

Definition mount_point_is_a_file : Host :=
  mkHost 0 (fun _ => Returned true)
         (fun p => Raised (NotADirectoryError p)) (fun p => p).

Definition dry_config : AppConfig :=
  mkAppConfig true false default_DiskConfig "/mnt/gentoo" "/tmp/gentooui".

(** A host on which [sleep] runs for a hundred seconds and writes
    nothing, and nothing else can be launched. *)
Definition FileNotFoundError (file : string) : exn :=
  mk_exn OtherException
    ("[Errno 2] No such file or directory: '" ++ file ++ "'").

Definition sleepy : System.Host :=
  System.mkHost
    (fun command _ _ =>
       match command with
       | "sleep" :: _ => Returned (System.Exits 100 0 [] [])
       | file :: _ => Raised (FileNotFoundError file)
       | [] => Raised (mk_exn OtherException
                         "create_subprocess_exec() missing 1 required positional argument: 'program'")
       end)
    (fun _ => Returned "") None None.

(** A host on which the command is launched and the await of its end is
    cancelled. *)
Definition cancelled : System.Host :=
  System.mkHost (fun _ _ _ => Returned (System.Interrupted CancelledError))
    (fun _ => Returned "") None None.

(** A host on which the launch itself times out ([TimeoutError] is the
    [OSError] of the error number [ETIMEDOUT], and
    [asyncio.TimeoutError] is [TimeoutError]). *)
Definition launch_times_out : System.Host :=
  System.mkHost
    (fun _ _ _ => Raised (mk_exn TimeoutError
                            "[Errno 110] Connection timed out"))
    (fun _ => Returned "") None None.

(** A host on which [sleep] runs for five seconds and one tenth, and has
    exited when the handler of the timeout calls [kill]. *)
Definition ProcessLookupError : exn := mk_exn OtherException "".

Definition exits_before_kill : System.Host :=
  System.mkHost
    (fun _ _ _ => Returned (System.Exits (51 # 10) 0 [] []))
    (fun _ => Returned "") (Some ProcessLookupError) None.

End Demo.

(* ===================================================================== *)
(** ** Vocabulary of the properties of the stage coroutines               *)
(* ===================================================================== *)

Module StageProps.

Import Installer Trace.

(** Every report of the coroutine, whatever the callback answers, carries
    step [s] and name [n]. *)
Fixpoint bound_to {R : Type} (s : InstallationStep) (n : string) (c : Coro R)
  : Prop :=
  match c with
  | Report s' n' _ _ k =>
      s' = s /\ n' = n /\ forall raised, bound_to s n (k raised)
  | _ => True
  end.

(** Whatever the callback answers, the coroutine lets no instance of
    [Exception] out. *)
Fixpoint keeps_Exceptions_in {R : Type} (c : Coro R) : Prop :=
  match c with
  | Return _ => True
  | Raise e => is_Exception e = false
  | Report _ _ _ _ k => forall raised, keeps_Exceptions_in (k raised)
  end.

(** The result is a return, or an exception that is no [Exception]. *)
Definition only_interrupts {R : Type} (r : result R) : Prop :=
  match r with
  | Returned _ => True
  | Raised e => is_Exception e = false
  end.

(** The body of the [try] statement of each of the ten stage
    coroutines. *)
Definition try_body (m : Managers) (s : InstallationStep) : Coro bool :=
  match s with
  | DISK_SETUP =>
      let dm := disk_manager m in
      let n := "Setting up disk partitions" in
      report_then DISK_SETUP n (1 # 10) "Creating partition table..."
      (unless_return_False (create_partition_table dm)
      (report_then DISK_SETUP n (3 # 10) "Creating partitions..."
      (unless_return_False (create_partitions dm)
      (report_then DISK_SETUP n (6 # 10) "Formatting filesystems..."
      (unless_return_False (format_filesystems dm)
      (report_then DISK_SETUP n (9 # 10) "Mounting filesystems..."
      (unless_return_False (mount_filesystems dm)
      (Return true))))))))
  | STAGE3_DOWNLOAD =>
      with_progress_callback STAGE3_DOWNLOAD "Downloading Stage3"
        (download_stage3 (stage3_manager m))
  | STAGE3_EXTRACT =>
      with_progress_callback STAGE3_EXTRACT "Extracting Stage3"
        (extract_stage3 (stage3_manager m))
  | PORTAGE_SETUP =>
      with_progress_callback PORTAGE_SETUP "Configuring Portage"
        (setup_portage (portage_manager m))
  | SYSTEM_CONFIG =>
      with_progress_callback SYSTEM_CONFIG "System configuration"
        (configure_system (system_manager m))
  | KERNEL_INSTALL =>
      with_progress_callback KERNEL_INSTALL "Installing kernel sources"
        (install_sources (kernel_manager m))
  | KERNEL_CONFIG =>
      with_progress_callback KERNEL_CONFIG "Configuring kernel"
        (configure_kernel (kernel_manager m))
  | KERNEL_COMPILE =>
      with_progress_callback KERNEL_COMPILE "Compiling kernel"
        (compile_kernel (kernel_manager m))
  | BOOTLOADER_INSTALL =>
      with_progress_callback BOOTLOADER_INSTALL "Installing bootloader"
        (install_bootloader (bootloader_manager m))
  | FINALIZATION =>
      with_progress_callback FINALIZATION "Finalizing installation"
        (finalize_installation (system_manager m))
  end.

(** What becomes of the way the body of a [try] ended under
    [except Exception: return False]. *)
Definition turned_into_False (r : result bool) : result bool :=
  match r with
  | Returned b => Returned b
  | Raised e => if is_Exception e then Returned false else Raised e
  end.

(** The event carries the step and the name of an entry of the table. *)
Definition tagged (table : list (InstallationStep * string))
  (x : Origin * StepProgress) : Prop :=
  In (step (snd x), name (snd x)) table.

(** All these events carry step [s] and name [n]. *)
Definition all_tagged (s : InstallationStep) (n : string)
  (evs : list (Origin * StepProgress)) : Prop :=
  Forall (fun x => step (snd x) = s /\ name (snd x) = n) evs.

(** The events fall into one segment per stage, in the order of the
    stages: the segment of a stage begins with the orchestrator's
    "Starting..." event for it and holds only events that carry its step
    and its name; the stages from some stage on have no events. *)
Fixpoint segmented (stgs : list Stage) (evs : list (Origin * StepProgress))
  : Prop :=
  match stgs with
  | [] => evs = []
  | stg :: rest =>
      evs = []
      \/ exists more later,
           evs = app ((ByOrchestrator,
                       mkStepProgress (fst (fst stg)) (snd (fst stg)) 0%Q
                         "Starting..." None None) :: more) later
           /\ all_tagged (fst (fst stg)) (snd (fst stg)) more
           /\ segmented rest later
  end.

(** [after] has emitted what [self] had and then events satisfying [P]. *)
Definition grows (P : Origin * StepProgress -> Prop)
  (self after : InstallationManager) : Prop :=
  exists evs, emitted after = (emitted self ++ evs)%list /\ Forall P evs.




End StageProps.

(* ===================================================================== *)
(** ** More concrete collaborators                                        *)
(* ===================================================================== *)

Module Samples.

Import Config Installer.

(** Collaborators whose Stage3 download reports once and then raises
    [RuntimeError("no network")]; everything else succeeds at once. *)
Definition offline : Managers :=
  mkManagers
    (mkDiskManager (Returned true) (Returned true) (Returned true) (Returned true))
    (mkStage3Manager
       (Progress (1 # 10) "Connecting..."
          (fun _ => Fail (mk_exn OtherException "no network")))
       (Finish true))
    (mkPortageManager (Finish true))
    (mkKernelManager (Finish true) (Finish true) (Finish true))
    (mkBootloaderManager (Finish true))
    (mkSystemManager (Finish true) (Finish true)).

End Samples.

(* ===================================================================== *)
(** ** core/app.py: screens and their callbacks                           *)
(* ===================================================================== *)

Module Screens.

Import App.

(** The screen classes that the application mounts in "#content-area". *)
Inductive Screen : Type :=
| WelcomeScreen
| DiskSetupScreen
| Stage3Screen
| ConfigurationScreen
| KernelScreen
| BootloaderScreen
| FinalizationScreen.

(** The application once mounted: its attributes and widgets as in
    [App.GentooUIApp], the child of "#content-area" and the text of
    "#status-text". *)
Record Mounted : Type := mkMounted {
  app : GentooUIApp;
  content_area : option Screen;
  status_text : string
}.

(** [update_status]: the widget is mounted, the update goes through. *)
Definition update_status (self : Mounted) (message : string) : Mounted :=
  mkMounted (app self) (content_area self) message.

(** [content_area.remove_children(); content_area.mount(screen)]. *)
Definition mount (self : Mounted) (screen : Screen) : Mounted :=
  mkMounted (app self) (Some screen) (status_text self).

Definition with_app (self : Mounted) (a : GentooUIApp) : Mounted :=
  mkMounted a (content_area self) (status_text self).

Definition show_welcome_screen (self : Mounted) : Mounted :=
  update_status (mount self WelcomeScreen)
    "Welcome - Review system information and configuration".

Definition show_disk_setup_screen (self : Mounted) : Mounted :=
  update_status (mount self DiskSetupScreen)
    "Disk Setup - Configure partitions and file systems".

Definition show_stage3_screen (self : Mounted) : Mounted :=
  update_status (mount self Stage3Screen)
    "Stage3 - Download and extract base system".

Definition show_configuration_screen (self : Mounted) : Mounted :=
  update_status (mount self ConfigurationScreen)
    "Configuration - Set up system configuration".

Definition show_kernel_screen (self : Mounted) : Mounted :=
  update_status (mount self KernelScreen)
    "Kernel - Configure and compile kernel".

Definition show_bootloader_screen (self : Mounted) : Mounted :=
  update_status (mount self BootloaderScreen)
    "Bootloader - Install and configure bootloader".

Definition show_finalization_screen (self : Mounted) : Mounted :=
  update_status (mount self FinalizationScreen)
    "Finalization - Complete installation and cleanup".

(** [on_mount], on the application that [compose] has laid out (the
    status text reads "Ready"). *)
Definition on_mount (a : GentooUIApp) : Mounted :=
  let self := show_welcome_screen (mkMounted a None "Ready") in
  with_app self
    (mkApp (current_step (app self)) (total_steps (app self))
           (installation_active (app self)) (dry_run_mode (app self))
           (steps (app self)) (current_step (app self))
           (step_counter (app self))).

(** The event handlers. *)
Definition on_welcome_continue (self : Mounted) : Mounted :=
  show_disk_setup_screen (with_app self (advance_step (app self))).

Definition on_disk_setup_continue (self : Mounted) : Mounted :=
  show_stage3_screen (with_app self (advance_step (app self))).

Definition on_stage3_continue (self : Mounted) : Mounted :=
  show_configuration_screen (with_app self (advance_step (app self))).

Definition on_configuration_continue (self : Mounted) : Mounted :=
  show_kernel_screen (with_app self (advance_step (app self))).

Definition on_kernel_continue (self : Mounted) : Mounted :=
  show_bootloader_screen (with_app self (advance_step (app self))).

Definition on_bootloader_continue (self : Mounted) : Mounted :=
  show_finalization_screen (with_app self (advance_step (app self))).

Definition on_installation_complete (self : Mounted) : Mounted :=
  let self := update_status self "Installation completed successfully!" in
  with_app self
    (mkApp (current_step (app self)) (total_steps (app self))
           false (dry_run_mode (app self))
           (steps (app self)) (main_progress (app self))
           (step_counter (app self))).

Definition on_back_to_welcome (self : Mounted) : Mounted :=
  show_welcome_screen (with_app self (previous_step (app self))).

Definition on_back_to_disk_setup (self : Mounted) : Mounted :=
  show_disk_setup_screen (with_app self (previous_step (app self))).

Definition on_back_to_stage3 (self : Mounted) : Mounted :=
  show_stage3_screen (with_app self (previous_step (app self))).

Definition on_back_to_configuration (self : Mounted) : Mounted :=
  show_configuration_screen (with_app self (previous_step (app self))).

Definition on_back_to_kernel (self : Mounted) : Mounted :=
  show_kernel_screen (with_app self (previous_step (app self))).

Definition on_load_config (self : Mounted) (config_path : string) : Mounted :=
  update_status self ("Loaded configuration from " ++ config_path).

(** The bound methods of the application that the [show_*_screen]
    methods hand to the screens.  The methods are not guarded: each of
    them can be called whatever screen is shown. *)
Inductive Handler : Type :=
| welcome_continue
| disk_setup_continue
| stage3_continue
| configuration_continue
| kernel_continue
| bootloader_continue
| installation_complete
| back_to_welcome
| back_to_disk_setup
| back_to_stage3
| back_to_configuration
| back_to_kernel
| load_config (config_path : string).

(** A call of a handler. *)
Definition call (self : Mounted) (h : Handler) : Mounted :=
  match h with
  | welcome_continue => on_welcome_continue self
  | disk_setup_continue => on_disk_setup_continue self
  | stage3_continue => on_stage3_continue self
  | configuration_continue => on_configuration_continue self
  | kernel_continue => on_kernel_continue self
  | bootloader_continue => on_bootloader_continue self
  | installation_complete => on_installation_complete self
  | back_to_welcome => on_back_to_welcome self
  | back_to_disk_setup => on_back_to_disk_setup self
  | back_to_stage3 => on_back_to_stage3 self
  | back_to_configuration => on_back_to_configuration self
  | back_to_kernel => on_back_to_kernel self
  | load_config config_path => on_load_config self config_path
  end.

Definition calls (self : Mounted) (hs : list Handler) : Mounted :=
  fold_left call hs self.

(** The keyword arguments [on_continue], [on_back] and [on_finish] with
    which [show_*_screen] constructs each screen. *)
Definition on_continue (screen : Screen) : option Handler :=
  match screen with
  | WelcomeScreen => Some welcome_continue
  | DiskSetupScreen => Some disk_setup_continue
  | Stage3Screen => Some stage3_continue
  | ConfigurationScreen => Some configuration_continue
  | KernelScreen => Some kernel_continue
  | BootloaderScreen => Some bootloader_continue
  | FinalizationScreen => None
  end.

Definition on_back (screen : Screen) : option Handler :=
  match screen with
  | WelcomeScreen => None
  | DiskSetupScreen => Some back_to_welcome
  | Stage3Screen => Some back_to_disk_setup
  | ConfigurationScreen => Some back_to_stage3
  | KernelScreen => Some back_to_configuration
  | BootloaderScreen => Some back_to_kernel
  | FinalizationScreen => None
  end.

Definition on_finish (screen : Screen) : option Handler :=
  match screen with
  | FinalizationScreen => Some installation_complete
  | _ => None
  end.

(** The handler is one of those the screen was constructed with; the
    Welcome screen also has [on_load_config], which takes a path. *)
Definition given (screen : Screen) (h : Handler) : bool :=
  match screen, h with
  | WelcomeScreen, welcome_continue => true
  | WelcomeScreen, load_config _ => true
  | DiskSetupScreen, disk_setup_continue => true
  | DiskSetupScreen, back_to_welcome => true
  | Stage3Screen, stage3_continue => true
  | Stage3Screen, back_to_disk_setup => true
  | ConfigurationScreen, configuration_continue => true
  | ConfigurationScreen, back_to_stage3 => true
  | KernelScreen, kernel_continue => true
  | KernelScreen, back_to_configuration => true
  | BootloaderScreen, bootloader_continue => true
  | BootloaderScreen, back_to_kernel => true
  | FinalizationScreen, installation_complete => true
  | _, _ => false
  end.

(** What the application cannot enforce and the screens, which are not
    part of these sources, have to respect: a handler is called by the
    screen that is mounted, and that screen was given it. *)
Definition in_turn (self : Mounted) (h : Handler) : Prop :=
  match content_area self with
  | Some screen => given screen h = true
  | None => False
  end.

(** Every call of the sequence is in turn when it is made. *)
Fixpoint each_in_turn (self : Mounted) (hs : list Handler) : Prop :=
  match hs with
  | [] => True
  | h :: rest => in_turn self h /\ each_in_turn (call self h) rest
  end.

(** The position of a screen in the order in which the handlers chain
    them. *)
Definition position (screen : Screen) : Z :=
  match screen with
  | WelcomeScreen => 0
  | DiskSetupScreen => 1
  | Stage3Screen => 2
  | ConfigurationScreen => 3
  | KernelScreen => 4
  | BootloaderScreen => 5
  | FinalizationScreen => 6
  end.

(** The display name of the current step, from [self.steps]. *)
Definition current_step_name (a : GentooUIApp) : option string :=
  option_map fst (nth_error (steps a) (Z.to_nat (current_step a))).

(** What holds of the mounted application through every session. *)
Definition in_step (self : Mounted) : Prop :=
  exists screen,
    content_area self = Some screen
    /\ current_step (app self) = position screen
    /\ main_progress (app self) = current_step (app self)
    /\ step_counter (app self)
       = step_counter_text (current_step (app self)) 7
    /\ total_steps (app self) = 7
    /\ installation_active (app self) = false
    /\ steps (app self) = steps (new Config.default_AppConfig).

End Screens.

(* ===================================================================== *)
(** ** utils/system.py: mounts, directories and required tools            *)
(* ===================================================================== *)

Module Mounts.

(** An entry of [psutil.disk_partitions()]. *)
Record Partition : Type := mkPartition {
  device : string;
  mountpoint : string;
  fstype : string
}.

(** The host as these functions see it: [psutil.disk_partitions()], which
    may raise; [Path.exists()], [Path.is_dir()] and the names that
    [Path.iterdir()] yields, which may raise (a directory that cannot be
    read); and [Path.mkdir(parents=True, exist_ok=True, mode=mode)],
    which answers [Some e] when it raises [e]. *)
Record Host : Type := mkHost {
  disk_partitions : result (list Partition);
  exists_ : string -> bool;
  is_dir : string -> bool;
  iterdir : string -> result (list string);
  mkdir : string -> Z -> option exn
}.

(** [try: <body> except Exception: return <fallback>]. *)
Definition except_return {A : Type} (fallback : A) (body : result A)
  : result A :=
  match body with
  | Returned a => Returned a
  | Raised e => if is_Exception e then Returned fallback else Raised e
  end.

(** The loop of [is_mounted]. *)
Fixpoint is_mounted_loop (partitions : list Partition) (device_path : string)
  : bool :=
  match partitions with
  | [] => false
  | partition :: rest =>
      if (device partition =? device_path)%string then true
      else is_mounted_loop rest device_path
  end.

Definition is_mounted (h : Host) (device_path : string) : result bool :=
  except_return false
    match disk_partitions h with
    | Returned partitions => Returned (is_mounted_loop partitions device_path)
    | Raised e => Raised e
    end.

(** The loop of [get_mount_point]. *)
Fixpoint get_mount_point_loop
  (partitions : list Partition) (device_path : string) : option string :=
  match partitions with
  | [] => None
  | partition :: rest =>
      if (device partition =? device_path)%string
      then Some (mountpoint partition)
      else get_mount_point_loop rest device_path
  end.

Definition get_mount_point (h : Host) (device_path : string)
  : result (option string) :=
  except_return None
    match disk_partitions h with
    | Returned partitions =>
        Returned (get_mount_point_loop partitions device_path)
    | Raised e => Raised e
    end.

(** [create_directory(path, mode=0o755)]. *)
Definition create_directory (h : Host) (path : string) (mode : Z)
  : result bool :=
  except_return false
    match mkdir h path mode with
    | None => Returned true
    | Some e => Raised e
    end.

(** [ensure_mount_point(path)]; the path stands for its text, which is
    what [str(path)] hands to [is_mounted].  [any(path.iterdir())] is
    true as soon as the directory has an entry. *)
Definition ensure_mount_point (h : Host) (path : string) : result bool :=
  except_return false
    (if exists_ h path then
       if is_dir h path then
         match is_mounted h path with
         | Raised e => Raised e
         | Returned true => Returned true
         | Returned false =>
             match iterdir h path with
             | Raised e => Raised e
             | Returned (_ :: _) => Returned false
             | Returned [] => Returned true
             end
         end
       else Returned false
     else create_directory h path 493).

End Mounts.

Module Tools.

Import Installer.

(** What [subprocess.run(["which", command], capture_output=True,
    check=True, timeout=5)] does: it returns ([which] exited with 0), it
    raises [CalledProcessError] (another exit status), it raises
    [TimeoutExpired], or it raises something else (for instance
    [FileNotFoundError] when there is no [which]). *)
Inductive Which : Type :=
| Found
| CalledProcessError
| TimeoutExpired
| Broken (e : exn).

(** The host as [check_system_compatibility] sees it:
    [platform.system()], [platform.machine()],
    [psutil.virtual_memory().total] and [which].  Each of the queries
    returns or raises. *)
Record Host : Type := mkHost {
  system : result string;
  machine : result string;
  virtual_memory : result Z;
  which : string -> Which
}.

Definition is_command_available (h : Host) (command : string) : result bool :=
  match which h command with
  | Found => Returned true
  | CalledProcessError => Returned false
  | TimeoutExpired => Returned false
  | Broken e => Raised e
  end.

Definition supported_archs : list string :=
  ["x86_64"; "amd64"; "i686"; "arm64"; "aarch64"].

Definition required_tools : list string :=
  ["fdisk"; "mkfs.ext4"; "mount"; "wget"; "tar"; "chroot"].

(** [', '.join(items)]. *)
Fixpoint join (sep : string) (items : list string) : string :=
  match items with
  | [] => ""
  | [x] => x
  | x :: rest => x ++ sep ++ join sep rest
  end.

(** The loop that collects the missing tools, in the order of the
    required ones; it stops when [is_command_available] raises. *)
Fixpoint missing_tools_loop (h : Host) (tools : list string)
  (missing : list string) : result (list string) :=
  match tools with
  | [] => Returned missing
  | tool :: rest =>
      match is_command_available h tool with
      | Raised e => Raised e
      | Returned true => missing_tools_loop h rest missing
      | Returned false => missing_tools_loop h rest (app missing [tool])
      end
  end.

(** The body of the [try] of [check_system_compatibility], with the
    records it logs; the calls of the logger are taken to return. *)
Definition check_system_compatibility_try (h : Host)
  : result bool * list LogRecord :=
  match system h with
  | Raised e => (Raised e, [])
  | Returned platform_system =>
      if negb (platform_system =? "Linux")%string then
        (Returned false, [(ERROR, "System is not Linux-based")])
      else
        match machine h with
        | Raised e => (Raised e, [])
        | Returned arch =>
            let log1 : list LogRecord :=
              if existsb (String.eqb arch) supported_archs then []
              else [(WARNING,
                     "Architecture " ++ arch
                       ++ " may not be fully supported")] in
            match virtual_memory h with
            | Raised e => (Raised e, log1)
            | Returned total =>
                let log2 : list LogRecord :=
                  if total <? 1024 * 1024 * 1024 then
                    app log1
                      [(WARNING,
                        "System has less than 1GB RAM, installation may be slow")]
                  else log1 in
                match missing_tools_loop h required_tools [] with
                | Raised e => (Raised e, log2)
                | Returned [] => (Returned true, log2)
                | Returned missing =>
                    (Returned false,
                     app log2
                       [(ERROR,
                         "Missing required tools: " ++ join ", " missing)])
                end
            end
        end
  end.

(** [check_system_compatibility]: the [try] and its
    [except Exception as e].  What was logged before an exception is
    kept; the handler adds its own record. *)
Definition check_system_compatibility (h : Host)
  : result bool * list LogRecord :=
  match check_system_compatibility_try h with
  | (Raised e, log) =>
      if is_Exception e then
        (Returned false,
         app log
           [(ERROR, "Error checking system compatibility: " ++ exn_str e)])
      else (Raised e, log)
  | returned => returned
  end.

(** [check_root_privileges]. *)
Definition check_root_privileges (geteuid : Z) : bool := geteuid =? 0.

End Tools.

(* ===================================================================== *)
(** ** main.py                                                            *)
(* ===================================================================== *)

Module Main.

Import Config.

(** The collaborators of [main]: [setup_logging], which may raise; the
    effective user and the host that [check_prerequisites] inspects;
    [ConfigManager.load_config] for a given path, which returns a
    configuration or raises; the run of the application on a
    configuration, which returns or raises; and, for an exception that is
    no instance of [Exception], whether it is a [KeyboardInterrupt]. *)
Record World : Type := mkWorld {
  setup_logging : string -> string -> option exn;
  geteuid : Z;
  host : Tools.Host;
  load_config : string -> AppConfig + exn;
  run_app : AppConfig -> option exn;
  keyboard_interrupt : exn -> bool
}.

(** [isinstance(e, KeyboardInterrupt)]: [KeyboardInterrupt] derives from
    [BaseException], not from [Exception]. *)
Definition is_KeyboardInterrupt (w : World) (e : exn) : bool :=
  negb (is_Exception e) && keyboard_interrupt w e.

(** The options of the command line. *)
Record Options : Type := mkOptions {
  config : option string;
  log_level : string;
  log_file : option string;
  dry_run : bool;
  skip_checks : bool
}.

(** What [main] did, in order (ghost). *)
Inductive Action : Type :=
| SetUpLogging (level file : string)
| PrintBanner
| CheckPrerequisites
| LoadConfig (path : string)
| UseDefaultConfig
| WarnDryRun
| RunApplication (cfg : AppConfig).

(** How [main] ends: it returns, it calls [sys.exit(code)] itself, or an
    exception leaves it. *)
Inductive Ending : Type :=
| Returns
| Exits (code : Z)
| Propagates (e : exn).

(** [check_prerequisites()]: the effective user first, the system only
    for root. *)
Definition check_prerequisites (w : World) : result bool :=
  if negb (Tools.check_root_privileges (geteuid w)) then Returned false
  else
    match fst (Tools.check_system_compatibility (host w)) with
    | Raised e => Raised e
    | Returned false => Returned false
    | Returned true => Returned true
    end.

(** [app_config.dry_run = dry_run]. *)
Definition set_dry_run (cfg : AppConfig) (flag : bool) : AppConfig :=
  mkAppConfig flag (verbose cfg) (disk cfg) (mount_point cfg) (work_dir cfg).

(** The two handlers of [main], in the order of the source; the print
    and the call of the logger of each body are taken to return
    ([handlers_under] below lets them raise). *)
Definition handlers (w : World) (e : exn) : Ending :=
  if is_KeyboardInterrupt w e then Exits 130
  else if is_Exception e then Exits 1
  else Propagates e.

(** The statements after the prerequisite check. *)
Definition configure_and_run (w : World) (o : Options) (done : list Action)
  : Ending * list Action :=
  let loaded :=
    match config o with
    | Some path =>
        (load_config w path, app done [LoadConfig path])
    | None => (inl default_AppConfig, app done [UseDefaultConfig])
    end in
  match loaded with
  | (inr e, done) => (handlers w e, done)
  | (inl app_config, done) =>
      let app_config := set_dry_run app_config (dry_run o) in
      let done := if dry_run o then app done [WarnDryRun] else done in
      let done := app done [RunApplication app_config] in
      match run_app w app_config with
      | Some e => (handlers w e, done)
      | None => (Returns, done)
      end
  end.

(** [main], where the prints on the console, the calls of the logger and
    the construction of the [ConfigManager] return.  [sys.exit(1)] after
    a failed check raises [SystemExit] inside the [try]; neither handler
    catches it. *)
Definition main (w : World) (o : Options) : Ending * list Action :=
  let file := match log_file o with
              | Some f => f
              | None => "./gentooui.log"
              end in
  let done := [SetUpLogging (log_level o) file] in
  match setup_logging w (log_level o) file with
  | Some e => (handlers w e, done)
  | None =>
      let done := app done [PrintBanner] in
      if skip_checks o then configure_and_run w o done
      else
        let done := app done [CheckPrerequisites] in
        match check_prerequisites w with
        | Raised e => (handlers w e, done)
        | Returned false => (Exits 1, done)
        | Returned true => configure_and_run w o done
        end
  end.

(** The other statements of [main] and of [check_prerequisites]: the
    prints on the console, the calls of the logger and the construction
    of the [ConfigManager].  [main] above takes each of them to return;
    [main_under] below lets each of them raise, or be interrupted. *)
Inductive Statement : Type :=
| log_starting
| print_banner
| print_checking
| print_not_root
| print_not_compatible
| print_passed
| new_ConfigManager
| log_loading
| log_default
| get_default_config
| print_dry_run
| log_starting_tui
| print_cancelled
| log_cancelled
| print_fatal
| log_fatal.

(** The statement [p], then the rest. *)
Definition guard (st : Statement -> option exn) (p : Statement)
  (done : list Action) (rest : Ending * list Action)
  : Ending * list Action :=
  match st p with
  | Some e => (Propagates e, done)
  | None => rest
  end.

(** [check_prerequisites()] with its prints. *)
Definition check_prerequisites_under (st : Statement -> option exn)
  (w : World) : result bool :=
  match st print_checking with
  | Some e => Raised e
  | None =>
      if negb (Tools.check_root_privileges (geteuid w)) then
        match st print_not_root with
        | Some e => Raised e
        | None => Returned false
        end
      else
        match fst (Tools.check_system_compatibility (host w)) with
        | Raised e => Raised e
        | Returned false =>
            match st print_not_compatible with
            | Some e => Raised e
            | None => Returned false
            end
        | Returned true =>
            match st print_passed with
            | Some e => Raised e
            | None => Returned true
            end
        end
  end.

(** The two handlers with their bodies: what a body raises leaves
    [main], whatever its class. *)
Definition handlers_under (st : Statement -> option exn) (w : World)
  (e : exn) : Ending :=
  if is_KeyboardInterrupt w e then
    match st print_cancelled with
    | Some e' => Propagates e'
    | None =>
        match st log_cancelled with
        | Some e' => Propagates e'
        | None => Exits 130
        end
    end
  else if is_Exception e then
    match st print_fatal with
    | Some e' => Propagates e'
    | None =>
        match st log_fatal with
        | Some e' => Propagates e'
        | None => Exits 1
        end
    end
  else Propagates e.

(** The body of the [try] from the dry-run setting on; [Propagates e]
    stands for [e] raised inside the [try]. *)
Definition run_under (st : Statement -> option exn) (w : World)
  (o : Options) (done : list Action) (app_config : AppConfig)
  : Ending * list Action :=
  let app_config := set_dry_run app_config (dry_run o) in
  let run (done : list Action) :=
    guard st log_starting_tui done
      (let done := app done [RunApplication app_config] in
       match run_app w app_config with
       | Some e => (Propagates e, done)
       | None => (Returns, done)
       end) in
  if dry_run o then
    guard st print_dry_run done (run (app done [WarnDryRun]))
  else run done.

Definition configure_and_run_under (st : Statement -> option exn)
  (w : World) (o : Options) (done : list Action) : Ending * list Action :=
  guard st new_ConfigManager done
    match config o with
    | Some path =>
        guard st log_loading done
          (let done := app done [LoadConfig path] in
           match load_config w path with
           | inr e => (Propagates e, done)
           | inl app_config => run_under st w o done app_config
           end)
    | None =>
        guard st log_default done
          (guard st get_default_config done
             (run_under st w o (app done [UseDefaultConfig])
                default_AppConfig))
    end.

(** The body of the [try] of [main]. *)
Definition main_try_under (st : Statement -> option exn) (w : World)
  (o : Options) : Ending * list Action :=
  let file := match log_file o with
              | Some f => f
              | None => "./gentooui.log"
              end in
  let done := [SetUpLogging (log_level o) file] in
  match setup_logging w (log_level o) file with
  | Some e => (Propagates e, done)
  | None =>
      guard st log_starting done
        (guard st print_banner done
           (let done := app done [PrintBanner] in
            if skip_checks o then configure_and_run_under st w o done
            else
              let done := app done [CheckPrerequisites] in
              match check_prerequisites_under st w with
              | Raised e => (Propagates e, done)
              | Returned false => (Exits 1, done)
              | Returned true => configure_and_run_under st w o done
              end))
  end.

(** [main], every statement of which may raise. *)
Definition main_under (st : Statement -> option exn) (w : World)
  (o : Options) : Ending * list Action :=
  match main_try_under st w o with
  | (Propagates e, done) => (handlers_under st w e, done)
  | ended => ended
  end.

(** The exception is raised by a statement of one of the two handlers. *)
Definition raised_in_a_handler (st : Statement -> option exn) (e : exn)
  : Prop :=
  st print_cancelled = Some e \/ st log_cancelled = Some e
  \/ st print_fatal = Some e \/ st log_fatal = Some e.

(** The application was run on this configuration. *)
Definition ran_on (actions : list Action) (cfg : AppConfig) : Prop :=
  In (RunApplication cfg) actions.

Definition is_run (a : Action) : bool :=
  match a with
  | RunApplication _ => true
  | _ => false
  end.

Definition is_load (a : Action) : bool :=
  match a with
  | LoadConfig _ => true
  | UseDefaultConfig => true
  | _ => false
  end.

End Main.

(** Worlds for [main]: a live medium with every tool, run by an ordinary
    user or by root, where a configuration file asks for a real
    installation on /dev/nvme0n1. *)
Module Worlds.

Import Config.

Definition live_medium : Tools.Host :=
  Tools.mkHost (Returned "Linux"%string) (Returned "x86_64"%string)
    (Returned (4 * 1024 * 1024 * 1024)) (fun _ => Tools.Found).

Definition from_file : AppConfig :=
  mkAppConfig false true (mkDiskConfig "/dev/nvme0n1" "gpt")
    "/mnt/gentoo" "/var/tmp/gentooui".

Definition as_user : Main.World :=
  Main.mkWorld (fun _ _ => None) 1000 live_medium
    (fun _ => inl from_file) (fun _ => None) (fun _ => false).

Definition as_root : Main.World :=
  Main.mkWorld (fun _ _ => None) 0 live_medium
    (fun _ => inl from_file) (fun _ => None) (fun _ => false).

Definition dry_run_with_file : Main.Options :=
  Main.mkOptions (Some "install.yaml") "INFO" None true false.

End Worlds.

(* ===================================================================== *)
(** ** utils/system.py: get_block_devices                                 *)
(* ===================================================================== *)

Module Devices.

(** What [json.loads] returns. *)
#[warnings="-register-all"]
Inductive Json : Type :=
| JNull
| JBool (b : bool)
| JInt (n : Z)
| JFloat (repr : string)
| JString (s : string)
| JArray (items : list Json)
| JObject (items : list (string * Json)).

(** [type(v).__name__]. *)
Definition type_name (v : Json) : string :=
  match v with
  | JNull => "NoneType"
  | JBool _ => "bool"
  | JInt _ => "int"
  | JFloat _ => "float"
  | JString _ => "str"
  | JArray _ => "list"
  | JObject _ => "dict"
  end.

(** [subprocess.run(..., check=True)]: the command completes with status
    0 and this standard output, it exits with another status
    ([CalledProcessError]), or starting it raises something else. *)
Inductive Run : Type :=
| Completed (stdout : string)
| ExitStatus (code : Z)
| Fails (e : exn).

(** What [json.loads] does: it returns the value, it raises
    [JSONDecodeError], or it raises something else (it is interrupted,
    or the text nests too deeply). *)
Inductive Loads : Type :=
| Parsed (data : Json)
| DecodeError
| LoadsRaises (e : exn).

(** The host: what [lsblk] does, what [import json] does ([Some e] when
    it raises, or is interrupted) and [json.loads]. *)
Record Host : Type := mkHost {
  lsblk : Run;
  import_json : option exn;
  loads : string -> Loads
}.

(** The exception in flight when the [except] clause is reached. *)
Inductive InFlight : Type :=
| CalledProcessError
| JSONDecodeError
| Other (e : exn).

(** [import json] stands inside the function, so [json] is a local
    variable of it, unbound until the import statement has run; reading
    it before raises [UnboundLocalError]. *)
Definition UnboundLocalError : exn :=
  mk_exn OtherException
    "cannot access local variable 'json' where it is not associated with a value".

Definition AttributeError (data : Json) : exn :=
  mk_exn OtherException
    ("'" ++ type_name data ++ "' object has no attribute 'get'").

(** [except (subprocess.CalledProcessError, json.JSONDecodeError) as e]:
    the tuple is evaluated first, which reads the local [json]. *)
Definition except_clause (json_bound : bool) (raised : InFlight)
  : result Json :=
  if negb json_bound then Raised UnboundLocalError
  else
    match raised with
    | CalledProcessError => Returned (JArray [])
    | JSONDecodeError => Returned (JArray [])
    | Other e => Raised e
    end.

(** [dict.get(key, default)]. *)
Fixpoint get (items : list (string * Json)) (key : string) (default : Json)
  : Json :=
  match items with
  | [] => default
  | (k, v) :: rest => if (k =? key)%string then v else get rest key default
  end.

(** [get_block_devices]; the calls of the logger are taken to return. *)
Definition get_block_devices (h : Host) : result Json :=
  let json_bound := false in
  match lsblk h with
  | ExitStatus _ => except_clause json_bound CalledProcessError
  | Fails e => except_clause json_bound (Other e)
  | Completed stdout =>
      match import_json h with
      | Some e => except_clause json_bound (Other e)
      | None =>
          let json_bound := true in
          match loads h stdout with
          | DecodeError => except_clause json_bound JSONDecodeError
          | LoadsRaises e => except_clause json_bound (Other e)
          | Parsed (JObject items) =>
              Returned (get items "blockdevices" (JArray []))
          | Parsed data =>
              except_clause json_bound (Other (AttributeError data))
          end
      end
  end.

(** Three hosts: [lsblk] exits with status 32 (no block device found);
    [lsblk] prints a list where an object is expected; and the user
    presses Ctrl-C while [lsblk] runs. *)
Definition lsblk_exits_32 : Host :=
  mkHost (ExitStatus 32) None (fun _ => DecodeError).

Definition lsblk_prints_a_list : Host :=
  mkHost (Completed "[]") None (fun _ => Parsed (JArray [])).

Definition KeyboardInterrupt : exn := mk_exn BaseExceptionOnly "".

Definition lsblk_interrupted : Host :=
  mkHost (Fails KeyboardInterrupt) None (fun _ => DecodeError).

End Devices.

(* ===================================================================== *)
(** ** utils/system.py: validate_hostname                                 *)
(* ===================================================================== *)

Module Hostname.

Import Ascii.

(** The regular expressions the pattern is built from.  A character is a
    code point below 256; the classes of the pattern hold ASCII
    characters only. *)
Inductive regex : Type :=
| Nothing
| Eps
| Class (p : ascii -> bool)
| Seq (r1 r2 : regex)
| Alt (r1 r2 : regex)
| Star (r : regex).

(** [r?] *)
Definition Opt (r : regex) : regex := Alt r Eps.

(** [r{0,n}] *)
Fixpoint Upto (n : nat) (r : regex) : regex :=
  match n with
  | O => Eps
  | S n => Opt (Seq r (Upto n r))
  end.

Definition in_range (lo hi c : ascii) : bool :=
  (nat_of_ascii lo <=? nat_of_ascii c)%nat
  && (nat_of_ascii c <=? nat_of_ascii hi)%nat.

(** [[a-zA-Z0-9]] *)
Definition alnum (c : ascii) : bool :=
  in_range "a" "z" c || in_range "A" "Z" c || in_range "0" "9" c.

(** [[a-zA-Z0-9-]] *)
Definition alnum_hyphen (c : ascii) : bool :=
  in_range "a" "z" c || in_range "A" "Z" c || in_range "0" "9" c
  || (c =? "-")%char.

(** [\.] *)
Definition dot (c : ascii) : bool := (c =? ".")%char.

(** [[a-zA-Z0-9]([a-zA-Z0-9-]{0,61}[a-zA-Z0-9])?] *)
Definition label : regex :=
  Seq (Class alnum)
      (Opt (Seq (Upto 61 (Class alnum_hyphen)) (Class alnum))).

(** The pattern between [^] and [$]. *)
Definition pattern : regex :=
  Seq label (Star (Seq (Class dot) label)).

(** The strings a regular expression matches in full. *)
Inductive matches : regex -> list ascii -> Prop :=
| MEps : matches Eps []
| MClass p c : p c = true -> matches (Class p) [c]
| MSeq r1 r2 s1 s2 :
    matches r1 s1 -> matches r2 s2 -> matches (Seq r1 r2) (s1 ++ s2)
| MAltL r1 r2 s : matches r1 s -> matches (Alt r1 r2) s
| MAltR r1 r2 s : matches r2 s -> matches (Alt r1 r2) s
| MStarNil r : matches (Star r) []
| MStarApp r s1 s2 :
    matches r s1 -> matches (Star r) s2 -> matches (Star r) (s1 ++ s2).

(** Matching by derivatives. *)
Fixpoint nullable (r : regex) : bool :=
  match r with
  | Nothing => false
  | Eps => true
  | Class _ => false
  | Seq r1 r2 => nullable r1 && nullable r2
  | Alt r1 r2 => nullable r1 || nullable r2
  | Star _ => true
  end.

Fixpoint deriv (c : ascii) (r : regex) : regex :=
  match r with
  | Nothing => Nothing
  | Eps => Nothing
  | Class p => if p c then Eps else Nothing
  | Seq r1 r2 =>
      if nullable r1 then Alt (Seq (deriv c r1) r2) (deriv c r2)
      else Seq (deriv c r1) r2
  | Alt r1 r2 => Alt (deriv c r1) (deriv c r2)
  | Star r => Seq (deriv c r) (Star r)
  end.

Fixpoint accepts (r : regex) (s : list ascii) : bool :=
  match s with
  | [] => nullable r
  | c :: rest => accepts (deriv c r) rest
  end.

(** The string without its last character, when that is a newline. *)
Fixpoint before_final_newline (s : list ascii) : option (list ascii) :=
  match s with
  | [] => None
  | [c] => if (c =? "010")%char then Some [] else None
  | c :: rest => option_map (cons c) (before_final_newline rest)
  end.

(** [bool(re.match('^' + r + '$', s))]: [^] holds at the start, where
    [re.match] begins; [$] holds at the end of the string and just before
    a newline that ends it. *)
Definition re_match (r : regex) (s : list ascii) : bool :=
  accepts r s
  || match before_final_newline s with
     | Some s' => accepts r s'
     | None => false
     end.

Definition validate_hostname (hostname : string) : bool :=
  if (hostname =? "")%string then false
  else if (253 <? String.length hostname)%nat then false
  else re_match pattern (list_ascii_of_string hostname).

(** *** The reading of the pattern *)

(** [s.split('.')] *)
Fixpoint split_dots (s : list ascii) : list (list ascii) :=
  match s with
  | [] => [[]]
  | c :: rest =>
      if dot c then [] :: split_dots rest
      else
        match split_dots rest with
        | l :: ls => (c :: l) :: ls
        | [] => [[c]]
        end
  end.

(** A label: 1 to 63 letters, digits and hyphens, the first and the last
    no hyphen. *)
Definition is_label (l : list ascii) : bool :=
  (1 <=? List.length l)%nat && (List.length l <=? 63)%nat
  && forallb alnum_hyphen l
  && alnum (hd "-"%char l) && alnum (last l "-"%char).

(** Labels separated by dots. *)
Definition dotted_labels (s : list ascii) : Prop :=
  forallb is_label (split_dots s) = true.

Definition no_dot (l : list ascii) : Prop :=
  forallb (fun c => negb (dot c)) l = true.

Definition newline : string := String "010"%char EmptyString.

End Hostname.

(* ===================================================================== *)
(** ** utils/system.py: get_timezone_list, get_available_locales          *)
(* ===================================================================== *)

(** The order of [str], by code points, for [sorted]. *)
Module StringOrder <: Orders.TotalLeBool.
Definition t : Type := string.
Definition leb : string -> string -> bool := String.leb.
Definition leb_total :
  forall x y : string, leb x y = true \/ leb y x = true :=
  String.leb_total.
End StringOrder.

(** [sorted] on strings.  Two equal strings cannot be told apart, so the
    result is the same for every sorting algorithm. *)
Module StringSort := Mergesort.Sort StringOrder.

Module Listings.

Import Ascii.

(** The host: what [timedatectl list-timezones] and [locale -a] do. *)
Record Host : Type := mkHost {
  timedatectl : Devices.Run;
  locale : Devices.Run
}.

(** [str.isspace] on a character, a code point below 256. *)
Definition is_space (c : ascii) : bool :=
  let n := nat_of_ascii c in
  ((9 <=? n) && (n <=? 13) || (28 <=? n) && (n <=? 32)
   || (n =? 133) || (n =? 160))%nat.

Fixpoint lstrip (s : string) : string :=
  match s with
  | EmptyString => EmptyString
  | String c rest => if is_space c then lstrip rest else s
  end.

Fixpoint rstrip (s : string) : string :=
  match s with
  | EmptyString => EmptyString
  | String c rest =>
      match rstrip rest with
      | EmptyString => if is_space c then EmptyString
                       else String c EmptyString
      | kept => String c kept
      end
  end.

(** [s.strip()] *)
Definition strip (s : string) : string := rstrip (lstrip s).

(** [s.split(sep)] for a separator of one character. *)
Fixpoint split (sep : ascii) (s : string) : list string :=
  match s with
  | EmptyString => [EmptyString]
  | String c rest =>
      if (c =? sep)%char then EmptyString :: split sep rest
      else
        match split sep rest with
        | l :: ls => String c l :: ls
        | [] => [String c EmptyString]
        end
  end.

Definition newline : ascii := "010"%char.

Definition is_empty (s : string) : bool :=
  match s with
  | EmptyString => true
  | _ => false
  end.

Definition fallback_timezones : list string :=
  ["UTC"; "US/Eastern"; "US/Central"; "US/Mountain"; "US/Pacific";
   "Europe/London"; "Europe/Paris"; "Europe/Berlin"; "Asia/Tokyo";
   "Australia/Sydney"].

Definition fallback_locales : list string :=
  ["C"; "POSIX"; "en_US.UTF-8"; "en_GB.UTF-8"; "de_DE.UTF-8";
   "fr_FR.UTF-8"; "es_ES.UTF-8"; "it_IT.UTF-8"; "ja_JP.UTF-8";
   "zh_CN.UTF-8"].

Definition get_timezone_list (h : Host) : result (list string) :=
  match timedatectl h with
  | Devices.Completed stdout => Returned (split newline (strip stdout))
  | Devices.ExitStatus _ => Returned fallback_timezones
  | Devices.Fails e => Raised e
  end.

Definition get_available_locales (h : Host) : result (list string) :=
  match locale h with
  | Devices.Completed stdout =>
      let locales :=
        map strip
          (filter (fun line => negb (is_empty (strip line)))
             (split newline stdout)) in
      Returned (StringSort.sort locales)
  | Devices.ExitStatus _ => Returned fallback_locales
  | Devices.Fails e => Raised e
  end.

(** No character of the string is this one. *)
Fixpoint free_of (c : ascii) (s : string) : bool :=
  match s with
  | EmptyString => true
  | String x rest => negb (x =? c)%char && free_of c rest
  end.

(** The first and the last character, if any, are no white space. *)
Definition trimmed (s : string) : Prop :=
  lstrip s = s /\ rstrip s = s.

(** A host without systemd: there is no [timedatectl] to start. *)
Definition FileNotFoundError : exn :=
  mk_exn OtherException
    "[Errno 2] No such file or directory: 'timedatectl'".

(** A host with systemd whose time zone database holds just the ten
    names of the fallback. *)
Definition ten_zones_host : Host :=
  mkHost
    (Devices.Completed
       (Tools.join (String newline "") fallback_timezones
          ++ String newline ""))
    (Devices.ExitStatus 1).

Definition openrc_host : Host :=
  mkHost (Devices.Fails FileNotFoundError)
    (Devices.Completed "C
  en_US.utf8
POSIX

").

End Listings.

(* ===================================================================== *)
(** ** core/config.py: the deep merge of merge_configs                    *)
(* ===================================================================== *)

Module Merge.

(** The data that [schema.dump] and a YAML file give: a [dict], whose
    items are kept in the order of insertion, or any other value. *)
#[warnings="-register-all"]
Inductive Value : Type :=
| Leaf (v : string)
| Dict (items : list (string * Value)).

Definition Items : Type := list (string * Value).

(** [d.get(key)] *)
Fixpoint lookup (items : Items) (key : string) : option Value :=
  match items with
  | [] => None
  | (k, v) :: rest => if (k =? key)%string then Some v else lookup rest key
  end.

(** [d[key] = v]: a key that is present keeps its place. *)
Fixpoint assign (items : Items) (key : string) (v : Value) : Items :=
  match items with
  | [] => [(key, v)]
  | (k, x) :: rest =>
      if (k =? key)%string then (k, v) :: rest
      else (k, x) :: assign rest key v
  end.

(** [for key, value in override.items(): ...], where [merge] is the value
    stored under [key], given the value that [result] holds there. *)
Definition merge_loop (merge : option Value -> Value -> Value)
  : Items -> Items -> Items :=
  fix loop (result override : Items) : Items :=
    match override with
    | [] => result
    | (key, value) :: rest =>
        loop (assign result key (merge (lookup result key) value)) rest
    end.

(** The value stored under a key: the merge of the two when both are
    dicts, the overriding value otherwise. *)
Fixpoint merge_entry (current : option Value) (value : Value) {struct value}
  : Value :=
  match current, value with
  | Some (Dict base), Dict override =>
      Dict (merge_loop merge_entry base override)
  | _, _ => value
  end.

(** [deep_merge(base, override)]; [result = base.copy()] leaves [base]
    as it is. *)
Definition deep_merge (base override : Items) : Items :=
  merge_loop merge_entry base override.

Definition keys (items : Items) : list string := map fst items.

Definition has_key (items : Items) (key : string) : bool :=
  existsb (String.eqb key) (keys items).

(** A value is a Python value when the keys of every dict in it are
    distinct. *)
Inductive well_formed : Value -> Prop :=
| wf_leaf v : well_formed (Leaf v)
| wf_dict items :
    NoDup (keys items) ->
    (forall k v, In (k, v) items -> well_formed v) ->
    well_formed (Dict items).

(** Settings as [schema.dump] gives them, and an override of one disk
    setting that also brings a key of its own. *)
Definition dumped : Items :=
  [("dry_run", Leaf "False");
   ("disk", Dict [("target_disk", Leaf "/dev/sda");
                  ("swap_size", Leaf "4G")]);
   ("mount_point", Leaf "/mnt/gentoo")].

Definition override_disk : Items :=
  [("disk", Dict [("target_disk", Leaf "/dev/nvme0n1")]);
   ("hostname", Leaf "box")].

End Merge.

(* ===================================================================== *)
(** ** utils/system.py: get_system_info, detect_boot_mode                 *)
(* ===================================================================== *)

Module Info.

Import Installer.

(** What [psutil.disk_usage(mountpoint)] gives. *)
Record Usage : Type := mkUsage {
  total : Z;
  used : Z;
  free : Z
}.

(** [psutil.disk_usage] returns, raises [PermissionError], or raises
    something else. *)
Inductive UsageResult : Type :=
| Measured (usage : Usage)
| PermissionError
| UsageFails (e : exn).

(** An entry of [disk_info]. *)
Record DiskInfo : Type := mkDiskInfo {
  di_device : string;
  di_mountpoint : string;
  di_fstype : string;
  di_total : Z;
  di_used : Z;
  di_free : Z
}.

(** An address of an interface: [addr.family.name], [addr.address],
    [addr.netmask]. *)
Record Address : Type := mkAddress {
  family : string;
  address : string;
  netmask : option string
}.

(** An entry of [network_interfaces]. *)
Record InterfaceInfo : Type := mkInterfaceInfo {
  name : string;
  addresses : list Address
}.

Record SystemInfo : Type := mkSystemInfo {
  architecture : string;
  cpu_count : option Z;
  memory_total : Z;
  disk_info : list DiskInfo;
  network_interfaces : list InterfaceInfo;
  boot_mode : string;
  platform : string
}.

(** The host: [platform.machine()], [psutil.cpu_count(logical=False)]
    (which may be None), [psutil.virtual_memory().total],
    [psutil.disk_partitions()], [psutil.disk_usage],
    [psutil.net_if_addrs().items()], [Path("/sys/firmware/efi").exists()]
    and [platform.platform()]. *)
Record Host : Type := mkHost {
  machine : string;
  physical_cores : option Z;
  virtual_memory_total : Z;
  disk_partitions : result (list Mounts.Partition);
  disk_usage : string -> UsageResult;
  net_if_addrs : result (list (string * list Address));
  efi_exists : result bool;
  platform_platform : string
}.

Definition detect_boot_mode (h : Host) : result string :=
  match efi_exists h with
  | Returned true => Returned "UEFI"
  | Returned false => Returned "BIOS"
  | Raised e => if is_Exception e then Returned "Unknown" else Raised e
  end.

(** The loop over the partitions: one whose usage cannot be read for lack
    of permission is skipped. *)
Fixpoint disk_loop (h : Host) (partitions : list Mounts.Partition)
  (disk_info : list DiskInfo) : result (list DiskInfo) :=
  match partitions with
  | [] => Returned disk_info
  | partition :: rest =>
      match disk_usage h (Mounts.mountpoint partition) with
      | Measured usage =>
          disk_loop h rest
            (app disk_info
               [mkDiskInfo (Mounts.device partition)
                  (Mounts.mountpoint partition) (Mounts.fstype partition)
                  (total usage) (used usage) (free usage)])
      | PermissionError => disk_loop h rest disk_info
      | UsageFails e => Raised e
      end
  end.

(** The body of the [try]. *)
Definition gather (h : Host) : result SystemInfo :=
  match disk_partitions h with
  | Raised e => Raised e
  | Returned partitions =>
      match disk_loop h partitions [] with
      | Raised e => Raised e
      | Returned disk_info =>
          match net_if_addrs h with
          | Raised e => Raised e
          | Returned items =>
              let network_interfaces :=
                map (fun item => mkInterfaceInfo (fst item) (snd item))
                  items in
              match detect_boot_mode h with
              | Raised e => Raised e
              | Returned boot_mode =>
                  Returned
                    (mkSystemInfo (machine h) (physical_cores h)
                       (virtual_memory_total h) disk_info
                       network_interfaces boot_mode (platform_platform h))
              end
          end
      end
  end.

(** [get_system_info], with the records it logs: an [Exception] is logged
    and raised again. *)
Definition get_system_info (h : Host) : result SystemInfo * list LogRecord :=
  let log := [(INFO, "Gathering system information")] in
  match gather h with
  | Returned info => (Returned info, log)
  | Raised e =>
      if is_Exception e then
        (Raised e,
         app log
           [(ERROR, "Error gathering system information: " ++ exn_str e)])
      else (Raised e, log)
  end.

(** The entry of [disk_info] for a partition with this usage. *)
Definition entry (p : Mounts.Partition) (u : Usage) : DiskInfo :=
  mkDiskInfo (Mounts.device p) (Mounts.mountpoint p) (Mounts.fstype p)
    (total u) (used u) (free u).

(** The usage of this mount point could be read. *)
Definition measured (h : Host) (mountpoint : string) : bool :=
  match disk_usage h mountpoint with
  | Measured _ => true
  | _ => false
  end.

(** Reading the usage of this mount point raised something other than
    [PermissionError]. *)
Definition breaks (h : Host) (mountpoint : string) : bool :=
  match disk_usage h mountpoint with
  | UsageFails _ => true
  | _ => false
  end.

(** A host where the root file system can be measured, a mount of another
    user cannot be read, and a network mount has gone stale. *)
Definition OSError : exn :=
  mk_exn OtherException "[Errno 116] Stale file handle: '/mnt/nfs'".

Definition stale_mount : Host :=
  mkHost "x86_64" (Some 4) (8 * 1024 * 1024 * 1024)
    (Returned [Mounts.mkPartition "/dev/sda2" "/" "ext4";
               Mounts.mkPartition "/dev/sdb1" "/home/other" "ext4";
               Mounts.mkPartition "server:/export" "/mnt/nfs" "nfs"])
    (fun mountpoint =>
       if (mountpoint =? "/")%string then Measured (mkUsage 100 40 60)
       else if (mountpoint =? "/home/other")%string then PermissionError
       else UsageFails OSError)
    (Returned []) (Returned true) "Linux".

End Info.

Import Installer Trace.
Open Scope list_scope.

(* ===================================================================== *)
(** ** Reporting and awaiting under a callback that returns               *)
(* ===================================================================== *)

Section QuietCallback.

Variable self : InstallationManager.
Hypothesis quiet : returns_normally (progress_callback self).

Lemma report_progress_quiet o s n p st d err :
  _report_progress o self s n p st d err
  = (None, quiet_emit self [(o, mkStepProgress s n p st d err)]).
Proof.
  unfold _report_progress, quiet_emit, log_emitted, log_delivered.
  simpl. revert quiet. destruct (progress_callback self) as [f|]; simpl.
  - intros Hq. rewrite Hq. reflexivity.
  - reflexivity.
Qed.

End QuietCallback.

Lemma quiet_emit_callback self evs :
  progress_callback (quiet_emit self evs) = progress_callback self.
Proof. reflexivity. Qed.

Lemma quiet_emit_nil self : quiet_emit self [] = self.
Proof.
  destruct self as [c cb cur stp em de inv]. unfold quiet_emit. simpl.
  rewrite !app_nil_r. destruct cb; reflexivity.
Qed.

Lemma quiet_emit_app self evs1 evs2 :
  quiet_emit (quiet_emit self evs1) evs2 = quiet_emit self (evs1 ++ evs2).
Proof.
  destruct self as [c cb cur stp em de inv]. unfold quiet_emit. simpl.
  rewrite map_app, !app_assoc. destruct cb; reflexivity.
Qed.

Lemma await_quiet {R : Type} (c : Coro R) : forall self,
  returns_normally (progress_callback self) ->
  await c self = (outcome c, quiet_emit self (map (pair ByStage) (reports c))).
Proof.
  induction c as [r|e|s n p st k IH]; intros self Hq; simpl.
  - now rewrite quiet_emit_nil.
  - now rewrite quiet_emit_nil.
  - rewrite report_progress_quiet by assumption.
    rewrite IH by assumption. now rewrite quiet_emit_app.
Qed.

(* ===================================================================== *)
(** ** One turn of the loop, and a prefix of successful stages            *)
(* ===================================================================== *)

Lemma stage_ended_callback self stg :
  progress_callback (stage_ended self stg) = progress_callback self.
Proof. destruct stg as [[s n] func]. reflexivity. Qed.

Lemma after_stage_callback self stg :
  progress_callback (after_stage self stg) = progress_callback self.
Proof. destruct stg as [[s n] func]. reflexivity. Qed.

Lemma after_stages_callback stgs : forall self,
  progress_callback (after_stages self stgs) = progress_callback self.
Proof.
  induction stgs as [|stg stgs IH]; intros self; simpl; [reflexivity|].
  unfold after_stages in *. simpl. rewrite IH. apply after_stage_callback.
Qed.

(** One turn of the loop under a callback that returns. *)
Lemma run_steps_cons s n func rest self :
  returns_normally (progress_callback self) ->
  run_steps ((s, n, func) :: rest) self
  = match outcome func with
    | Returned true => run_steps rest (after_stage self (s, n, func))
    | Returned false => (Returned false, after_stage self (s, n, func))
    | Raised e =>
        if is_Exception e
        then (Returned false, after_stage self (s, n, func))
        else (Raised e, stage_ended self (s, n, func))
    end.
Proof.
  intros Hq. simpl run_steps.
  rewrite report_progress_quiet by exact Hq.
  rewrite await_quiet by exact Hq.
  unfold after_stage, stage_ended.
  destruct (outcome func) as [[|]|e]; simpl terminal.
  - rewrite report_progress_quiet by exact Hq. reflexivity.
  - rewrite report_progress_quiet by exact Hq. reflexivity.
  - unfold inner_except. destruct (is_Exception e); [|reflexivity].
    rewrite report_progress_quiet by exact Hq. reflexivity.
Qed.

Lemma run_steps_success_prefix pre : forall rest self,
  returns_normally (progress_callback self) ->
  Forall succeeds pre ->
  run_steps (pre ++ rest) self = run_steps rest (after_stages self pre).
Proof.
  induction pre as [|[[s n] func] pre IH]; intros rest self Hq Hall.
  - reflexivity.
  - inversion Hall as [|x l Hs Hpre]; subst.
    simpl app. rewrite run_steps_cons by exact Hq.
    unfold succeeds in Hs. simpl in Hs. rewrite Hs.
    unfold after_stages. simpl fold_left.
    apply IH; [|exact Hpre].
    rewrite after_stage_callback. exact Hq.
Qed.

(** *** What a closed stage leaves in the manager *)

Lemma emitted_after_stage self stg :
  emitted (after_stage self stg) = emitted self ++ block stg.
Proof.
  destruct stg as [[s n] func]. simpl.
  rewrite <- !app_assoc. reflexivity.
Qed.

Lemma invoked_after_stage self stg :
  invoked (after_stage self stg) = invoked self ++ [launch stg].
Proof. destruct stg as [[s n] func]. reflexivity. Qed.

Lemma current_after_stage self stg :
  current_step (after_stage self stg) = Some (stage_step stg).
Proof. destruct stg as [[s n] func]. reflexivity. Qed.

Lemma steps_after_stage self stg :
  steps (after_stage self stg) = steps self.
Proof. destruct stg as [[s n] func]. reflexivity. Qed.

Lemma delivered_after_stage self stg :
  delivered (after_stage self stg)
  = delivered self ++ handed (progress_callback self) (block stg).
Proof.
  destruct stg as [[s n] func]. unfold handed. simpl.
  destruct (progress_callback self); simpl.
  - rewrite map_app. simpl. rewrite <- !app_assoc. reflexivity.
  - now rewrite app_nil_r.
Qed.

Lemma handed_app cb tr1 tr2 :
  handed cb (tr1 ++ tr2) = handed cb tr1 ++ handed cb tr2.
Proof. destruct cb; simpl; [apply map_app|reflexivity]. Qed.

Lemma emitted_after_stages stgs : forall self,
  emitted (after_stages self stgs) = emitted self ++ flat_map block stgs.
Proof.
  induction stgs as [|stg stgs IH]; intros self; unfold after_stages; simpl.
  - now rewrite app_nil_r.
  - fold (after_stages (after_stage self stg) stgs).
    rewrite IH, emitted_after_stage. now rewrite app_assoc.
Qed.

Lemma invoked_after_stages stgs : forall self,
  invoked (after_stages self stgs) = invoked self ++ map launch stgs.
Proof.
  induction stgs as [|stg stgs IH]; intros self; unfold after_stages; simpl.
  - now rewrite app_nil_r.
  - fold (after_stages (after_stage self stg) stgs).
    rewrite IH, invoked_after_stage. now rewrite <- app_assoc.
Qed.

Lemma steps_after_stages stgs : forall self,
  steps (after_stages self stgs) = steps self.
Proof.
  induction stgs as [|stg stgs IH]; intros self; unfold after_stages; simpl.
  - reflexivity.
  - fold (after_stages (after_stage self stg) stgs).
    now rewrite IH, steps_after_stage.
Qed.

Lemma last_cons_default {A : Type} (l : list A) : forall a d,
  last (a :: l) d = last l a.
Proof.
  induction l as [|b l IH]; intros a d; [reflexivity|].
  change (last (a :: b :: l) d) with (last (b :: l) d).
  now rewrite !IH.
Qed.

Lemma current_after_stages stgs : forall self,
  current_step (after_stages self stgs)
  = last (map (fun stg => Some (stage_step stg)) stgs) (current_step self).
Proof.
  induction stgs as [|stg stgs IH]; intros self; unfold after_stages.
  - reflexivity.
  - simpl fold_left. fold (after_stages (after_stage self stg) stgs).
    rewrite IH, current_after_stage.
    simpl map. now rewrite last_cons_default.
Qed.

Lemma delivered_after_stages stgs : forall self,
  delivered (after_stages self stgs)
  = delivered self ++ handed (progress_callback self) (flat_map block stgs).
Proof.
  induction stgs as [|stg stgs IH]; intros self; unfold after_stages; simpl.
  - destruct (progress_callback self); simpl; now rewrite app_nil_r.
  - fold (after_stages (after_stage self stg) stgs).
    rewrite IH, delivered_after_stage, after_stage_callback, handed_app.
    now rewrite app_assoc.
Qed.

(** *** Facts about traces *)

Lemma emitted_since_app before after tr :
  emitted after = emitted before ++ tr -> emitted_since before after = tr.
Proof.
  intros H. unfold emitted_since. rewrite H.
  rewrite skipn_app, skipn_all, Nat.sub_diag. reflexivity.
Qed.

Lemma own_app tr1 tr2 : own (tr1 ++ tr2) = own tr1 ++ own tr2.
Proof. unfold own. now rewrite filter_app, map_app. Qed.

Lemma own_by_stage evs : own (map (pair ByStage) evs) = [].
Proof. induction evs as [|ev evs IH]; [reflexivity|exact IH]. Qed.

Lemma own_block stg : own (block stg) = brackets stg.
Proof.
  destruct stg as [[s n] func]. unfold block.
  change ((ByOrchestrator, starting s n)
            :: map (pair ByStage) (reports func)
            ++ [(ByOrchestrator, terminal s n (outcome func))])
    with ([(ByOrchestrator, starting s n)]
            ++ map (pair ByStage) (reports func)
            ++ [(ByOrchestrator, terminal s n (outcome func))]).
  rewrite !own_app, own_by_stage. reflexivity.
Qed.

Lemma own_blocks stgs : own (flat_map block stgs) = flat_map brackets stgs.
Proof.
  induction stgs as [|stg stgs IH]; [reflexivity|].
  simpl. now rewrite own_app, own_block, IH.
Qed.

Lemma brackets_success stg : succeeds stg -> brackets stg = success_brackets stg.
Proof.
  destruct stg as [[s n] func]. unfold succeeds, success_brackets. simpl.
  intros ->. reflexivity.
Qed.

Lemma brackets_successes stgs :
  Forall succeeds stgs ->
  flat_map brackets stgs = flat_map success_brackets stgs.
Proof.
  induction 1 as [|stg stgs Hs _ IH]; [reflexivity|].
  simpl. now rewrite IH, brackets_success.
Qed.

Lemma reports_no_error {R : Type} (c : Coro R) :
  filter has_error (reports c) = [].
Proof.
  induction c as [r|e|s n p st k IH]; simpl; auto.
Qed.

Lemma block_success_no_error stg :
  succeeds stg -> filter has_error (map snd (block stg)) = [].
Proof.
  destruct stg as [[s n] func]. unfold succeeds. simpl. intros ->.
  rewrite map_app, map_map. simpl. rewrite map_id.
  unfold has_error at 1. simpl.
  rewrite filter_app, reports_no_error. reflexivity.
Qed.

Lemma blocks_success_no_error stgs :
  Forall succeeds stgs ->
  filter has_error (map snd (flat_map block stgs)) = [].
Proof.
  induction 1 as [|stg stgs Hs _ IH]; [reflexivity|].
  simpl. rewrite map_app, filter_app, IH, block_success_no_error by exact Hs.
  reflexivity.
Qed.

Lemma terminal_of_failure stg :
  fails stg ->
  terminal (stage_step stg) (stage_name stg) (outcome (stage_func stg))
  = failed (stage_step stg) (stage_name stg)
  \/ exists e, is_Exception e = true /\
       outcome (stage_func stg) = Raised e /\
       terminal (stage_step stg) (stage_name stg) (outcome (stage_func stg))
       = errored (stage_step stg) (stage_name stg) e.
Proof.
  intros [H|[e [H He]]]; rewrite H; simpl.
  - now left.
  - right. exists e. auto.
Qed.

Lemma block_failure_one_error stg :
  fails stg ->
  filter has_error (map snd (block stg))
  = [terminal (stage_step stg) (stage_name stg) (outcome (stage_func stg))].
Proof.
  intros Hf. destruct stg as [[s n] func]. simpl.
  rewrite map_app, map_map. simpl. rewrite map_id.
  unfold has_error at 1. simpl.
  rewrite filter_app, reports_no_error. simpl.
  destruct Hf as [H|[e [H He]]]; simpl in H; rewrite H; reflexivity.
Qed.

(* ===================================================================== *)
(** ** The orchestrator: successful runs and fail-fast                    *)
(* ===================================================================== *)

Lemma run_full_installation_returned self b after :
  run_steps (steps self) self = (Returned b, after) ->
  run_full_installation self = (Returned b, after).
Proof. unfold run_full_installation. intros ->. reflexivity. Qed.

Lemma run_all_succeed self :
  returns_normally (progress_callback self) ->
  Forall succeeds (steps self) ->
  run_full_installation self
  = (Returned true, after_stages self (steps self)).
Proof.
  intros Hq Hall. apply run_full_installation_returned.
  rewrite <- (app_nil_r (steps self)) at 1.
  now rewrite run_steps_success_prefix.
Qed.

Lemma filter_completed_success_brackets stgs :
  filter (is_status "Completed") (flat_map success_brackets stgs)
  = map (fun stg => completed (stage_step stg) (stage_name stg)) stgs.
Proof.
  induction stgs as [|stg stgs IH]; [reflexivity|].
  simpl. now rewrite IH.
Qed.

Lemma filter_starting_success_brackets stgs :
  filter (is_status "Starting...") (flat_map success_brackets stgs)
  = map (fun stg => starting (stage_step stg) (stage_name stg)) stgs.
Proof.
  induction stgs as [|stg stgs IH]; [reflexivity|].
  simpl. now rewrite IH.
Qed.

(** C2, as amended.  All-success run.  Let the progress callback, if one
    is registered, return from every call.  If the coroutine of every stage
    of the sequence returns True, [run_full_installation] returns True;
    what is emitted is, stage after stage in sequence order, one
    "Starting..." event, the reports of the stage itself and one
    "Completed" event at progress 1.0; the orchestrator's own events are
    exactly one "Starting..." and one "Completed" per stage, so there are
    exactly N "Completed" terminal events for N stages; every stage is
    awaited exactly once, in order; the registered callback was handed
    exactly the emitted events.  For the empty sequence the result is True
    and nothing is emitted. *)
Theorem all_stages_succeed (self : InstallationManager) :
  returns_normally (progress_callback self) ->
  Forall succeeds (steps self) ->
  let after := snd (run_full_installation self) in
  let news := emitted_since self after in
  fst (run_full_installation self) = Returned true
  /\ news = flat_map block (steps self)
  /\ own news = flat_map success_brackets (steps self)
  /\ filter (is_status "Completed") (own news)
     = map (fun stg => completed (stage_step stg) (stage_name stg)) (steps self)
  /\ filter (is_status "Starting...") (own news)
     = map (fun stg => starting (stage_step stg) (stage_name stg)) (steps self)
  /\ List.length (filter (is_status "Completed") (own news))
     = List.length (steps self)
  /\ (steps self = [] -> news = [])
  /\ invoked after = invoked self ++ map launch (steps self)
  /\ delivered after
     = delivered self ++ handed (progress_callback self) news.
Proof.
  intros Hq Hall after news.
  assert (Hrun := run_all_succeed self Hq Hall).
  assert (Hnews : news = flat_map block (steps self)).
  { unfold news, after. rewrite Hrun. cbn [snd].
    apply emitted_since_app, emitted_after_stages. }
  assert (Hown : own news = flat_map success_brackets (steps self)).
  { rewrite Hnews, own_blocks. now apply brackets_successes. }
  split; [now rewrite Hrun|].
  split; [exact Hnews|].
  split; [exact Hown|].
  split; [rewrite Hown; apply filter_completed_success_brackets|].
  split; [rewrite Hown; apply filter_starting_success_brackets|].
  split.
  { rewrite Hown, filter_completed_success_brackets. apply length_map. }
  split; [intros Hnil; rewrite Hnews, Hnil; reflexivity|].
  unfold after. rewrite Hnews, Hrun. cbn [snd].
  split; [apply invoked_after_stages|apply delivered_after_stages].
Qed.

Lemma all_stages_succeed_witness :
  returns_normally (progress_callback
                      (Demo.manager (Some Demo.silent)
                                    (installation_steps Demo.obliging)))
  /\ Forall succeeds (installation_steps Demo.obliging)
  /\ fst (run_full_installation
            (Demo.manager (Some Demo.silent)
                          (installation_steps Demo.obliging)))
     = Returned true.
Proof.
  assert (Hq : returns_normally
                 (progress_callback
                    (Demo.manager (Some Demo.silent)
                                  (installation_steps Demo.obliging)))).
  { simpl. reflexivity. }
  assert (Hall : Forall succeeds (installation_steps Demo.obliging)).
  { repeat constructor. }
  split; [exact Hq|]. split; [exact Hall|].
  exact (proj1 (all_stages_succeed
                  (Demo.manager (Some Demo.silent)
                                (installation_steps Demo.obliging))
                  Hq Hall)).
Defined.

(** C2, refuted as stated: both stages return True, but the callback
    raises when it is handed the first "Completed" event; the inner
    handler catches that, reports the stage as an "Error" and the run
    returns False without awaiting the second stage. *)
Lemma raising_callback_fails_a_good_run :
  let self := Demo.manager (Some Demo.raises_on_completed)
                [Demo.stage_A; Demo.stage_C] in
  let run := run_full_installation self in
  outcome (stage_func Demo.stage_A) = Returned true
  /\ outcome (stage_func Demo.stage_C) = Returned true
  /\ fst run = Returned false
  /\ emitted_since self (snd run)
     = [ (ByOrchestrator, starting DISK_SETUP "Setting up disk partitions");
         (ByOrchestrator, completed DISK_SETUP "Setting up disk partitions");
         (ByOrchestrator,
          errored DISK_SETUP "Setting up disk partitions"
                  (Demo.RuntimeError "widget gone")) ]
  /\ invoked (snd run) = [ (DISK_SETUP, Some DISK_SETUP) ].
Proof. repeat split. Qed.

Lemma split_at {A : Type} (k : nat) (l : list A) (a : A) :
  nth_error l k = Some a ->
  l = firstn k l ++ a :: skipn (S k) l /\ firstn (S k) l = firstn k l ++ [a].
Proof.
  revert l. induction k as [|k IH]; intros [|b l] H; simpl in H; try discriminate.
  - inversion H; subst. split; reflexivity.
  - destruct (IH l H) as [H1 H2]. split.
    + simpl. f_equal. exact H1.
    + change (firstn (S (S k)) (b :: l)) with (b :: firstn (S k) l).
      rewrite H2. reflexivity.
Qed.

Lemma after_stages_snoc self pre stg :
  after_stages self (pre ++ [stg]) = after_stage (after_stages self pre) stg.
Proof. unfold after_stages. now rewrite fold_left_app. Qed.

Lemma run_steps_fail_fast pre stg post self :
  returns_normally (progress_callback self) ->
  Forall succeeds pre ->
  fails stg ->
  run_steps (pre ++ stg :: post) self
  = (Returned false, after_stages self (pre ++ [stg])).
Proof.
  intros Hq Hpre Hf.
  rewrite run_steps_success_prefix by assumption.
  rewrite after_stages_snoc.
  destruct stg as [[s n] func].
  rewrite run_steps_cons by (rewrite after_stages_callback; exact Hq).
  destruct Hf as [H|[e [H He]]]; simpl in H; rewrite H; [reflexivity|].
  rewrite He. reflexivity.
Qed.

(** C1, as amended.  Fail-fast.  Let the progress callback, if one is
    registered, return from every call.  If stage [k] (counting from 0) is
    the first whose coroutine returns False or raises an error (an
    instance of [Exception]), all stages before it returning True, then
    [run_full_installation] returns False; what is emitted is the block of
    each stage 0..k-1 ("Starting...", the stage's own reports, "Completed"
    at progress 1.0) followed by the block of stage [k] ("Starting...",
    its own reports, and one "Failed" or "Error" event), and nothing else:
    the error-bearing events of the whole trace are exactly that one
    terminal event, and the stages after [k] are never awaited and get no
    event. *)
Theorem fail_fast (self : InstallationManager) (k : nat) (stg : Stage) :
  returns_normally (progress_callback self) ->
  nth_error (steps self) k = Some stg ->
  Forall succeeds (firstn k (steps self)) ->
  fails stg ->
  let after := snd (run_full_installation self) in
  let news := emitted_since self after in
  let closing :=
    terminal (stage_step stg) (stage_name stg) (outcome (stage_func stg)) in
  fst (run_full_installation self) = Returned false
  /\ news = flat_map block (firstn k (steps self)) ++ block stg
  /\ news = flat_map block (firstn (S k) (steps self))
  /\ own news
     = flat_map success_brackets (firstn k (steps self))
       ++ [starting (stage_step stg) (stage_name stg); closing]
  /\ (closing = failed (stage_step stg) (stage_name stg)
      \/ exists e, is_Exception e = true
           /\ outcome (stage_func stg) = Raised e
           /\ closing = errored (stage_step stg) (stage_name stg) e)
  /\ filter has_error (map snd news) = [closing]
  /\ invoked after = invoked self ++ map launch (firstn (S k) (steps self))
  /\ current_step after = Some (stage_step stg)
  /\ delivered after
     = delivered self ++ handed (progress_callback self) news.
Proof.
  intros Hq Hk Hpre Hf after news closing.
  destruct (split_at k (steps self) Hk) as [Hsplit Hfirst].
  assert (Hrun : run_full_installation self
                 = (Returned false,
                    after_stages self (firstn (S k) (steps self)))).
  { apply run_full_installation_returned.
    rewrite Hsplit at 1. rewrite Hfirst.
    now apply run_steps_fail_fast. }
  assert (Hnews : news = flat_map block (firstn (S k) (steps self))).
  { unfold news, after. rewrite Hrun. cbn [snd].
    apply emitted_since_app, emitted_after_stages. }
  assert (Hblocks : flat_map block (firstn (S k) (steps self))
                    = flat_map block (firstn k (steps self)) ++ block stg).
  { rewrite Hfirst, flat_map_app. simpl. now rewrite app_nil_r. }
  split; [now rewrite Hrun|].
  split; [now rewrite Hnews|].
  split; [exact Hnews|].
  split.
  { rewrite Hnews, Hblocks, own_app, own_blocks, own_block.
    rewrite brackets_successes by exact Hpre.
    destruct stg as [[s n] func]. reflexivity. }
  split; [exact (terminal_of_failure Hf)|].
  split.
  { rewrite Hnews, Hblocks, map_app, filter_app.
    rewrite blocks_success_no_error by exact Hpre.
    now rewrite block_failure_one_error. }
  unfold after. rewrite Hnews, Hrun. cbn [snd].
  split; [apply invoked_after_stages|].
  split; [|apply delivered_after_stages].
  rewrite Hfirst, after_stages_snoc. apply current_after_stage.
Qed.

Lemma fail_fast_witness :
  returns_normally
    (progress_callback
       (Demo.manager (Some Demo.silent)
                     [Demo.stage_A; Demo.stage_B; Demo.stage_C]))
  /\ nth_error [Demo.stage_A; Demo.stage_B; Demo.stage_C] 1
     = Some Demo.stage_B
  /\ Forall succeeds (firstn 1 [Demo.stage_A; Demo.stage_B; Demo.stage_C])
  /\ fails Demo.stage_B
  /\ fst (run_full_installation
            (Demo.manager (Some Demo.silent)
                          [Demo.stage_A; Demo.stage_B; Demo.stage_C]))
     = Returned false.
Proof.
  assert (Hq : returns_normally
                 (progress_callback
                    (Demo.manager (Some Demo.silent)
                       [Demo.stage_A; Demo.stage_B; Demo.stage_C]))).
  { simpl. reflexivity. }
  assert (Hk : nth_error
                 (steps (Demo.manager (Some Demo.silent)
                           [Demo.stage_A; Demo.stage_B; Demo.stage_C])) 1
               = Some Demo.stage_B).
  { reflexivity. }
  assert (Hpre : Forall succeeds
                   (firstn 1 (steps (Demo.manager (Some Demo.silent)
                              [Demo.stage_A; Demo.stage_B; Demo.stage_C])))).
  { repeat constructor. }
  assert (Hf : fails Demo.stage_B).
  { left. reflexivity. }
  split; [exact Hq|]. split; [exact Hk|]. split; [exact Hpre|].
  split; [exact Hf|].
  exact (proj1 (fail_fast _ 1 Hq Hk Hpre Hf)).
Defined.

(** C1, refuted as stated: a stage that raises [asyncio.CancelledError]
    (a [BaseException] that is no [Exception], what a cancelled await
    raises) is the first stage to raise, yet [run_full_installation] does
    not return False: the exception leaves it, and the stage gets its
    "Starting..." event but no terminal "Failed" or "Error" event. *)
Lemma cancelled_stage_escapes :
  let run := run_full_installation
               (Demo.manager (Some Demo.silent)
                  [Demo.stage_A; Demo.stage_B_cancelled; Demo.stage_C]) in
  outcome (stage_func Demo.stage_A) = Returned true
  /\ outcome (stage_func Demo.stage_B_cancelled) = Raised Demo.CancelledError
  /\ fst run = Raised Demo.CancelledError
  /\ emitted (snd run)
     = [ (ByOrchestrator, starting DISK_SETUP "Setting up disk partitions");
         (ByOrchestrator, completed DISK_SETUP "Setting up disk partitions");
         (ByOrchestrator, starting STAGE3_DOWNLOAD "Downloading Stage3") ]
  /\ filter has_error (map snd (emitted (snd run))) = [].
Proof. repeat split. Qed.

(** The concrete scenario of the design document: A succeeds, B returns
    False, C is never reached. *)
Example scenario_A_ok_B_fails :
  let run := run_full_installation
               (Demo.manager (Some Demo.silent)
                  [Demo.stage_A; Demo.stage_B; Demo.stage_C]) in
  fst run = Returned false
  /\ delivered (snd run)
     = [ starting DISK_SETUP "Setting up disk partitions";
         completed DISK_SETUP "Setting up disk partitions";
         starting STAGE3_DOWNLOAD "Downloading Stage3";
         failed STAGE3_DOWNLOAD "Downloading Stage3" ]
  /\ invoked (snd run)
     = [ (DISK_SETUP, Some DISK_SETUP);
         (STAGE3_DOWNLOAD, Some STAGE3_DOWNLOAD) ].
Proof. repeat split. Qed.

(* ===================================================================== *)
(** ** The orchestrator under an arbitrary callback                       *)
(* ===================================================================== *)

Lemma report_progress_callback o self s n p st d err :
  progress_callback (snd (_report_progress o self s n p st d err))
  = progress_callback self.
Proof.
  unfold _report_progress. simpl.
  destruct (progress_callback self) eqn:E; simpl; now rewrite ?E.
Qed.

Lemma report_progress_contained o self s n p st d err e :
  raises_only_Exception (progress_callback self) ->
  fst (_report_progress o self s n p st d err) = Some e ->
  is_Exception e = true.
Proof.
  unfold _report_progress. simpl.
  destruct (progress_callback self) as [f|]; simpl; intros Hcb H.
  - exact (Hcb _ _ _ H).
  - discriminate.
Qed.

Lemma await_callback {R : Type} (c : Coro R) : forall self,
  progress_callback (snd (await c self)) = progress_callback self.
Proof.
  induction c as [r|e|s n p st k IH]; intros self; simpl; try reflexivity.
  destruct (_report_progress ByStage self s n p st None None)
    as [raised self'] eqn:E.
  rewrite IH.
  change self' with (snd (raised, self')). rewrite <- E.
  apply report_progress_callback.
Qed.

Lemma await_contained {R : Type} (c : Coro R) : forall self,
  raises_only_Exception_coro c ->
  contained (fst (await c self)).
Proof.
  induction c as [r|e|s n p st k IH]; intros self Hc; simpl.
  - exact I.
  - exact Hc.
  - destruct (_report_progress ByStage self s n p st None None)
      as [raised self'].
    apply IH. apply Hc.
Qed.

Lemma inner_except_contained s n e self :
  raises_only_Exception (progress_callback self) ->
  is_Exception e = true ->
  contained (fst (inner_except s n e self)).
Proof.
  intros Hcb He. unfold inner_except. rewrite He.
  destruct (_report_progress ByOrchestrator self s n 0%Q "Error" None _)
    as [[e'|] self'] eqn:E; simpl; [|exact I].
  eapply report_progress_contained; [exact Hcb|].
  rewrite E. reflexivity.
Qed.

Ltac callback_kept E :=
  match type of E with
  | _report_progress _ ?self _ _ _ _ _ _ = (?r, ?self') =>
      let H := fresh "Hkept" in
      assert (H : progress_callback self' = progress_callback self)
        by (change self' with (snd (r, self')); rewrite <- E;
            apply report_progress_callback)
  | await ?c ?self = (?r, ?self') =>
      let H := fresh "Hkept" in
      assert (H : progress_callback self' = progress_callback self)
        by (change self' with (snd (r, self')); rewrite <- E;
            apply await_callback)
  end.

Lemma run_steps_contained todo : forall self,
  raises_only_Exception (progress_callback self) ->
  Forall (fun stg => raises_only_Exception_coro (stage_func stg)) todo ->
  contained (fst (run_steps todo self)).
Proof.
  induction todo as [|[[s n] func] todo IH]; intros self Hcb Hall.
  - exact I.
  - inversion Hall as [|x l Hfunc Htodo]; subst. simpl in Hfunc.
    simpl run_steps.
    destruct (_report_progress ByOrchestrator (set_current_step self s) s n
                0%Q "Starting..." None None) as [[e0|] self1] eqn:E1.
    + simpl. eapply report_progress_contained
        with (self := set_current_step self s); [exact Hcb|].
      rewrite E1. reflexivity.
    + callback_kept E1. simpl in Hkept.
      destruct (await func (log_invoked self1 s)) as [success self2] eqn:E2.
      callback_kept E2. simpl in Hkept0.
      assert (Hcb2 : raises_only_Exception (progress_callback self2))
        by (rewrite Hkept0, Hkept; exact Hcb).
      assert (Hs : contained success).
      { change success with (fst (success, self2)). rewrite <- E2.
        now apply await_contained. }
      destruct success as [[|]|e].
      * destruct (_report_progress ByOrchestrator self2 s n 1%Q "Completed"
                    None None) as [[e3|] self3] eqn:E3.
        -- callback_kept E3.
           apply inner_except_contained; [rewrite Hkept1; exact Hcb2|].
           eapply report_progress_contained with (self := self2);
             [exact Hcb2|].
           rewrite E3. reflexivity.
        -- callback_kept E3. apply IH; [rewrite Hkept1; exact Hcb2|exact Htodo].
      * destruct (_report_progress ByOrchestrator self2 s n 0%Q "Failed" None _)
          as [[e3|] self3] eqn:E3.
        -- callback_kept E3.
           apply inner_except_contained; [rewrite Hkept1; exact Hcb2|].
           eapply report_progress_contained with (self := self2);
             [exact Hcb2|].
           rewrite E3. reflexivity.
        -- exact I.
      * apply inner_except_contained; [exact Hcb2|exact Hs].
Qed.

Lemma run_full_installation_contained self :
  raises_only_Exception (progress_callback self) ->
  Forall (fun stg => raises_only_Exception_coro (stage_func stg)) (steps self) ->
  exists b, fst (run_full_installation self) = Returned b.
Proof.
  intros Hcb Hall.
  assert (H := run_steps_contained self Hcb Hall).
  unfold run_full_installation.
  destruct (run_steps (steps self) self) as [[b|e] after]; simpl in *.
  - now exists b.
  - rewrite H. now exists false.
Qed.

Lemma reports_returning_False c : reports (returning_False c) = reports c.
Proof.
  induction c as [r|e|s n p st k IH]; simpl; try reflexivity.
  now rewrite IH.
Qed.

Lemma outcome_returning_False c e :
  outcome c = Raised e -> outcome (returning_False c) = Returned false.
Proof.
  induction c as [r|e'|s n p st k IH]; simpl; intros H.
  - discriminate.
  - reflexivity.
  - now apply IH.
Qed.

Lemma outcome_contained {R : Type} (c : Coro R) :
  raises_only_Exception_coro c -> contained (outcome c).
Proof.
  induction c as [r|e|s n p st k IH]; simpl; intros H.
  - exact I.
  - exact H.
  - apply IH, H.
Qed.

Lemma run_fail_fast pre stg post self :
  steps self = pre ++ stg :: post ->
  returns_normally (progress_callback self) ->
  Forall succeeds pre ->
  fails stg ->
  run_full_installation self
  = (Returned false, after_stages self (pre ++ [stg])).
Proof.
  intros Hsteps Hq Hpre Hf. apply run_full_installation_returned.
  rewrite Hsteps. now apply run_steps_fail_fast.
Qed.

Lemma flat_map_one {A B : Type} (f : A -> list B) (a : A) :
  flat_map f [a] = f a.
Proof. simpl. apply app_nil_r. Qed.

Lemma block_of_raise s n func e :
  outcome func = Raised e ->
  block (s, n, func)
  = ((ByOrchestrator, starting s n) :: map (pair ByStage) (reports func))
    ++ [(ByOrchestrator, errored s n e)].
Proof. intros H. simpl. now rewrite H. Qed.

Lemma block_of_returning_False s n func e :
  outcome func = Raised e ->
  block (s, n, returning_False func)
  = ((ByOrchestrator, starting s n) :: map (pair ByStage) (reports func))
    ++ [(ByOrchestrator, failed s n)].
Proof.
  intros H. simpl.
  now rewrite reports_returning_False, (@outcome_returning_False func e H).
Qed.

(* ===================================================================== *)
(** ** What any run leaves behind, whatever the callback does             *)
(* ===================================================================== *)

Lemma only_emits_refl self : only_emits self self.
Proof.
  repeat split. exists []. split; [now rewrite app_nil_r|constructor].
Qed.

Lemma only_emits_trans a b c :
  only_emits a b -> only_emits b c -> only_emits a c.
Proof.
  intros (H1 & H2 & H3 & H4 & H5 & evs & H6 & H7)
         (K1 & K2 & K3 & K4 & K5 & evs' & K6 & K7).
  repeat split; try congruence.
  exists (evs ++ evs'). split.
  - rewrite K6, H6. now rewrite app_assoc.
  - apply Forall_app. now split.
Qed.

Lemma report_progress_only_emits o self s n p st d err :
  error_at_zero (o, mkStepProgress s n p st d err) ->
  only_emits self (snd (_report_progress o self s n p st d err)).
Proof.
  intros Hev. unfold _report_progress. simpl.
  destruct (progress_callback self) eqn:E; simpl;
    repeat split; simpl; auto;
    exists [(o, mkStepProgress s n p st d err)]; split; auto.
Qed.

Lemma await_only_emits {R : Type} (c : Coro R) : forall self,
  only_emits self (snd (await c self)).
Proof.
  induction c as [r|e|s n p st k IH]; intros self; simpl;
    try apply only_emits_refl.
  destruct (_report_progress ByStage self s n p st None None)
    as [raised self'] eqn:E.
  apply only_emits_trans with self'; [|apply IH].
  change self' with (snd (raised, self')). rewrite <- E.
  apply report_progress_only_emits.
  unfold error_at_zero, has_error. simpl. discriminate.
Qed.

Lemma inner_except_only_emits s n e self :
  only_emits self (snd (inner_except s n e self)).
Proof.
  unfold inner_except. destruct (is_Exception e); [|apply only_emits_refl].
  destruct (_report_progress ByOrchestrator self s n 0%Q "Error" None _)
    as [raised self'] eqn:E.
  assert (H : only_emits self self').
  { change self' with (snd (raised, self')). rewrite <- E.
    apply report_progress_only_emits. split; reflexivity. }
  destruct raised; exact H.
Qed.

Lemma loop_progress_turn s n func todo self mid after :
  only_emits (log_invoked (set_current_step self s) s) mid ->
  (after = mid \/ loop_progress todo mid after) ->
  loop_progress ((s, n, func) :: todo) self after.
Proof.
  intros (H1 & H2 & H3 & H4 & H5 & evs & H6 & H7) Hafter.
  simpl in H1, H2, H3, H4, H5, H6.
  destruct Hafter as [->|(K1 & K2 & K3 & (evs' & K4 & K4')
                           & (ens & K5 & K5') & K6 & K7)].
  - repeat split; try assumption.
    + exists evs. now split.
    + exists [(s, Some s)]. split; [exact H5|]. repeat constructor.
    + discriminate.
    + intros _. exists (s, n, func). split; [now left|exact H4].
  - repeat split; try congruence.
    + exists (evs ++ evs'). split.
      * rewrite K4, H6. now rewrite app_assoc.
      * apply Forall_app. now split.
    + exists ((s, Some s) :: ens). split.
      * rewrite K5, H5. now rewrite <- app_assoc.
      * constructor; [reflexivity|exact K5'].
    + intros _. destruct todo as [|stg todo].
      * exists (s, n, func). split; [now left|].
        rewrite K6 by reflexivity. exact H4.
      * destruct K7 as (stg' & Hin & Hcur); [discriminate|].
        exists stg'. split; [now right|exact Hcur].
Qed.

Ltac emitted_only E :=
  match type of E with
  | _report_progress ?o ?self ?s ?n ?p ?st ?d ?err = (?r, ?self') =>
      let H := fresh "Hem" in
      assert (H : only_emits self self')
        by (change self' with (snd (r, self')); rewrite <- E;
            apply report_progress_only_emits;
            first [ split; reflexivity
                  | unfold error_at_zero, has_error; simpl; discriminate ])
  | await ?c ?self = (?r, ?self') =>
      let H := fresh "Hem" in
      assert (H : only_emits self self')
        by (change self' with (snd (r, self')); rewrite <- E;
            apply await_only_emits)
  | inner_except ?s ?n ?e ?self = (?r, ?self') =>
      let H := fresh "Hem" in
      assert (H : only_emits self self')
        by (change self' with (snd (r, self')); rewrite <- E;
            apply inner_except_only_emits)
  end.

Lemma set_current_then_invoke self s mid :
  only_emits (set_current_step self s) mid ->
  only_emits (log_invoked (set_current_step self s) s) (log_invoked mid s).
Proof.
  intros (H1 & H2 & H3 & H4 & H5 & evs & H6 & H7).
  unfold log_invoked, get_current_step. simpl in *.
  repeat split; simpl; try assumption.
  - now rewrite H5, H4.
  - exists evs. now split.
Qed.

Lemma run_steps_progress todo : forall self,
  loop_progress todo self (snd (run_steps todo self)).
Proof.
  induction todo as [|[[s n] func] todo IH]; intros self.
  - simpl. repeat split.
    + exists []. split; [now rewrite app_nil_r|constructor].
    + exists []. split; [now rewrite app_nil_r|constructor].
    + intros H. now elim H.
  - simpl run_steps.
    destruct (_report_progress ByOrchestrator (set_current_step self s) s n
                0%Q "Starting..." None None) as [raised self1] eqn:E1.
    emitted_only E1.
    destruct raised as [e0|].
    + (* the callback raised at "Starting...": the stage is not awaited *)
      simpl. destruct Hem as (H1 & H2 & H3 & H4 & H5 & evs & H6 & H7).
      simpl in *. repeat split; try assumption.
      * exists evs. now split.
      * exists []. split; [now rewrite app_nil_r|constructor].
      * discriminate.
      * intros _. exists (s, n, func). split; [now left|exact H4].
    + apply set_current_then_invoke in Hem.
      destruct (await func (log_invoked self1 s)) as [success self2] eqn:E2.
      emitted_only E2.
      assert (Hmid := only_emits_trans Hem Hem0).
      destruct success as [[|]|e].
      * destruct (_report_progress ByOrchestrator self2 s n 1%Q "Completed"
                    None None) as [raised self3] eqn:E3.
        emitted_only E3.
        assert (Hmid3 := only_emits_trans Hmid Hem1).
        destruct raised as [e3|].
        -- destruct (inner_except s n e3 self3) as [r self4] eqn:E4.
           emitted_only E4. simpl.
           eapply loop_progress_turn;
             [exact (only_emits_trans Hmid3 Hem2)|now left].
        -- eapply loop_progress_turn; [exact Hmid3|right; apply IH].
      * destruct (_report_progress ByOrchestrator self2 s n 0%Q "Failed"
                    None _) as [raised self3] eqn:E3.
        emitted_only E3.
        assert (Hmid3 := only_emits_trans Hmid Hem1).
        destruct raised as [e3|].
        -- destruct (inner_except s n e3 self3) as [r self4] eqn:E4.
           emitted_only E4. simpl.
           eapply loop_progress_turn;
             [exact (only_emits_trans Hmid3 Hem2)|now left].
        -- simpl. eapply loop_progress_turn; [exact Hmid3|now left].
      * destruct (inner_except s n e self2) as [r self4] eqn:E4.
        emitted_only E4. simpl.
        eapply loop_progress_turn;
          [exact (only_emits_trans Hmid Hem1)|now left].
Qed.

Lemma run_full_installation_progress self :
  loop_progress (steps self) self (snd (run_full_installation self)).
Proof.
  assert (H := run_steps_progress (steps self) self).
  unfold run_full_installation.
  destruct (run_steps (steps self) self) as [[b|e] after]; simpl in *.
  - exact H.
  - destruct (is_Exception e); exact H.
Qed.

(** A callback that raises when it is handed the "Failed" event: the
    exception is caught by the inner handler, which reports the stage once
    more, as an "Error"; the run still returns False.  This is why the
    statements about the last event of a stage are made for callbacks
    that return. *)
Example callback_raising_on_failed :
  let run := run_full_installation
               (Demo.manager (Some Demo.raises_on_failed)
                  [Demo.stage_A; Demo.stage_B; Demo.stage_C]) in
  fst run = Returned false
  /\ delivered (snd run)
     = [ starting DISK_SETUP "Setting up disk partitions";
         completed DISK_SETUP "Setting up disk partitions";
         starting STAGE3_DOWNLOAD "Downloading Stage3";
         failed STAGE3_DOWNLOAD "Downloading Stage3";
         errored STAGE3_DOWNLOAD "Downloading Stage3"
                 (Demo.RuntimeError "widget gone") ]
  /\ invoked (snd run)
     = [ (DISK_SETUP, Some DISK_SETUP);
         (STAGE3_DOWNLOAD, Some STAGE3_DOWNLOAD) ].
Proof. repeat split. Qed.

(* ===================================================================== *)
(** ** The shape of every run under a callback that returns               *)
(* ===================================================================== *)

Lemma first_non_success (stgs : list Stage) :
  Forall succeeds stgs
  \/ exists pre stg post,
       stgs = pre ++ stg :: post /\ Forall succeeds pre
       /\ (fails stg
           \/ exists e, outcome (stage_func stg) = Raised e
                        /\ is_Exception e = false).
Proof.
  induction stgs as [|[[s n] func] stgs IH]; [left; constructor|].
  destruct (outcome func) as [[|]|e] eqn:E.
  - destruct IH as [IH|(pre & stg & post & -> & Hpre & Hstg)].
    + left. constructor; [exact E|exact IH].
    + right. exists ((s, n, func) :: pre), stg, post.
      split; [reflexivity|]. split; [|exact Hstg].
      constructor; [exact E|exact Hpre].
  - right. exists [], (s, n, func), stgs.
    split; [reflexivity|]. split; [constructor|]. left. left. exact E.
  - right. exists [], (s, n, func), stgs.
    split; [reflexivity|]. split; [constructor|].
    destruct (is_Exception e) eqn:He.
    + left. right. exists e. split; [exact E|exact He].
    + right. exists e. split; [exact E|exact He].
Qed.

Lemma run_interrupted pre stg post self e :
  steps self = pre ++ stg :: post ->
  returns_normally (progress_callback self) ->
  Forall succeeds pre ->
  outcome (stage_func stg) = Raised e ->
  is_Exception e = false ->
  run_full_installation self
  = (Raised e, stage_ended (after_stages self pre) stg).
Proof.
  intros Hsteps Hq Hpre Hraise He. unfold run_full_installation.
  rewrite Hsteps, run_steps_success_prefix by assumption.
  destruct stg as [[s n] func]. simpl in Hraise.
  rewrite run_steps_cons by (rewrite after_stages_callback; exact Hq).
  now rewrite Hraise, He, He.
Qed.

Lemma emitted_stage_ended self stg :
  emitted (stage_ended self stg)
  = emitted self
    ++ (ByOrchestrator, starting (stage_step stg) (stage_name stg))
       :: map (pair ByStage) (reports (stage_func stg)).
Proof.
  destruct stg as [[s n] func]. simpl. now rewrite <- app_assoc.
Qed.

Lemma invoked_stage_ended self stg :
  invoked (stage_ended self stg) = invoked self ++ [launch stg].
Proof. destruct stg as [[s n] func]. reflexivity. Qed.

Lemma current_stage_ended self stg :
  current_step (stage_ended self stg) = Some (stage_step stg).
Proof. destruct stg as [[s n] func]. reflexivity. Qed.

Lemma delivered_stage_ended self stg :
  delivered (stage_ended self stg)
  = delivered self
    ++ handed (progress_callback self)
         ((ByOrchestrator, starting (stage_step stg) (stage_name stg))
          :: map (pair ByStage) (reports (stage_func stg))).
Proof.
  destruct stg as [[s n] func]. unfold handed. simpl.
  destruct (progress_callback self); simpl.
  - now rewrite <- app_assoc.
  - now rewrite app_nil_r.
Qed.

Lemma opening_no_error stg :
  filter has_error
    (map snd ((ByOrchestrator, starting (stage_step stg) (stage_name stg))
              :: map (pair ByStage) (reports (stage_func stg))))
  = [].
Proof.
  simpl. rewrite map_map. simpl. rewrite map_id. apply reports_no_error.
Qed.

(** In a list that ends with its only element satisfying [P], nothing
    follows an element that satisfies [P]. *)
Lemma nothing_after_last {A : Type} (P : A -> bool) (l : list A) (z : A) :
  filter P l = [] ->
  forall a y b, l ++ [z] = a ++ y :: b -> P y = true -> b = [] /\ y = z.
Proof.
  induction l as [|x l IH]; intros Hl a y b Heq Hy.
  - destruct a as [|a0 a]; simpl in Heq.
    + inversion Heq; subst. split; reflexivity.
    + inversion Heq as [[H0 H1]]. destruct a; discriminate.
  - simpl in Hl. destruct (P x) eqn:Hx; [discriminate|].
    destruct a as [|a0 a]; simpl in Heq.
    + inversion Heq; subst. congruence.
    + inversion Heq; subst. eapply IH; eauto.
Qed.

Lemma no_filtered_member {A : Type} (P : A -> bool) (l a b : list A) (y : A) :
  filter P l = [] -> l = a ++ y :: b -> P y = true -> False.
Proof.
  intros Hl -> Hy. rewrite filter_app in Hl. simpl in Hl. rewrite Hy in Hl.
  destruct (filter P a); discriminate.
Qed.

(* ===================================================================== *)
(** ** Exception containment                                              *)
(* ===================================================================== *)

(** C3, as amended.  No instance of [Exception] ever leaves
    [run_full_installation], whatever the stages and the progress
    callback do and whichever of them raised it: the call returns a
    boolean or raises an exception that is no instance of [Exception];
    so when the stage coroutines and the callback can raise nothing but
    instances of [Exception], it returns a boolean.  When
    the callback returns from every call and a stage whose predecessors
    all succeed raises an instance [e] of [Exception], the run returns
    False, the last event emitted is an "Error" event at progress 0.0 for
    that stage whose error text ends with [str(e)], and no later stage is
    awaited; the same run with that stage returning False instead gives
    the same result, awaits the same stages, leaves the same current step
    and emits the same events but for the last one, which is the "Failed"
    event: the two last events differ in status and error text only.
    When the stage raises an [e] that is no instance of [Exception], [e]
    leaves [run_full_installation] and the stage gets no terminal
    event. *)
Theorem exception_containment (self : InstallationManager) :
  (forall e, fst (run_full_installation self) = Raised e ->
             is_Exception e = false)
  /\ (raises_only_Exception (progress_callback self) ->
      Forall (fun stg => raises_only_Exception_coro (stage_func stg))
             (steps self) ->
      exists b, fst (run_full_installation self) = Returned b)
  /\ (forall pre s n func post e,
        returns_normally (progress_callback self) ->
        steps self = pre ++ (s, n, func) :: post ->
        Forall succeeds pre ->
        outcome func = Raised e ->
        is_Exception e = true ->
        let after := snd (run_full_installation self) in
        let self' :=
          with_steps self (pre ++ (s, n, returning_False func) :: post) in
        let after' := snd (run_full_installation self') in
        let common :=
          flat_map block pre
          ++ (ByOrchestrator, starting s n)
             :: map (pair ByStage) (reports func) in
        fst (run_full_installation self) = Returned false
        /\ emitted_since self after
           = common ++ [(ByOrchestrator, errored s n e)]
        /\ errored s n e
           = mkStepProgress s n 0%Q "Error" None
               (Some ("Exception in step " ++ n ++ ": " ++ exn_str e)%string)
        /\ invoked after = invoked self ++ map launch (pre ++ [(s, n, func)])
        /\ fst (run_full_installation self') = Returned false
        /\ emitted_since self' after'
           = common ++ [(ByOrchestrator, failed s n)]
        /\ failed s n
           = mkStepProgress s n 0%Q "Failed" None
               (Some ("Step failed: " ++ n)%string)
        /\ invoked after' = invoked after
        /\ current_step after' = current_step after)
  /\ (forall pre s n func post e,
        returns_normally (progress_callback self) ->
        steps self = pre ++ (s, n, func) :: post ->
        Forall succeeds pre ->
        outcome func = Raised e ->
        is_Exception e = false ->
        let after := snd (run_full_installation self) in
        fst (run_full_installation self) = Raised e
        /\ emitted_since self after
           = flat_map block pre
             ++ (ByOrchestrator, starting s n)
                :: map (pair ByStage) (reports func)).
Proof.
  split.
  { intros e. unfold run_full_installation.
    destruct (run_steps (steps self) self) as [[b|e0] after]; cbn [fst];
      [discriminate|].
    destruct (is_Exception e0) eqn:He0; cbn [fst]; [discriminate|].
    intros H. inversion H; subst. exact He0. }
  split; [now apply run_full_installation_contained|]. split.
  - intros pre s n func post e Hq Hsteps Hpre Hraise He
           after self' after' common.
    assert (Hf : fails (s, n, func)) by (right; exists e; auto).
    assert (Hf' : fails (s, n, returning_False func)).
    { left. simpl. exact (@outcome_returning_False func e Hraise). }
    assert (Hrun := @run_fail_fast pre _ post self Hsteps Hq Hpre Hf).
    assert (Hrun' : run_full_installation self'
                    = (Returned false,
                       after_stages self'
                         (pre ++ [(s, n, returning_False func)]))).
    { apply run_fail_fast with (post := post); auto. }
    unfold after, after'. rewrite Hrun, Hrun'. cbn [fst snd].
    split; [reflexivity|].
    split.
    { apply emitted_since_app. rewrite emitted_after_stages, flat_map_app.
      rewrite flat_map_one, (@block_of_raise s n func e Hraise).
      unfold common. now rewrite <- app_assoc. }
    split; [reflexivity|].
    split; [apply invoked_after_stages|].
    split; [reflexivity|].
    split.
    { apply emitted_since_app. rewrite emitted_after_stages, flat_map_app.
      rewrite flat_map_one, (@block_of_returning_False s n func e Hraise).
      unfold common. now rewrite <- app_assoc. }
    split; [reflexivity|].
    split.
    + rewrite !invoked_after_stages, !map_app. reflexivity.
    + now rewrite !after_stages_snoc, !current_after_stage.
  - intros pre s n func post e Hq Hsteps Hpre Hraise He after.
    unfold after.
    rewrite (@run_interrupted pre (s, n, func) post self e
               Hsteps Hq Hpre Hraise He).
    cbn [fst snd]. split; [reflexivity|].
    apply emitted_since_app.
    rewrite emitted_stage_ended, emitted_after_stages.
    now rewrite app_assoc.
Qed.

Lemma exception_containment_witness :
  let self := Demo.manager (Some Demo.silent)
                [Demo.stage_A; Demo.stage_B_raises; Demo.stage_C] in
  returns_normally (progress_callback self)
  /\ Forall succeeds [Demo.stage_A]
  /\ outcome (Raise (Demo.RuntimeError "no network") : Coro bool)
     = Raised (Demo.RuntimeError "no network")
  /\ is_Exception (Demo.RuntimeError "no network") = true
  /\ fst (run_full_installation self) = Returned false
  /\ emitted_since self (snd (run_full_installation self))
     = (flat_map block [Demo.stage_A]
        ++ (ByOrchestrator, starting STAGE3_DOWNLOAD "Downloading Stage3")
           :: map (pair ByStage)
                (reports (Raise (Demo.RuntimeError "no network")
                          : Coro bool)))
       ++ [(ByOrchestrator,
            errored STAGE3_DOWNLOAD "Downloading Stage3"
                    (Demo.RuntimeError "no network"))].
Proof.
  intros self.
  assert (Hq : returns_normally (progress_callback self))
    by (simpl; reflexivity).
  assert (Hpre : Forall succeeds [Demo.stage_A]) by (repeat constructor).
  assert (Hraise : outcome (Raise (Demo.RuntimeError "no network")
                            : Coro bool)
                   = Raised (Demo.RuntimeError "no network"))
    by reflexivity.
  assert (He : is_Exception (Demo.RuntimeError "no network") = true)
    by reflexivity.
  split; [exact Hq|]. split; [exact Hpre|]. split; [exact Hraise|].
  split; [exact He|].
  destruct (proj1 (proj2 (proj2 (exception_containment self)))
              [Demo.stage_A] STAGE3_DOWNLOAD "Downloading Stage3"%string
              (Raise (Demo.RuntimeError "no network")) [Demo.stage_C]
              (Demo.RuntimeError "no network")
              Hq eq_refl Hpre Hraise He) as (H1 & H2 & _).
  split; [exact H1|exact H2].
Defined.

(** C3, refuted as stated: a stage interrupted by [KeyboardInterrupt] (a
    [BaseException] that is no [Exception]) is caught by neither
    [except Exception] clause, so the exception leaves
    [run_full_installation] and no "Error" event is emitted; and the
    terminal events of a raising and of a failing stage differ in their
    error text as well as in their status. *)
Lemma interrupt_escapes :
  let run := run_full_installation
               (Demo.manager (Some Demo.silent)
                  [Demo.stage_A; Demo.stage_B_interrupted; Demo.stage_C]) in
  fst run = Raised Demo.KeyboardInterrupt
  /\ delivered (snd run)
     = [ starting DISK_SETUP "Setting up disk partitions";
         completed DISK_SETUP "Setting up disk partitions";
         starting STAGE3_DOWNLOAD "Downloading Stage3" ]
  /\ error (errored STAGE3_DOWNLOAD "Downloading Stage3"
              (Demo.RuntimeError "no network"))
     = Some "Exception in step Downloading Stage3: no network"%string
  /\ error (failed STAGE3_DOWNLOAD "Downloading Stage3")
     = Some "Step failed: Downloading Stage3"%string.
Proof. repeat split. Qed.

(* ===================================================================== *)
(** ** Error-bearing events                                               *)
(* ===================================================================== *)

Lemma map_snd_block stg :
  map snd (block stg)
  = map snd ((ByOrchestrator, starting (stage_step stg) (stage_name stg))
             :: map (pair ByStage) (reports (stage_func stg)))
    ++ [terminal (stage_step stg) (stage_name stg) (outcome (stage_func stg))].
Proof.
  destruct stg as [[s n] func]. simpl. rewrite map_app. reflexivity.
Qed.

Lemma map_snd_split {A B : Type} (l : list (A * B)) pre x post :
  l = pre ++ x :: post ->
  map snd l = map snd pre ++ snd x :: map snd post.
Proof. intros ->. now rewrite map_app. Qed.

(** C8, as amended.  Error-event invariant.  Whatever the callback does,
    every event
    emitted during [run_full_installation] that carries a non-empty error
    message was emitted by the orchestrator itself at progress 0.0.  When
    the callback returns from every call, such an event is moreover the
    last event of the run: it closes a stage that failed, which is the
    current stage, nothing is emitted after it and the run returns
    False. *)
Theorem error_event_invariant (self : InstallationManager) :
  let after := snd (run_full_installation self) in
  let news := emitted_since self after in
  Forall error_at_zero news
  /\ (returns_normally (progress_callback self) ->
      forall pre o ev post,
        news = pre ++ (o, ev) :: post ->
        has_error ev = true ->
        post = []
        /\ progress ev = 0%Q
        /\ fst (run_full_installation self) = Returned false
        /\ current_step after = Some (step ev)
        /\ exists stg,
             In stg (steps self) /\ fails stg
             /\ ev = terminal (stage_step stg) (stage_name stg)
                              (outcome (stage_func stg))).
Proof.
  intros after news.
  assert (Hzero : Forall error_at_zero news).
  { destruct (run_full_installation_progress self)
      as (_ & _ & _ & (evs & Hevs & Hall) & _).
    unfold news, after. now rewrite (@emitted_since_app _ _ _ Hevs). }
  split; [exact Hzero|].
  intros Hq pre o ev post Hsplit Herr.
  assert (Hsnd := @map_snd_split _ _ _ _ _ _ Hsplit). simpl in Hsnd.
  destruct (first_non_success (steps self))
    as [Hall|(pre' & stg & post' & Hsteps & Hpre & [Hf|(e & Hraise & He)])].
  - (* every stage succeeds: there is no such event *)
    exfalso.
    assert (Hnews : news = flat_map block (steps self)).
    { unfold news, after. rewrite (run_all_succeed self Hq Hall). cbn [snd].
      apply emitted_since_app, emitted_after_stages. }
    rewrite Hnews in Hsnd.
    exact (@no_filtered_member _ has_error _ _ _ _
             (blocks_success_no_error Hall) Hsnd Herr).
  - (* a stage fails: the event closes it *)
    assert (Hrun := @run_fail_fast pre' stg post' self Hsteps Hq Hpre Hf).
    assert (Hnews : news = flat_map block pre' ++ block stg).
    { unfold news, after. rewrite Hrun. cbn [snd].
      apply emitted_since_app.
      now rewrite emitted_after_stages, flat_map_app, flat_map_one. }
    rewrite Hnews, map_app, map_snd_block, app_assoc in Hsnd.
    assert (Hquiet :
      filter has_error
        (map snd (flat_map block pre')
         ++ map snd ((ByOrchestrator,
                      starting (stage_step stg) (stage_name stg))
                     :: map (pair ByStage) (reports (stage_func stg))))
      = []).
    { rewrite filter_app, (blocks_success_no_error Hpre).
      apply opening_no_error. }
    destruct (@nothing_after_last _ has_error _ _ Hquiet _ _ _ Hsnd Herr)
      as [Hpost Hev].
    split; [now destruct post|].
    split.
    { rewrite Forall_forall in Hzero.
      assert (Hin : In (o, ev) news) by (rewrite Hsplit; apply in_elt).
      exact (proj1 (Hzero _ Hin Herr)). }
    split; [now rewrite Hrun|].
    split.
    { unfold after. rewrite Hrun. cbn [snd].
      rewrite after_stages_snoc, current_after_stage, Hev.
      destruct stg as [[s n] func]. simpl.
      destruct (outcome func) as [[|]|e]; reflexivity. }
    exists stg. split; [rewrite Hsteps; apply in_elt|]. split; assumption.
  - (* a stage is interrupted: there is no such event *)
    exfalso.
    assert (Hrun := @run_interrupted pre' stg post' self e
                      Hsteps Hq Hpre Hraise He).
    assert (Hnews :
      news = flat_map block pre'
             ++ (ByOrchestrator, starting (stage_step stg) (stage_name stg))
                :: map (pair ByStage) (reports (stage_func stg))).
    { unfold news, after. rewrite Hrun. cbn [snd].
      apply emitted_since_app.
      now rewrite emitted_stage_ended, emitted_after_stages, app_assoc. }
    rewrite Hnews, map_app in Hsnd.
    refine (@no_filtered_member _ has_error _ _ _ _ _ Hsnd Herr).
    rewrite filter_app, (blocks_success_no_error Hpre).
    apply opening_no_error.
Qed.

Lemma error_event_invariant_witness :
  let self := Demo.manager (Some Demo.silent)
                [Demo.stage_A; Demo.stage_B; Demo.stage_C] in
  let after := snd (run_full_installation self) in
  returns_normally (progress_callback self)
  /\ emitted_since self after
     = [ (ByOrchestrator, starting DISK_SETUP "Setting up disk partitions");
         (ByOrchestrator, completed DISK_SETUP "Setting up disk partitions");
         (ByOrchestrator, starting STAGE3_DOWNLOAD "Downloading Stage3") ]
       ++ (ByOrchestrator, failed STAGE3_DOWNLOAD "Downloading Stage3") :: []
  /\ has_error (failed STAGE3_DOWNLOAD "Downloading Stage3") = true
  /\ fst (run_full_installation self) = Returned false.
Proof.
  intros self after.
  assert (Hq : returns_normally (progress_callback self)).
  { simpl. reflexivity. }
  assert (Hsplit :
    emitted_since self after
    = [ (ByOrchestrator, starting DISK_SETUP "Setting up disk partitions");
        (ByOrchestrator, completed DISK_SETUP "Setting up disk partitions");
        (ByOrchestrator, starting STAGE3_DOWNLOAD "Downloading Stage3") ]
      ++ (ByOrchestrator, failed STAGE3_DOWNLOAD "Downloading Stage3") :: []).
  { reflexivity. }
  assert (Herr : has_error (failed STAGE3_DOWNLOAD "Downloading Stage3") = true).
  { reflexivity. }
  split; [exact Hq|]. split; [exact Hsplit|]. split; [exact Herr|].
  exact (proj1 (proj2 (proj2
           (proj2 (error_event_invariant self) Hq _ _ _ _ Hsplit Herr)))).
Defined.

(** C8, refuted as stated: the callback raises when it is handed the
    "Failed" event of the second stage; the inner handler catches that
    and the orchestrator emits an "Error" event for the same stage, so
    the "Failed" event, which carries an error message, is not the last
    event of its stage. *)
Lemma failed_event_is_followed_by_an_error_event :
  let self := Demo.manager (Some Demo.raises_on_failed)
                [Demo.stage_A; Demo.stage_B; Demo.stage_C] in
  let run := run_full_installation self in
  emitted_since self (snd run)
  = [ (ByOrchestrator, starting DISK_SETUP "Setting up disk partitions");
      (ByOrchestrator, completed DISK_SETUP "Setting up disk partitions");
      (ByOrchestrator, starting STAGE3_DOWNLOAD "Downloading Stage3");
      (ByOrchestrator, failed STAGE3_DOWNLOAD "Downloading Stage3");
      (ByOrchestrator,
       errored STAGE3_DOWNLOAD "Downloading Stage3"
               (Demo.RuntimeError "widget gone")) ]
  /\ has_error (failed STAGE3_DOWNLOAD "Downloading Stage3") = true
  /\ has_error (errored STAGE3_DOWNLOAD "Downloading Stage3"
                        (Demo.RuntimeError "widget gone")) = true
  /\ step (errored STAGE3_DOWNLOAD "Downloading Stage3"
                   (Demo.RuntimeError "widget gone"))
     = step (failed STAGE3_DOWNLOAD "Downloading Stage3")
  /\ fst run = Returned false.
Proof. repeat split. Qed.

(* ===================================================================== *)
(** ** The callback does not steer the orchestration                      *)
(* ===================================================================== *)

(** C10.  Progress-sink noninterference.  For every manager and every two
    choices of progress callback that return from every call (no callback
    at all being one such choice, for which reporting does nothing),
    [run_full_installation] gives the same result, awaits the same stages
    in the same order, emits the same events and leaves the same current
    step; with no callback nothing is delivered. *)
Theorem sink_noninterference
  (self : InstallationManager) (cb1 cb2 : option Callback) :
  returns_normally cb1 ->
  returns_normally cb2 ->
  let run1 := run_full_installation (with_callback self cb1) in
  let run2 := run_full_installation (with_callback self cb2) in
  fst run1 = fst run2
  /\ invoked (snd run1) = invoked (snd run2)
  /\ emitted (snd run1) = emitted (snd run2)
  /\ current_step (snd run1) = current_step (snd run2)
  /\ delivered (snd (run_full_installation (with_callback self None)))
     = delivered self.
Proof.
  intros Hq1 Hq2 run1 run2. unfold run1, run2.
  assert (Hq0 : returns_normally (progress_callback (with_callback self None)))
    by exact I.
  destruct (first_non_success (steps self))
    as [Hall|(pre & stg & post & Hsteps & Hpre & [Hf|(e & Hraise & He)])].
  - rewrite (run_all_succeed (with_callback self cb1) Hq1 Hall).
    rewrite (run_all_succeed (with_callback self cb2) Hq2 Hall).
    rewrite (run_all_succeed (with_callback self None) Hq0 Hall).
    cbn [fst snd].
    rewrite !invoked_after_stages, !emitted_after_stages,
            !current_after_stages, delivered_after_stages.
    repeat split. apply app_nil_r.
  - rewrite (@run_fail_fast pre stg post (with_callback self cb1)
               Hsteps Hq1 Hpre Hf).
    rewrite (@run_fail_fast pre stg post (with_callback self cb2)
               Hsteps Hq2 Hpre Hf).
    rewrite (@run_fail_fast pre stg post (with_callback self None)
               Hsteps Hq0 Hpre Hf).
    cbn [fst snd].
    rewrite !invoked_after_stages, !emitted_after_stages,
            !current_after_stages, delivered_after_stages.
    repeat split. apply app_nil_r.
  - rewrite (@run_interrupted pre stg post (with_callback self cb1) e
               Hsteps Hq1 Hpre Hraise He).
    rewrite (@run_interrupted pre stg post (with_callback self cb2) e
               Hsteps Hq2 Hpre Hraise He).
    rewrite (@run_interrupted pre stg post (with_callback self None) e
               Hsteps Hq0 Hpre Hraise He).
    cbn [fst snd].
    rewrite !invoked_stage_ended, !emitted_stage_ended,
            !current_stage_ended, !invoked_after_stages,
            !emitted_after_stages, delivered_stage_ended,
            delivered_after_stages.
    repeat split. rewrite after_stages_callback. simpl.
    now rewrite !app_nil_r.
Qed.

Lemma sink_noninterference_witness :
  returns_normally None
  /\ returns_normally (Some Demo.silent)
  /\ fst (run_full_installation
            (with_callback
               (Demo.manager None [Demo.stage_A; Demo.stage_B; Demo.stage_C])
               None))
     = fst (run_full_installation
              (with_callback
                 (Demo.manager None [Demo.stage_A; Demo.stage_B; Demo.stage_C])
                 (Some Demo.silent))).
Proof.
  assert (Hq1 : returns_normally None) by exact I.
  assert (Hq2 : returns_normally (Some Demo.silent)).
  { simpl. reflexivity. }
  split; [exact Hq1|]. split; [exact Hq2|].
  exact (proj1 (@sink_noninterference
                  (Demo.manager None
                     [Demo.stage_A; Demo.stage_B; Demo.stage_C])
                  None (Some Demo.silent) Hq1 Hq2)).
Defined.

(* ===================================================================== *)
(** ** The current-step accessor                                          *)
(* ===================================================================== *)

Lemma invoked_since_app before after ens :
  invoked after = invoked before ++ ens -> invoked_since before after = ens.
Proof.
  intros H. unfold invoked_since. rewrite H.
  rewrite skipn_app, skipn_all, Nat.sub_diag. reflexivity.
Qed.

(** C6, as amended.  [get_current_step] answers none on a manager that
    has just been built.  During a run it answers the stage that is being
    executed: every stage coroutine is awaited while its own step is the
    current one, and awaiting it does not change the current step.  It is
    never reset: after [run_full_installation] over a non-empty stage
    sequence it answers the step of a stage of the sequence, whatever
    the callback did: the last stage after a run in which every stage
    succeeded, the failing stage after a run that a stage failed (the
    callback returning from every call).  Only over an empty sequence does
    it keep answering what it answered before. *)
Theorem current_step_accessor (self : InstallationManager) :
  let after := snd (run_full_installation self) in
  get_current_step (init (config self) (steps self)) = None
  /\ Forall awaited_while_current (invoked_since self after)
  /\ (forall (c : Coro bool) (mid : InstallationManager),
        get_current_step (snd (await c mid)) = get_current_step mid)
  /\ (steps self = [] -> get_current_step after = get_current_step self)
  /\ (steps self <> [] ->
      exists stg, In stg (steps self)
                  /\ get_current_step after = Some (stage_step stg))
  /\ (returns_normally (progress_callback self) ->
      Forall succeeds (steps self) ->
      get_current_step after
      = last (map (fun stg => Some (stage_step stg)) (steps self))
             (get_current_step self))
  /\ (returns_normally (progress_callback self) ->
      forall pre stg post,
        steps self = pre ++ stg :: post ->
        Forall succeeds pre ->
        fails stg ->
        fst (run_full_installation self) = Returned false
        /\ get_current_step after = Some (stage_step stg)).
Proof.
  intros after.
  destruct (run_full_installation_progress self)
    as (_ & _ & _ & _ & (ens & Hens & Hall) & Hnil & Hcons).
  split; [reflexivity|].
  split; [unfold after; now rewrite (@invoked_since_app _ _ _ Hens)|].
  split.
  { intros c mid. destruct (await_only_emits c mid) as (_ & _ & _ & H & _).
    exact H. }
  split; [exact Hnil|].
  split; [exact Hcons|].
  split.
  - intros Hq Hsucc. unfold after, get_current_step.
    rewrite (run_all_succeed self Hq Hsucc). cbn [snd].
    apply current_after_stages.
  - intros Hq pre stg post Hsteps Hpre Hf. unfold after, get_current_step.
    rewrite (@run_fail_fast pre stg post self Hsteps Hq Hpre Hf).
    cbn [fst snd]. split; [reflexivity|].
    now rewrite after_stages_snoc, current_after_stage.
Qed.

Lemma current_step_accessor_witness :
  let self := Demo.manager (Some Demo.silent)
                [Demo.stage_A; Demo.stage_B; Demo.stage_C] in
  returns_normally (progress_callback self)
  /\ steps self = [Demo.stage_A] ++ Demo.stage_B :: [Demo.stage_C]
  /\ Forall succeeds [Demo.stage_A]
  /\ fails Demo.stage_B
  /\ fst (run_full_installation self) = Returned false
  /\ get_current_step (snd (run_full_installation self))
     = Some STAGE3_DOWNLOAD.
Proof.
  intros self.
  assert (Hq : returns_normally (progress_callback self)).
  { simpl. reflexivity. }
  assert (Hsteps : steps self = [Demo.stage_A] ++ Demo.stage_B :: [Demo.stage_C]).
  { reflexivity. }
  assert (Hpre : Forall succeeds [Demo.stage_A]).
  { repeat constructor. }
  assert (Hf : fails Demo.stage_B).
  { left. reflexivity. }
  split; [exact Hq|]. split; [exact Hsteps|]. split; [exact Hpre|].
  split; [exact Hf|].
  exact (proj2 (proj2 (proj2 (proj2 (proj2 (proj2
           (current_step_accessor self))))))
           Hq _ _ _ Hsteps Hpre Hf).
Defined.

(** C6, refuted as stated: after [run_full_installation] has returned,
    [get_current_step] does not answer none.  After the successful run of
    the ten stages of the source it answers [FINALIZATION]; after a run
    that stage B failed it answers the step of B. *)
Lemma current_step_survives_the_run :
  let done := run_full_installation
                (new Config.default_AppConfig Demo.obliging) in
  let failed_run := run_full_installation
                      (Demo.manager None
                         [Demo.stage_A; Demo.stage_B; Demo.stage_C]) in
  fst done = Returned true
  /\ get_current_step (snd done) = Some FINALIZATION
  /\ fst failed_run = Returned false
  /\ get_current_step (snd failed_run) = Some STAGE3_DOWNLOAD.
Proof. repeat split. Qed.

(* ===================================================================== *)
(** ** The prerequisite gate                                              *)
(* ===================================================================== *)

Import Config.

Lemma validate_false_cause self h :
  fst (validate_prerequisites self h) = Returned false ->
  dry_run (config self) = false
  /\ ((geteuid h =? 0) = false
      \/ exists_ h (target_disk (disk (config self))) = Returned false).
Proof.
  unfold validate_prerequisites.
  destruct (dry_run (config self)); cbn [negb andb].
  - destruct (exists_ h (mount_point (config self))) as [[|]|e];
      [destruct (any_iterdir h (mount_point (config self))) as [w|e]| |];
      discriminate.
  - destruct (geteuid h =? 0); cbn [negb fst]; [|auto].
    destruct (exists_ h (target_disk (disk (config self))))
      as [[|]|e]; cbn [negb]; [| auto |discriminate].
    destruct (exists_ h (mount_point (config self))) as [[|]|e];
      [destruct (any_iterdir h (mount_point (config self))) as [w|e]| |];
      discriminate.
Qed.

(** C5, as amended.  Prerequisite gate.  With dry-run set,
    [validate_prerequisites] never returns False, on any host: who runs
    it and whether the target disk exists are not looked at, so two hosts
    that answer alike about the mount point get the same result; it
    returns True exactly when the inspection of the mount point does not
    raise, and otherwise the exception of the inspection leaves it.  On
    every configuration the state of the mount point never makes the
    result False: a False answer always comes from one of the two hard
    checks without dry-run, two hosts that agree on the effective user
    and on the target disk are refused alike, and an existing, non-empty
    mount point only adds one WARNING record to the log of a run that
    returns True. *)
Theorem prerequisite_gate (self : InstallationManager) (h : Host) :
  (dry_run (config self) = true ->
   fst (validate_prerequisites self h) <> Returned false
   /\ (fst (validate_prerequisites self h) = Returned true
       <-> exists_ h (mount_point (config self)) = Returned false
           \/ (exists_ h (mount_point (config self)) = Returned true
               /\ exists entries,
                    any_iterdir h (mount_point (config self))
                    = Returned entries))
   /\ (forall e,
         fst (validate_prerequisites self h) = Raised e ->
         exists_ h (mount_point (config self)) = Raised e
         \/ any_iterdir h (mount_point (config self)) = Raised e)
   /\ (forall h',
         exists_ h' (mount_point (config self))
         = exists_ h (mount_point (config self)) ->
         any_iterdir h' (mount_point (config self))
         = any_iterdir h (mount_point (config self)) ->
         fst (validate_prerequisites self h')
         = fst (validate_prerequisites self h)))
  /\ (fst (validate_prerequisites self h) = Returned false ->
      dry_run (config self) = false
      /\ ((geteuid h =? 0) = false
          \/ exists_ h (target_disk (disk (config self)))
             = Returned false))
  /\ (forall h',
        geteuid h' = geteuid h ->
        exists_ h' (target_disk (disk (config self)))
        = exists_ h (target_disk (disk (config self))) ->
        (fst (validate_prerequisites self h') = Returned false
         <-> fst (validate_prerequisites self h) = Returned false))
  /\ (exists_ h (mount_point (config self)) = Returned true ->
      any_iterdir h (mount_point (config self)) = Returned true ->
      fst (validate_prerequisites self h) = Returned true ->
      snd (validate_prerequisites self h)
      = [ (INFO, "Validating installation prerequisites"%string);
          (WARNING,
           ("Mount point is not empty: "
              ++ path_str h (mount_point (config self)))%string);
          (INFO, "Prerequisites validation completed"%string) ]).
Proof.
  split; [|split; [apply validate_false_cause|split]].
  - intros Hdry. unfold validate_prerequisites. rewrite Hdry.
    cbn [negb andb].
    split; [|split; [|split]].
    + destruct (exists_ h (mount_point (config self))) as [[|]|e];
        [destruct (any_iterdir h (mount_point (config self))) as [w|e]| |];
        discriminate.
    + destruct (exists_ h (mount_point (config self))) as [[|]|e].
      * destruct (any_iterdir h (mount_point (config self))) as [w|e];
          cbn [fst]; split.
        -- intros _. right. split; [reflexivity|]. now exists w.
        -- reflexivity.
        -- discriminate.
        -- intros [H|(_ & w & H)]; discriminate H.
      * cbn [fst]. split; [now left|reflexivity].
      * cbn [fst]. split; [discriminate|].
        intros [H|(H & _)]; discriminate H.
    + intros e.
      destruct (exists_ h (mount_point (config self))) as [[|]|e0].
      * destruct (any_iterdir h (mount_point (config self))) as [w|e1];
          cbn [fst]; intros H; inversion H; subst. now right.
      * discriminate.
      * cbn [fst]. intros H. inversion H; subst. now left.
    + intros h' -> ->.
      destruct (exists_ h (mount_point (config self))) as [[|]|e0];
        [destruct (any_iterdir h (mount_point (config self))) as [w|e1]| |];
        reflexivity.
  - intros h' Hu Hd.
    assert (Hcase : forall host,
      fst (validate_prerequisites self host) = Returned false
      <-> dry_run (config self) = false
          /\ ((geteuid host =? 0) = false
              \/ exists_ host (target_disk (disk (config self)))
                 = Returned false)).
    { intros host. split; [apply validate_false_cause|].
      unfold validate_prerequisites. intros [-> Hcause]. cbn [negb andb].
      destruct (geteuid host =? 0); cbn [negb]; [|reflexivity].
      destruct Hcause as [Hroot| ->]; [discriminate Hroot|reflexivity]. }
    rewrite !Hcase, Hu, Hd. tauto.
  - unfold validate_prerequisites. intros Hm Hn.
    destruct (negb (dry_run (config self)) && negb (geteuid h =? 0));
      [discriminate|].
    destruct (negb (dry_run (config self))).
    + destruct (exists_ h (target_disk (disk (config self))))
        as [[|]|e]; cbn [negb fst]; try discriminate.
      rewrite Hm, Hn. reflexivity.
    + rewrite Hm, Hn. reflexivity.
Qed.

Lemma prerequisite_gate_witness :
  let self := init Demo.dry_config [] in
  dry_run (config self) = true
  /\ (geteuid Demo.hostile =? 0) = false
  /\ exists_ Demo.hostile (target_disk (disk (config self)))
     = Returned false
  /\ any_iterdir Demo.hostile (mount_point (config self)) = Returned true
  /\ fst (validate_prerequisites self Demo.hostile) = Returned true.
Proof.
  intros self.
  assert (Hdry : dry_run (config self) = true) by reflexivity.
  split; [exact Hdry|]. repeat (split; [reflexivity|]).
  apply (proj1 (proj2 (proj1 (prerequisite_gate self Demo.hostile) Hdry))).
  right. split; [reflexivity|]. now exists true.
Defined.

(** C5, refuted as stated: dry-run is set and the mount point is a
    regular file; [Path.exists()] answers True, [Path.iterdir()] raises
    [NotADirectoryError], nothing catches it and
    [validate_prerequisites] does not return True: it raises. *)
Lemma dry_run_does_not_always_return_True :
  let self := init Demo.dry_config [] in
  dry_run (config self) = true
  /\ fst (validate_prerequisites self Demo.mount_point_is_a_file)
     = Raised (Demo.NotADirectoryError "/mnt/gentoo").
Proof. split; reflexivity. Qed.

(* ===================================================================== *)
(** ** The command runner                                                 *)
(* ===================================================================== *)

Import System Runner.

Lemma wait_for_timeout child t capture_output :
  exceeds child t ->
  wait_for_communicate child (Some t) capture_output
  = Some (Raised timeout_error).
Proof.
  destruct child as [after rc out err| |e]; simpl; intros H.
  - destruct (Qle_bool after t) eqn:E; [|reflexivity].
    apply Qle_bool_iff in E. exfalso. exact (Qlt_not_le _ _ H E).
  - reflexivity.
  - contradiction.
Qed.

Lemma run_command_except_ordinary h process e ops :
  is_Exception e = true ->
  (process = None -> is_TimeoutError e = false) ->
  kill h = None ->
  wait h = None ->
  exists rc out err,
    fst (run_command_except h process e ops) = Returned (rc, out, err).
Proof.
  intros He Hp Hkill Hwait. unfold run_command_except.
  destruct (is_TimeoutError e) eqn:Ht.
  - destruct process as [child|];
      [|specialize (Hp eq_refl); congruence].
    rewrite Hkill, Hwait.
    now exists (-1), ""%string, "Command timed out"%string.
  - rewrite He. now exists (-1), ""%string, (exn_str e).
Qed.

(** C4, as amended.  Failure shape of [run_command].  If the process is
    launched and is still running when the given timeout has passed, it
    is killed and then waited for and, both calls returning, the call
    returns [(-1, "", "Command timed out")].  If the process cannot be
    launched, the launch raising an ordinary error [e] (an [Exception]
    that is no timeout error), the call returns [(-1, "", str(e))] and no
    process was touched.  If every failure of the host is an ordinary
    error and [kill] and [wait] return, then whenever the call ends it
    ends by returning a triple: it does not raise.  An exception that is
    no instance of [Exception], raised by the launch or while the process
    is awaited, is caught by neither handler and leaves [run_command]. *)
Theorem run_command_failure_shape
  (h : System.Host) (command : list string) (cwd : option string)
  (env : option (list (string * string))) (timeout : option Q)
  (capture_output : bool) :
  (forall child t,
     create_subprocess_exec h command cwd env = Returned child ->
     timeout = Some t ->
     exceeds child t ->
     kill h = None ->
     wait h = None ->
     run_command h command cwd env timeout capture_output
     = (Some (Returned (-1, ""%string, "Command timed out"%string)),
        [Spawn; Communicate; Kill; Wait]))
  /\ (forall e,
        create_subprocess_exec h command cwd env = Raised e ->
        exn_class e = OtherException ->
        run_command h command cwd env timeout capture_output
        = (Some (Returned (-1, ""%string, exn_str e)), []))
  /\ (ordinary_failures h command cwd env ->
      forall r,
        fst (run_command h command cwd env timeout capture_output) = Some r ->
        exists rc out err, r = Returned (rc, out, err))
  /\ (forall e,
        is_Exception e = false ->
        (create_subprocess_exec h command cwd env = Raised e ->
         run_command h command cwd env timeout capture_output
         = (Some (Raised e), []))
        /\ (create_subprocess_exec h command cwd env
            = Returned (Interrupted e) ->
            run_command h command cwd env timeout capture_output
            = (Some (Raised e), [Spawn; Communicate]))).
Proof.
  split; [|split; [|split]].
  - intros child t Hspawn -> Hexceeds Hkill Hwait.
    unfold run_command, run_command_except.
    rewrite Hspawn, (@wait_for_timeout child t capture_output Hexceeds).
    cbn [is_TimeoutError timeout_error exn_class]. rewrite Hkill, Hwait.
    reflexivity.
  - intros e Hspawn Hclass. unfold run_command, run_command_except.
    rewrite Hspawn. unfold is_TimeoutError, is_Exception.
    rewrite Hclass. reflexivity.
  - intros (Hlaunch & Hint & Hdec & Hkill & Hwait) r. unfold run_command.
    destruct (create_subprocess_exec h command cwd env)
      as [process|e] eqn:Hspawn.
    + assert (Hcomm : forall e,
                wait_for_communicate process timeout capture_output
                = Some (Raised e) -> is_Exception e = true).
      { intros e. destruct process as [after rc out err| |e']; simpl.
        - destruct timeout as [t|]; [|discriminate].
          destruct (Qle_bool after t); [discriminate|].
          intros H. inversion H. reflexivity.
        - destruct timeout as [t|]; [|discriminate].
          intros H. inversion H. reflexivity.
        - intros H. inversion H; subst. now apply Hint. }
      destruct (wait_for_communicate process timeout capture_output)
        as [[[[rc out] err]|e]|]; simpl.
      * assert (Hdec' : forall data e,
                  decode_or_empty h data = Raised e -> is_Exception e = true).
        { intros [[|b bs]|] e; simpl; try discriminate. apply Hdec. }
        destruct (decode_or_empty h out) as [out_str|e] eqn:E1.
        -- destruct (decode_or_empty h err) as [err_str|e] eqn:E2.
           ++ simpl. intros H. inversion H. now exists rc, out_str, err_str.
           ++ destruct (@run_command_except_ordinary h (Some process) e
                          [Spawn; Communicate] (Hdec' _ _ E2))
                as (rc' & o' & e' & Hr); [discriminate|assumption..|].
              destruct (run_command_except h (Some process) e
                          [Spawn; Communicate]) as [r' ops'].
              simpl in *. intros H. inversion H; subst.
              now exists rc', o', e'.
        -- destruct (@run_command_except_ordinary h (Some process) e
                       [Spawn; Communicate] (Hdec' _ _ E1))
             as (rc' & o' & e' & Hr); [discriminate|assumption..|].
           destruct (run_command_except h (Some process) e
                       [Spawn; Communicate]) as [r' ops'].
           simpl in *. intros H. inversion H; subst.
           now exists rc', o', e'.
      * destruct (@run_command_except_ordinary h (Some process) e
                    [Spawn; Communicate] (Hcomm _ eq_refl))
          as (rc' & o' & e' & Hr); [discriminate|assumption..|].
        destruct (run_command_except h (Some process) e
                    [Spawn; Communicate]) as [r' ops'].
        simpl in *. intros H. inversion H; subst.
        now exists rc', o', e'.
      * discriminate.
    + assert (Hclass := Hlaunch _ eq_refl).
      destruct (@run_command_except_ordinary h None e [])
        as (rc' & o' & e' & Hr); [| |assumption..|].
      { unfold is_Exception. now rewrite Hclass. }
      { intros _. unfold is_TimeoutError. now rewrite Hclass. }
      destruct (run_command_except h None e []) as [r' ops'].
      simpl in *. intros H. inversion H; subst.
      now exists rc', o', e'.
  - intros e He.
    assert (Ht : is_TimeoutError e = false).
    { unfold is_Exception in He. unfold is_TimeoutError.
      destruct (exn_class e); [discriminate|discriminate|reflexivity]. }
    split; intros Hspawn; unfold run_command, run_command_except;
      rewrite Hspawn; cbn [wait_for_communicate]; now rewrite Ht, He.
Qed.

Lemma run_command_failure_shape_witness :
  create_subprocess_exec Demo.sleepy ["sleep"; "100"]%string None None
  = Returned (Exits 100 0 [] [])
  /\ exceeds (Exits 100 0 [] []) 5
  /\ kill Demo.sleepy = None
  /\ wait Demo.sleepy = None
  /\ run_command Demo.sleepy ["sleep"; "100"]%string None None (Some 5%Q) true
     = (Some (Returned (-1, ""%string, "Command timed out"%string)),
        [Spawn; Communicate; Kill; Wait])
  /\ run_command Demo.sleepy ["fdisk"; "-l"]%string None None None true
     = (Some (Returned
                (-1, ""%string,
                 "[Errno 2] No such file or directory: 'fdisk'"%string)),
        []).
Proof.
  assert (Hspawn :
    create_subprocess_exec Demo.sleepy ["sleep"; "100"]%string None None
    = Returned (Exits 100 0 [] [])) by reflexivity.
  assert (Hexceeds : exceeds (Exits 100 0 [] []) 5) by reflexivity.
  split; [exact Hspawn|]. split; [exact Hexceeds|].
  split; [reflexivity|]. split; [reflexivity|]. split.
  - exact (proj1 (run_command_failure_shape Demo.sleepy
                    ["sleep"; "100"]%string None None (Some 5%Q) true)
                 _ _ Hspawn eq_refl Hexceeds eq_refl eq_refl).
  - exact (proj1 (proj2 (run_command_failure_shape Demo.sleepy
                           ["fdisk"; "-l"]%string None None None true))
                 _ eq_refl eq_refl).
Defined.

(** C4, refuted as stated: [run_command] raises to its caller in three
    cases of failure.  The await of the launched command is cancelled:
    [asyncio.CancelledError] is no instance of [Exception] and neither
    handler catches it.  The launch itself raises a timeout error: the
    first handler reads [process], which is not bound yet.  The process
    exceeds the timeout and has exited when the handler calls [kill]:
    [ProcessLookupError] is raised inside the handler and the process is
    not waited for. *)
Lemma run_command_can_raise :
  run_command Demo.cancelled ["emerge"; "--sync"]%string None None
    (Some 600%Q) true
  = (Some (Raised Demo.CancelledError), [Spawn; Communicate])
  /\ is_Exception Demo.CancelledError = false
  /\ run_command Demo.launch_times_out ["emerge"; "--sync"]%string None None
       None true
     = (Some (Raised unbound_process), [])
  /\ exceeds (Exits (51 # 10) 0 [] []) 5
  /\ run_command Demo.exits_before_kill ["sleep"; "5.1"]%string None None
       (Some 5%Q) true
     = (Some (Raised Demo.ProcessLookupError), [Spawn; Communicate; Kill]).
Proof. repeat split. Qed.

(* ===================================================================== *)
(** ** The wizard navigator                                               *)
(* ===================================================================== *)

Import Wizard.

Lemma advance_step_index self :
  App.current_step (App.advance_step self)
  = (if App.current_step self <? App.total_steps self - 1
     then App.current_step self + 1 else App.current_step self)
  /\ App.total_steps (App.advance_step self) = App.total_steps self.
Proof.
  unfold App.advance_step.
  destruct (App.current_step self <? App.total_steps self - 1); split;
    reflexivity.
Qed.

Lemma previous_step_index self :
  App.current_step (App.previous_step self)
  = (if App.current_step self >? 0
     then App.current_step self - 1 else App.current_step self)
  /\ App.total_steps (App.previous_step self) = App.total_steps self.
Proof.
  unfold App.previous_step.
  destruct (App.current_step self >? 0); split; reflexivity.
Qed.

Lemma navigate_in_range self op :
  in_range self ->
  in_range (App.navigate self op)
  /\ App.total_steps (App.navigate self op) = App.total_steps self.
Proof.
  unfold in_range. intros Hr. destruct op; simpl.
  - destruct (advance_step_index self) as [-> ->]. split; [|reflexivity].
    destruct (Z.ltb_spec (App.current_step self) (App.total_steps self - 1));
      lia.
  - destruct (previous_step_index self) as [-> ->]. split; [|reflexivity].
    destruct (Z.gtb_spec (App.current_step self) 0); lia.
Qed.

Lemma navigate_all_in_range ops : forall self,
  in_range self ->
  in_range (App.navigate_all self ops)
  /\ App.total_steps (App.navigate_all self ops) = App.total_steps self.
Proof.
  induction ops as [|op ops IH]; intros self Hr; [split; auto|].
  unfold App.navigate_all. simpl.
  destruct (navigate_in_range op Hr) as [Hr' Ht].
  destruct (IH _ Hr') as [Hr'' Ht'].
  split; [exact Hr''|]. unfold App.navigate_all in Ht'. congruence.
Qed.

(** C7.  Navigator index invariant.  With N the total step count:
    [advance_step] at index N-1 changes nothing and [previous_step] at
    index 0 changes nothing; below N-1 [advance_step] adds one to the
    index and above 0 [previous_step] takes one away; and from index 0,
    N being at least 1, the index stays within 0..N-1 through every
    finite sequence of advance and retreat requests, N itself never
    changing.  The application starts at index 0 with N = 7. *)
Theorem navigator_index_invariant (self : App.GentooUIApp) :
  (App.current_step self = App.total_steps self - 1 ->
   App.advance_step self = self)
  /\ (App.current_step self = 0 -> App.previous_step self = self)
  /\ (App.current_step self < App.total_steps self - 1 ->
      App.current_step (App.advance_step self) = App.current_step self + 1)
  /\ (App.current_step self > 0 ->
      App.current_step (App.previous_step self) = App.current_step self - 1)
  /\ (forall ops,
        1 <= App.total_steps self ->
        App.current_step self = 0 ->
        0 <= App.current_step (App.navigate_all self ops)
          <= App.total_steps self - 1
        /\ App.total_steps (App.navigate_all self ops) = App.total_steps self)
  /\ (forall cfg,
        App.current_step (App.new cfg) = 0
        /\ App.total_steps (App.new cfg) = 7).
Proof.
  repeat split.
  - intros H. unfold App.advance_step. rewrite H, Z.ltb_irrefl. reflexivity.
  - intros H. unfold App.previous_step. rewrite H. reflexivity.
  - intros H. rewrite (proj1 (advance_step_index self)).
    apply Z.ltb_lt in H. now rewrite H.
  - intros H. rewrite (proj1 (previous_step_index self)).
    apply Z.gtb_gt in H. now rewrite H.
  - destruct (@navigate_all_in_range ops self) as [[Hlo _] _];
      [unfold in_range; lia|exact Hlo].
  - destruct (@navigate_all_in_range ops self) as [[_ Hhi] Ht];
      [unfold in_range; lia|]. rewrite Ht in Hhi. exact Hhi.
  - destruct (@navigate_all_in_range ops self) as [_ Ht];
      [unfold in_range; lia|exact Ht].
Qed.

Lemma navigator_index_invariant_witness :
  let self := App.new Config.default_AppConfig in
  let ops := [App.Retreat; App.Advance; App.Advance; App.Advance;
              App.Advance; App.Advance; App.Advance; App.Advance;
              App.Advance; App.Retreat] in
  1 <= App.total_steps self
  /\ App.current_step self = 0
  /\ 0 <= App.current_step (App.navigate_all self ops)
       <= App.total_steps self - 1.
Proof.
  intros self ops.
  assert (H1 : 1 <= App.total_steps self) by (simpl; lia).
  assert (H0 : App.current_step self = 0) by reflexivity.
  split; [exact H1|]. split; [exact H0|].
  exact (proj1 (proj1 (proj2 (proj2 (proj2 (proj2
           (navigator_index_invariant self))))) ops H1 H0)).
Defined.

(** At the last and at the first index the widgets keep their text. *)
Example navigation_at_the_ends :
  let self := App.new Config.default_AppConfig in
  let last_one := App.navigate_all self
                    [App.Advance; App.Advance; App.Advance;
                     App.Advance; App.Advance; App.Advance] in
  App.current_step last_one = 6
  /\ App.step_counter last_one = "Step 7/7"%string
  /\ App.advance_step last_one = last_one
  /\ App.previous_step self = self
  /\ App.step_counter self = "Step 1/7"%string.
Proof. vm_compute. repeat split. Qed.

(* ===================================================================== *)
(** ** Navigator steps and orchestrator stages                            *)
(* ===================================================================== *)

(** C9, as amended.  The navigator and the orchestrator each have a fixed
    ordered list of their own and the two lists are different.  The
    navigator has the 7 steps welcome, disk_setup, stage3, configuration,
    kernel, bootloader, finalization, as many as its total step count;
    the orchestrator has 10 stages with pairwise distinct identifiers.
    The identifiers found in both lists are disk_setup and finalization,
    in this order in both; both lists end with finalization; no display
    name of the navigator is the name of a stage. *)
Theorem navigator_and_orchestrator_steps
  (cfg : AppConfig) (m : Managers) :
  let nav := App.new cfg in
  let stgs := steps (new cfg m) in
  navigator_ids nav
  = [ "welcome"; "disk_setup"; "stage3"; "configuration"; "kernel";
      "bootloader"; "finalization" ]%string
  /\ App.total_steps nav = Z.of_nat (List.length (App.steps nav))
  /\ orchestrator_ids stgs
     = [ "disk_setup"; "stage3_download"; "stage3_extract"; "portage_setup";
         "system_config"; "kernel_install"; "kernel_config";
         "kernel_compile"; "bootloader_install"; "finalization" ]%string
  /\ List.length stgs = 10%nat
  /\ NoDup (orchestrator_ids stgs)
  /\ same_texts (navigator_ids nav) (orchestrator_ids stgs) = false
  /\ filter (occurs_in (orchestrator_ids stgs)) (navigator_ids nav)
     = [ "disk_setup"; "finalization" ]%string
  /\ filter (occurs_in (navigator_ids nav)) (orchestrator_ids stgs)
     = [ "disk_setup"; "finalization" ]%string
  /\ last (navigator_ids nav) ""%string = last (orchestrator_ids stgs) ""%string
  /\ filter (occurs_in (orchestrator_names stgs)) (navigator_names nav) = [].
Proof.
  intros nav stgs.
  repeat (split; [reflexivity|]).
  split; [|repeat (split; [reflexivity|]); reflexivity].
  unfold stgs, orchestrator_ids. simpl.
  repeat (constructor; [simpl; intuition discriminate|]). constructor.
Qed.

(** C9, refuted as stated: the two lists have different lengths and
    different members; "stage3" is a step of the navigator and no stage
    of the orchestrator, "stage3_download" the reverse. *)
Lemma step_lists_differ :
  let nav := App.new Config.default_AppConfig in
  let stgs := installation_steps Demo.obliging in
  List.length (navigator_ids nav) = 7%nat
  /\ List.length (orchestrator_ids stgs) = 10%nat
  /\ same_texts (navigator_ids nav) (orchestrator_ids stgs) = false
  /\ same_texts (navigator_names nav) (orchestrator_names stgs) = false
  /\ nth_error (navigator_ids nav) 2 = Some "stage3"%string
  /\ nth_error (orchestrator_ids stgs) 2 = Some "stage3_extract"%string
  /\ occurs_in (orchestrator_ids stgs) "stage3" = false
  /\ occurs_in (navigator_ids nav) "stage3_download" = false.
Proof. repeat split. Qed.

(* ===================================================================== *)
(** ** The ten stage coroutines of the source                             *)
(* ===================================================================== *)

Import StageProps.

Unset Implicit Arguments.

Lemma except_return_False_keeps (body : Coro bool) :
  keeps_Exceptions_in (except_return_False body).
Proof.
  induction body as [b|e|s n p st k IH]; simpl.
  - exact I.
  - destruct (is_Exception e) eqn:He; simpl; [exact I|exact He].
  - intros raised. apply IH.
Qed.


Lemma outcome_only_interrupts {R : Type} (c : Coro R) :
  keeps_Exceptions_in c -> only_interrupts (outcome c).
Proof.
  induction c as [r|e|s n p st k IH]; simpl; intros Hc.
  - exact I.
  - exact Hc.
  - apply IH, Hc.
Qed.

Lemma installation_steps_guarded m stg :
  In stg (installation_steps m) ->
  exists body, stage_func stg = except_return_False body.
Proof.
  unfold installation_steps. simpl.
  intros [<-|[<-|[<-|[<-|[<-|[<-|[<-|[<-|[<-|[<-|[]]]]]]]]]]]; simpl;
    eexists; reflexivity.
Qed.

Lemma installation_steps_keep m stg :
  In stg (installation_steps m) -> keeps_Exceptions_in (stage_func stg).
Proof.
  intros Hin. destruct (installation_steps_guarded m stg Hin) as [body ->].
  apply except_return_False_keeps.
Qed.

Lemma await_except_return_False (body : Coro bool) : forall self,
  await (except_return_False body) self
  = (turned_into_False (fst (await body self)), snd (await body self)).
Proof.
  induction body as [b|e|s n p st k IH]; intros self; simpl.
  - reflexivity.
  - destruct (is_Exception e); reflexivity.
  - destruct (_report_progress ByStage self s n p st None None)
      as [raised self'].
    apply IH.
Qed.

Lemma installation_steps_try_body m stg :
  In stg (installation_steps m) ->
  stage_func stg = except_return_False (try_body m (stage_step stg)).
Proof.
  unfold installation_steps. simpl.
  intros [<-|[<-|[<-|[<-|[<-|[<-|[<-|[<-|[<-|[<-|[]]]]]]]]]]];
    reflexivity.
Qed.

(** X1.  Each of the ten stage coroutines of [self.steps] is the body of
    its [try] statement under [except Exception: return False].
    Whatever the managers and the progress callback do, awaiting the
    stage does to the manager what awaiting the body alone does, and it
    ends as the body ends, except that every instance of [Exception]
    that leaves the body, raised by a manager or by the callback called
    from within the stage, is turned into the result False; only an
    exception that is no instance of [Exception] leaves the stage. *)
Theorem stage_coroutines_guarded (m : Managers) (stg : Stage)
  (self : InstallationManager) :
  In stg (installation_steps m) ->
  let body := await (try_body m (stage_step stg)) self in
  let stage := await (stage_func stg) self in
  snd stage = snd body
  /\ (forall b, fst body = Returned b -> fst stage = Returned b)
  /\ (forall e, fst body = Raised e -> is_Exception e = true ->
                fst stage = Returned false)
  /\ (forall e, fst body = Raised e -> is_Exception e = false ->
                fst stage = Raised e)
  /\ only_interrupts (fst stage).
Proof.
  intros Hin body stage. unfold stage, body.
  rewrite (installation_steps_try_body m stg Hin).
  rewrite await_except_return_False. cbn [fst snd].
  split; [reflexivity|]. split; [intros b ->; reflexivity|].
  split; [intros e -> He; simpl; now rewrite He|].
  split; [intros e -> He; simpl; now rewrite He|].
  destruct (fst (await (try_body m (stage_step stg)) self)) as [b|e];
    simpl; [exact I|].
  destruct (is_Exception e) eqn:He; simpl; [exact I|exact He].
Qed.

Lemma stage_coroutines_guarded_witness :
  In (STAGE3_DOWNLOAD, "Downloading Stage3"%string,
      run_stage3_download Samples.offline)
     (installation_steps Samples.offline)
  /\ fst (await (try_body Samples.offline STAGE3_DOWNLOAD)
                (new Config.default_AppConfig Samples.offline))
     = Raised (mk_exn OtherException "no network")
  /\ fst (await (run_stage3_download Samples.offline)
                (new Config.default_AppConfig Samples.offline))
     = Returned false.
Proof.
  assert (Hin : In (STAGE3_DOWNLOAD, "Downloading Stage3"%string,
                    run_stage3_download Samples.offline)
                   (installation_steps Samples.offline)).
  { right. left. reflexivity. }
  split; [exact Hin|]. split; [reflexivity|].
  exact (proj1 (proj2 (proj2
           (stage_coroutines_guarded Samples.offline _
              (new Config.default_AppConfig Samples.offline) Hin)))
           (mk_exn OtherException "no network") eq_refl eq_refl).
Defined.

Lemma keeps_outcome_not_error {R : Type} (c : Coro R) e :
  keeps_Exceptions_in c -> outcome c = Raised e -> is_Exception e = false.
Proof.
  intros Hc Ho. apply outcome_only_interrupts in Hc.
  rewrite Ho in Hc. exact Hc.
Qed.

Lemma fails_guarded stg :
  keeps_Exceptions_in (stage_func stg) -> fails stg ->
  outcome (stage_func stg) = Returned false.
Proof.
  intros Hk [H|(e & H & He)]; [exact H|].
  rewrite (keeps_outcome_not_error _ e Hk H) in He. discriminate.
Qed.

(** X2.  In a run of the ten stages of the source under a callback that
    returns from every call, a stage is never closed by an "Error"
    event: every emitted event that carries an error message is the
    orchestrator's "Failed" event with the text "Step failed: <name>";
    a False result means that some stage coroutine returned False; and
    an exception that leaves the run is no instance of [Exception]. *)
Theorem real_stages_fail_without_error_events
  (m : Managers) (self : InstallationManager) :
  steps self = installation_steps m ->
  returns_normally (progress_callback self) ->
  let after := snd (run_full_installation self) in
  let news := emitted_since self after in
  (forall o ev,
     In (o, ev) news -> has_error ev = true ->
     o = ByOrchestrator
     /\ status ev = "Failed"%string
     /\ progress ev = 0%Q
     /\ error ev = Some ("Step failed: " ++ name ev)%string)
  /\ (fst (run_full_installation self) = Returned false ->
      exists stg, In stg (steps self)
                  /\ outcome (stage_func stg) = Returned false)
  /\ (forall e, fst (run_full_installation self) = Raised e ->
                is_Exception e = false).
Proof.
  intros Hsteps Hq after news.
  assert (Hkeep : forall stg, In stg (steps self) ->
                              keeps_Exceptions_in (stage_func stg)).
  { intros stg Hin. rewrite Hsteps in Hin.
    exact (installation_steps_keep m stg Hin). }
  destruct (first_non_success (steps self))
    as [Hall|(pre & stg & post & Hsplit & Hpre & [Hf|(e & Hraise & He)])].
  - (* every stage succeeds *)
    assert (Hrun := run_all_succeed self Hq Hall).
    assert (Hnews : news = flat_map block (steps self)).
    { unfold news, after. rewrite Hrun. cbn [snd].
      apply emitted_since_app, emitted_after_stages. }
    split; [|split].
    + intros o ev Hin Herr. exfalso.
      assert (Hin' : In ev (filter has_error (map snd news))).
      { apply filter_In. split; [|exact Herr].
        change ev with (snd (o, ev)). now apply in_map. }
      rewrite Hnews, (blocks_success_no_error Hall) in Hin'. exact Hin'.
    + rewrite Hrun. discriminate.
    + intros e. rewrite Hrun. discriminate.
  - (* a stage fails: it returned False *)
    assert (Hin : In stg (steps self)) by (rewrite Hsplit; apply in_elt).
    assert (Hfalse := fails_guarded stg (Hkeep stg Hin) Hf).
    assert (Hrun := @run_fail_fast pre stg post self Hsplit Hq Hpre Hf).
    assert (Hnews : news = flat_map block pre ++ block stg).
    { unfold news, after. rewrite Hrun. cbn [snd].
      apply emitted_since_app.
      now rewrite emitted_after_stages, flat_map_app, flat_map_one. }
    split; [|split].
    + intros o ev Hin' Herr.
      assert (Hzero : Forall error_at_zero news).
      { destruct (run_full_installation_progress self)
          as (_ & _ & _ & (evs & Hevs & Hall) & _).
        unfold news, after. now rewrite (@emitted_since_app _ _ _ Hevs). }
      rewrite Forall_forall in Hzero.
      destruct (Hzero _ Hin' Herr) as [Hp Ho]. simpl in Hp, Ho.
      assert (Hin'' : In ev (filter has_error (map snd news))).
      { apply filter_In. split; [|exact Herr].
        change ev with (snd (o, ev)). now apply in_map. }
      rewrite Hnews, map_app, filter_app in Hin''.
      rewrite (blocks_success_no_error Hpre) in Hin''.
      rewrite (block_failure_one_error Hf), Hfalse in Hin''.
      simpl in Hin''. destruct Hin'' as [<-|[]].
      repeat split; auto.
    + intros _. exists stg. split; assumption.
    + intros e. rewrite Hrun. discriminate.
  - (* a stage is interrupted *)
    assert (Hrun := @run_interrupted pre stg post self e
                      Hsplit Hq Hpre Hraise He).
    assert (Hnews :
      news = flat_map block pre
             ++ (ByOrchestrator, starting (stage_step stg) (stage_name stg))
                :: map (pair ByStage) (reports (stage_func stg))).
    { unfold news, after. rewrite Hrun. cbn [snd].
      apply emitted_since_app.
      now rewrite emitted_stage_ended, emitted_after_stages, app_assoc. }
    split; [|split].
    + intros o ev Hin Herr. exfalso.
      assert (Hin' : In ev (filter has_error (map snd news))).
      { apply filter_In. split; [|exact Herr].
        change ev with (snd (o, ev)). now apply in_map. }
      rewrite Hnews, map_app, filter_app in Hin'.
      rewrite (blocks_success_no_error Hpre), opening_no_error in Hin'.
      exact Hin'.
    + rewrite Hrun. discriminate.
    + intros e'. rewrite Hrun. cbn [fst]. intros H. inversion H; subst.
      exact He.
Qed.

Lemma real_stages_fail_without_error_events_witness :
  let self := set_progress_callback
                (new Config.default_AppConfig Samples.offline) Demo.silent in
  steps self = installation_steps Samples.offline
  /\ returns_normally (progress_callback self)
  /\ fst (run_full_installation self) = Returned false
  /\ exists stg, In stg (steps self)
                 /\ outcome (stage_func stg) = Returned false.
Proof.
  intros self.
  assert (Hsteps : steps self = installation_steps Samples.offline)
    by reflexivity.
  assert (Hq : returns_normally (progress_callback self)).
  { simpl. reflexivity. }
  assert (Hrun : fst (run_full_installation self) = Returned false)
    by reflexivity.
  split; [exact Hsteps|]. split; [exact Hq|]. split; [exact Hrun|].
  exact (proj1 (proj2 (real_stages_fail_without_error_events
                         Samples.offline self Hsteps Hq)) Hrun).
Defined.

(** *** Every event carries the step and the name of its stage *)

Lemma grows_refl P self : grows P self self.
Proof. exists []. split; [now rewrite app_nil_r|constructor]. Qed.

Lemma grows_trans P a b c : grows P a b -> grows P b c -> grows P a c.
Proof.
  intros (evs & H1 & H2) (evs' & K1 & K2). exists (evs ++ evs'). split.
  - rewrite K1, H1. now rewrite app_assoc.
  - apply Forall_app. now split.
Qed.

Lemma report_progress_grows P o self s n p st d err :
  P (o, mkStepProgress s n p st d err) ->
  grows P self (snd (_report_progress o self s n p st d err)).
Proof.
  intros Hev. unfold _report_progress. simpl.
  exists [(o, mkStepProgress s n p st d err)].
  destruct (progress_callback self); simpl; split; auto.
Qed.

Lemma await_grows {R : Type} P s n (c : Coro R) : forall self,
  bound_to s n c ->
  (forall p st, P (ByStage, mkStepProgress s n p st None None)) ->
  grows P self (snd (await c self)).
Proof.
  induction c as [r|e|s' n' p st k IH]; intros self Hb HP; simpl;
    try apply grows_refl.
  destruct Hb as (-> & -> & Hb).
  destruct (_report_progress ByStage self s n p st None None)
    as [raised self'] eqn:E.
  apply grows_trans with self'; [|apply IH; auto].
  change self' with (snd (raised, self')). rewrite <- E.
  apply report_progress_grows, HP.
Qed.

Lemma inner_except_grows P s n e self :
  (forall ev, step ev = s -> name ev = n -> P (ByOrchestrator, ev)) ->
  grows P self (snd (inner_except s n e self)).
Proof.
  intros HP. unfold inner_except.
  destruct (is_Exception e); [|apply grows_refl].
  destruct (_report_progress ByOrchestrator self s n 0%Q "Error" None _)
    as [raised self'] eqn:E.
  assert (H : grows P self self').
  { change self' with (snd (raised, self')). rewrite <- E.
    apply report_progress_grows, HP; reflexivity. }
  destruct raised; exact H.
Qed.

Ltac grown P E H :=
  match type of E with
  | _report_progress ?o ?self ?s ?n ?p ?st ?d ?err = (?r, ?self') =>
      assert (H : grows P self self')
        by (change self' with (snd (r, self')); rewrite <- E;
            apply report_progress_grows; auto)
  | await ?c ?self = (?r, ?self') =>
      assert (H : grows P self self')
        by (change self' with (snd (r, self')); rewrite <- E;
            eapply await_grows; eauto)
  | inner_except ?s ?n ?e ?self = (?r, ?self') =>
      assert (H : grows P self self')
        by (change self' with (snd (r, self')); rewrite <- E;
            apply inner_except_grows; auto)
  end.

Lemma run_steps_grows P todo : forall self,
  (forall stg, In stg todo ->
     bound_to (stage_step stg) (stage_name stg) (stage_func stg)) ->
  (forall stg o ev, In stg todo ->
     step ev = stage_step stg -> name ev = stage_name stg -> P (o, ev)) ->
  grows P self (snd (run_steps todo self)).
Proof.
  induction todo as [|[[s n] func] todo IH]; intros self Hb HP.
  - apply grows_refl.
  - assert (Hhere : forall o ev, step ev = s -> name ev = n -> P (o, ev)).
    { intros o ev Hs Hn. apply (HP (s, n, func)); [now left|exact Hs|exact Hn]. }
    assert (Hbound : bound_to s n func) by (apply (Hb (s, n, func)); now left).
    assert (IH' : forall mid, grows P mid (snd (run_steps todo mid))).
    { intros mid. apply IH.
      - intros stg Hin. apply Hb. now right.
      - intros stg o ev Hin. apply HP. now right. }
    simpl run_steps.
    destruct (_report_progress ByOrchestrator (set_current_step self s) s n
                0%Q "Starting..." None None) as [raised self1] eqn:E1.
    grown P E1 G1.
    change (emitted (set_current_step self s)) with (emitted self) in G1.
    assert (T1 : grows P self self1) by exact G1.
    destruct raised as [e0|]; [exact T1|].
    destruct (await func (log_invoked self1 s)) as [success self2] eqn:E2.
    grown P E2 G2.
    assert (T2 : grows P self self2)
      by (apply grows_trans with self1; [exact T1|exact G2]).
    destruct success as [[|]|e].
    + destruct (_report_progress ByOrchestrator self2 s n 1%Q "Completed"
                  None None) as [raised self3] eqn:E3.
      grown P E3 G3.
      assert (T3 := grows_trans P _ _ _ T2 G3).
      destruct raised as [e3|].
      * destruct (inner_except s n e3 self3) as [r self4] eqn:E4.
        grown P E4 G4. simpl. exact (grows_trans P _ _ _ T3 G4).
      * exact (grows_trans P _ _ _ T3 (IH' self3)).
    + destruct (_report_progress ByOrchestrator self2 s n 0%Q "Failed"
                  None _) as [raised self3] eqn:E3.
      grown P E3 G3.
      assert (T3 := grows_trans P _ _ _ T2 G3).
      destruct raised as [e3|].
      * destruct (inner_except s n e3 self3) as [r self4] eqn:E4.
        grown P E4 G4. simpl. exact (grows_trans P _ _ _ T3 G4).
      * exact T3.
    + destruct (inner_except s n e self2) as [r self4] eqn:E4.
      grown P E4 G4. simpl. exact (grows_trans P _ _ _ T2 G4).
Qed.

Lemma bound_except_return_False s n (body : Coro bool) :
  bound_to s n body -> bound_to s n (except_return_False body).
Proof.
  induction body as [b|e|s' n' p st k IH]; simpl.
  - trivial.
  - intros _. destruct (is_Exception e); exact I.
  - intros (Hs & Hn & Hk). repeat split; auto.
Qed.

Lemma bound_with_progress_callback {R : Type} s n (w : Work R) :
  bound_to s n (with_progress_callback s n w).
Proof.
  induction w as [r|e|p st k IH]; simpl; auto.
Qed.

Lemma bound_report_then {R : Type} s n p st (next : Coro R) :
  bound_to s n next -> bound_to s n (report_then s n p st next).
Proof.
  intros H. simpl. repeat split. intros [e|]; simpl; auto.
Qed.

Lemma bound_unless_return_False s n op (next : Coro bool) :
  bound_to s n next -> bound_to s n (unless_return_False op next).
Proof. intros H. destruct op as [[|]|e]; simpl; auto. Qed.

Lemma installation_steps_bound m stg :
  In stg (installation_steps m) ->
  bound_to (stage_step stg) (stage_name stg) (stage_func stg).
Proof.
  unfold installation_steps. simpl.
  intros [<-|[<-|[<-|[<-|[<-|[<-|[<-|[<-|[<-|[<-|[]]]]]]]]]]];
    unfold stage_step, stage_name, stage_func; cbn [fst snd];
    apply bound_except_return_False;
    try apply bound_with_progress_callback.
  repeat (first [ apply bound_report_then
                | apply bound_unless_return_False ]).
  exact I.
Qed.

Lemma segmented_nil stgs : segmented stgs [].
Proof. destruct stgs; simpl; [reflexivity|now left]. Qed.

Lemma report_progress_emitted o self s n p st d err :
  emitted (snd (_report_progress o self s n p st d err))
  = emitted self ++ [(o, mkStepProgress s n p st d err)].
Proof.
  unfold _report_progress. simpl.
  destruct (progress_callback self); reflexivity.
Qed.

Lemma run_steps_segmented todo : forall self,
  (forall stg, In stg todo ->
     bound_to (stage_step stg) (stage_name stg) (stage_func stg)) ->
  exists evs,
    emitted (snd (run_steps todo self)) = emitted self ++ evs
    /\ segmented todo evs.
Proof.
  induction todo as [|[[s n] func] todo IH]; intros self Hb.
  - exists []. split; [now rewrite app_nil_r|reflexivity].
  - set (P := fun x : Origin * StepProgress =>
                step (snd x) = s /\ name (snd x) = n).
    assert (Hbound : bound_to s n func) by (apply (Hb (s, n, func)); now left).
    assert (IH' : forall mid,
              exists evs,
                emitted (snd (run_steps todo mid)) = emitted mid ++ evs
                /\ segmented todo evs).
    { intros mid. apply IH. intros stg Hin. apply Hb. now right. }
    assert (Hstop : forall final,
              grows P (snd (_report_progress ByOrchestrator
                              (set_current_step self s) s n 0%Q
                              "Starting..." None None)) final ->
              exists evs,
                emitted final = emitted self ++ evs
                /\ segmented ((s, n, func) :: todo) evs).
    { intros final (more & Hmore & Hall).
      rewrite report_progress_emitted in Hmore.
      change (emitted (set_current_step self s)) with (emitted self)
        in Hmore.
      exists (((ByOrchestrator, starting s n) :: more) ++ []). split.
      - rewrite Hmore, app_nil_r, <- app_assoc. reflexivity.
      - right. exists more, []. split; [reflexivity|].
        split; [exact Hall|apply segmented_nil]. }
    assert (Hgo : forall mid,
              grows P (snd (_report_progress ByOrchestrator
                              (set_current_step self s) s n 0%Q
                              "Starting..." None None)) mid ->
              exists evs,
                emitted (snd (run_steps todo mid)) = emitted self ++ evs
                /\ segmented ((s, n, func) :: todo) evs).
    { intros mid (more & Hmore & Hall).
      rewrite report_progress_emitted in Hmore.
      change (emitted (set_current_step self s)) with (emitted self)
        in Hmore.
      destruct (IH' mid) as (later & Hlater & Hseg).
      exists (((ByOrchestrator, starting s n) :: more) ++ later). split.
      - rewrite Hlater, Hmore, <- !app_assoc. reflexivity.
      - right. exists more, later. split; [reflexivity|].
        split; [exact Hall|exact Hseg]. }
    simpl run_steps.
    destruct (_report_progress ByOrchestrator (set_current_step self s) s n
                0%Q "Starting..." None None) as [raised self1] eqn:E1.
    cbn [snd] in Hstop, Hgo.
    destruct raised as [e0|]; [apply Hstop, grows_refl|].
    destruct (await func (log_invoked self1 s)) as [success self2] eqn:E2.
    assert (T2 : grows P self1 self2).
    { change self2 with (snd (success, self2)). rewrite <- E2.
      change (grows P (log_invoked self1 s)
                (snd (await func (log_invoked self1 s)))).
      apply await_grows with (s := s) (n := n); [exact Hbound|].
      intros p st. split; reflexivity. }
    assert (HP : forall ev, step ev = s -> name ev = n ->
                            P (ByOrchestrator, ev)).
    { intros ev Hs Hn. split; assumption. }
    destruct success as [[|]|e].
    + destruct (_report_progress ByOrchestrator self2 s n 1%Q "Completed"
                  None None) as [raised self3] eqn:E3.
      grown P E3 G3.
      assert (T3 := grows_trans P _ _ _ T2 G3).
      destruct raised as [e3|].
      * destruct (inner_except s n e3 self3) as [r self4] eqn:E4.
        grown P E4 G4. simpl. apply Hstop.
        exact (grows_trans P _ _ _ T3 G4).
      * apply Hgo. exact T3.
    + destruct (_report_progress ByOrchestrator self2 s n 0%Q "Failed"
                  None _) as [raised self3] eqn:E3.
      grown P E3 G3.
      assert (T3 := grows_trans P _ _ _ T2 G3).
      destruct raised as [e3|].
      * destruct (inner_except s n e3 self3) as [r self4] eqn:E4.
        grown P E4 G4. simpl. apply Hstop.
        exact (grows_trans P _ _ _ T3 G4).
      * simpl. apply Hstop. exact T3.
    + destruct (inner_except s n e self2) as [r self4] eqn:E4.
      grown P E4 G4. simpl. apply Hstop.
      exact (grows_trans P _ _ _ T2 G4).
Qed.

(** X3.  In a run of the ten stages of the source, whatever the managers
    and the progress callback do, the emitted events fall into one
    segment per stage, in the order of the stage table: the segment of a
    stage begins with the orchestrator's "Starting..." event for it, and
    every event in it, the orchestrator's own and those the stage
    coroutine reports alike, carries the step and the name of that stage;
    the stages that were not reached have no events.  So no stage reports
    under the step or the name of another one, and every event carries
    the step and the name of an entry of [get_all_steps]. *)
Theorem real_stage_events_are_tagged
  (m : Managers) (self : InstallationManager) :
  steps self = installation_steps m ->
  segmented (installation_steps m)
            (emitted_since self (snd (run_full_installation self)))
  /\ Forall (tagged (get_all_steps self))
            (emitted_since self (snd (run_full_installation self))).
Proof.
  intros Hsteps.
  assert (Hsame : emitted (snd (run_full_installation self))
                  = emitted (snd (run_steps (steps self) self))).
  { unfold run_full_installation.
    destruct (run_steps (steps self) self) as [[b|e] after]; simpl;
      [reflexivity|]. destruct (is_Exception e); reflexivity. }
  split.
  - destruct (run_steps_segmented (steps self) self) as (evs & Hevs & Hseg).
    { intros stg Hin. rewrite Hsteps in Hin.
      exact (installation_steps_bound m stg Hin). }
    rewrite <- Hsame in Hevs.
    rewrite (@emitted_since_app _ _ _ Hevs). now rewrite <- Hsteps.
  - assert (Hgrows :
      grows (tagged (get_all_steps self)) self
            (snd (run_steps (steps self) self))).
    { apply run_steps_grows.
      - intros stg Hin. rewrite Hsteps in Hin.
        exact (installation_steps_bound m stg Hin).
      - intros [[s n] func] o ev Hin Hs Hn.
        unfold stage_step, stage_name in Hs, Hn. cbn [fst snd] in Hs, Hn.
        unfold tagged, get_all_steps. cbn [fst snd]. rewrite Hs, Hn.
        apply in_map_iff. exists (s, n, func).
        split; [reflexivity|exact Hin]. }
    destruct Hgrows as (evs & Hevs & Hall).
    rewrite <- Hsame in Hevs.
    now rewrite (@emitted_since_app _ _ _ Hevs).
Qed.

Lemma real_stage_events_are_tagged_witness :
  let self := set_progress_callback
                (new Config.default_AppConfig Samples.offline)
                Demo.raises_on_failed in
  steps self = installation_steps Samples.offline
  /\ segmented (installation_steps Samples.offline)
               (emitted_since self (snd (run_full_installation self)))
  /\ map (fun x => (fst x, step (snd x), status (snd x)))
         (emitted_since self (snd (run_full_installation self)))
     = [ (ByOrchestrator, DISK_SETUP, "Starting..."%string);
         (ByStage, DISK_SETUP, "Creating partition table..."%string);
         (ByStage, DISK_SETUP, "Creating partitions..."%string);
         (ByStage, DISK_SETUP, "Formatting filesystems..."%string);
         (ByStage, DISK_SETUP, "Mounting filesystems..."%string);
         (ByOrchestrator, DISK_SETUP, "Completed"%string);
         (ByOrchestrator, STAGE3_DOWNLOAD, "Starting..."%string);
         (ByStage, STAGE3_DOWNLOAD, "Connecting..."%string);
         (ByOrchestrator, STAGE3_DOWNLOAD, "Failed"%string);
         (ByOrchestrator, STAGE3_DOWNLOAD, "Error"%string) ].
Proof.
  intros self.
  assert (Hsteps : steps self = installation_steps Samples.offline)
    by reflexivity.
  split; [exact Hsteps|]. split; [|reflexivity].
  exact (proj1 (real_stage_events_are_tagged Samples.offline self Hsteps)).
Defined.

(** X4.  [run_full_installation] changes neither the configuration, nor
    the registered callback, nor the stage table: whatever the stages and
    the callback do, [get_all_steps] answers after the run what it
    answered before, and what had been emitted and awaited before the
    run is still the beginning of the two records. *)
Theorem run_keeps_the_manager (self : InstallationManager) :
  let after := snd (run_full_installation self) in
  config after = config self
  /\ progress_callback after = progress_callback self
  /\ steps after = steps self
  /\ get_all_steps after = get_all_steps self
  /\ emitted after = emitted self ++ emitted_since self after
  /\ invoked after = invoked self ++ invoked_since self after.
Proof.
  intros after.
  destruct (run_full_installation_progress self)
    as (H1 & H2 & H3 & (evs & Hevs & _) & (ens & Hens & _) & _).
  unfold after. repeat split; try assumption.
  - unfold get_all_steps. now rewrite H3.
  - now rewrite (@emitted_since_app _ _ _ Hevs).
  - now rewrite (@invoked_since_app _ _ _ Hens).
Qed.

(** *** Running twice *)

Lemma steps_stage_ended self stg : steps (stage_ended self stg) = steps self.
Proof. destruct stg as [[s n] func]. reflexivity. Qed.

(** The three shapes of a run under a callback that returns, and what
    each leaves in the two records. *)
Lemma quiet_run_summary self :
  returns_normally (progress_callback self) ->
  exists r evs ens,
    (forall mid,
       steps mid = steps self ->
       returns_normally (progress_callback mid) ->
       fst (run_full_installation mid) = r
       /\ emitted (snd (run_full_installation mid)) = emitted mid ++ evs
       /\ invoked (snd (run_full_installation mid)) = invoked mid ++ ens
       /\ steps (snd (run_full_installation mid)) = steps self
       /\ progress_callback (snd (run_full_installation mid))
          = progress_callback mid).
Proof.
  intros Hq.
  destruct (first_non_success (steps self))
    as [Hall|(pre & stg & post & Hsplit & Hpre & [Hf|(e & Hraise & He)])].
  - exists (Returned true), (flat_map block (steps self)),
           (map launch (steps self)).
    intros mid Hsteps Hqm. rewrite <- Hsteps in Hall.
    rewrite (run_all_succeed mid Hqm Hall). cbn [fst snd].
    rewrite emitted_after_stages, invoked_after_stages, steps_after_stages,
            after_stages_callback, Hsteps.
    repeat split.
  - exists (Returned false), (flat_map block (pre ++ [stg])),
           (map launch (pre ++ [stg])).
    intros mid Hsteps Hqm. rewrite <- Hsteps in Hsplit.
    rewrite (@run_fail_fast pre stg post mid Hsplit Hqm Hpre Hf).
    cbn [fst snd].
    rewrite emitted_after_stages, invoked_after_stages, steps_after_stages,
            after_stages_callback, Hsteps.
    repeat split.
  - exists (Raised e),
           (flat_map block pre
            ++ (ByOrchestrator, starting (stage_step stg) (stage_name stg))
               :: map (pair ByStage) (reports (stage_func stg))),
           (map launch (pre ++ [stg])).
    intros mid Hsteps Hqm. rewrite <- Hsteps in Hsplit.
    rewrite (@run_interrupted pre stg post mid e Hsplit Hqm Hpre Hraise He).
    cbn [fst snd].
    rewrite emitted_stage_ended, invoked_stage_ended, steps_stage_ended,
            stage_ended_callback, emitted_after_stages, invoked_after_stages,
            steps_after_stages, after_stages_callback, Hsteps, map_app.
    rewrite <- !app_assoc. repeat split.
Qed.

(** X5.  The orchestrator keeps no memory of what succeeded: under a
    callback that returns from every call, calling
    [run_full_installation] again on the manager a first run has left
    starts again at the first stage, awaits the same stages in the same
    order, emits the same events and gives the same result, the stage
    coroutines behaving as they did the first time.  A stage that had
    succeeded is run again; a run that failed is not resumed. *)
Theorem second_run_starts_over (self : InstallationManager) :
  returns_normally (progress_callback self) ->
  let first := run_full_installation self in
  let second := run_full_installation (snd first) in
  fst second = fst first
  /\ invoked_since (snd first) (snd second) = invoked_since self (snd first)
  /\ emitted_since (snd first) (snd second) = emitted_since self (snd first).
Proof.
  intros Hq first second.
  destruct (quiet_run_summary self Hq) as (r & evs & ens & Hsum).
  destruct (Hsum self eq_refl Hq) as (R1 & E1 & I1 & S1 & C1).
  fold first in R1, E1, I1, S1, C1.
  assert (Hq1 : returns_normally (progress_callback (snd first)))
    by (rewrite C1; exact Hq).
  destruct (Hsum (snd first) S1 Hq1) as (R2 & E2 & I2 & _ & _).
  fold second in R2, E2, I2.
  split; [congruence|].
  rewrite (@invoked_since_app _ _ _ I1), (@invoked_since_app _ _ _ I2).
  rewrite (@emitted_since_app _ _ _ E1), (@emitted_since_app _ _ _ E2).
  split; reflexivity.
Qed.

Lemma second_run_starts_over_witness :
  let self := Demo.manager (Some Demo.silent)
                [Demo.stage_A; Demo.stage_B; Demo.stage_C] in
  let first := run_full_installation self in
  let second := run_full_installation (snd first) in
  returns_normally (progress_callback self)
  /\ fst second = fst first
  /\ invoked_since (snd first) (snd second)
     = [ (DISK_SETUP, Some DISK_SETUP);
         (STAGE3_DOWNLOAD, Some STAGE3_DOWNLOAD) ].
Proof.
  intros self first second.
  assert (Hq : returns_normally (progress_callback self)).
  { simpl. reflexivity. }
  split; [exact Hq|].
  destruct (second_run_starts_over self Hq) as (H1 & H2 & _).
  split; [exact H1|]. fold first second in H2. rewrite H2. reflexivity.
Defined.

(** *** run_disk_setup *)


(* ===================================================================== *)
(** ** The screens and the step index                                     *)
(* ===================================================================== *)

Import Screens.

Lemma on_mount_in_step cfg : in_step (on_mount (App.new cfg)).
Proof. exists WelcomeScreen. vm_compute. repeat split. Qed.

Ltac in_step_cases self :=
  destruct self as [[cur tot act dry stp prog ctr] content status];
  cbn [app content_area status_text App.current_step App.total_steps
       App.installation_active App.dry_run_mode App.steps
       App.main_progress App.step_counter] in *;
  subst.

Lemma call_in_step self h :
  in_step self -> in_turn self h -> in_step (call self h).
Proof.
  intros (screen & Hc & Hcur & Hprog & Hctr & Htot & Hact & Hsteps) Hturn.
  unfold in_turn in Hturn. rewrite Hc in Hturn.
  in_step_cases self.
  destruct screen, h; try discriminate Hturn;
    eexists; vm_compute; repeat split.
Qed.

Lemma calls_in_step hs : forall self,
  in_step self -> each_in_turn self hs -> in_step (calls self hs).
Proof.
  induction hs as [|h hs IH]; intros self Hin Hturn; [exact Hin|].
  destruct Hturn as [Hh Hrest]. unfold calls. simpl.
  fold (calls (call self h) hs).
  apply IH; [now apply call_in_step|exact Hrest].
Qed.

(** X7.  As long as every handler is called in turn, that is by the
    screen that is mounted and that was given it, the step index is the
    position of the screen that is shown (Welcome 0, Disk Setup 1,
    Stage3 2, Configuration 3, Kernel 4, Bootloader 5, Finalization 6),
    the progress bar stands at the index, the step counter reads
    "Step index+1/7", the total stays 7 and [installation_active] stays
    False: nothing ever sets it.  The application itself does not enforce
    the condition: its handlers are unguarded, and one call out of turn
    breaks the correspondence ([on_back_to_kernel] called on the Welcome
    screen shows the Kernel screen at index 0). *)
Theorem screen_and_step_stay_in_step (cfg : Config.AppConfig) :
  (forall hs,
      each_in_turn (on_mount (App.new cfg)) hs ->
      let ui := calls (on_mount (App.new cfg)) hs in
      exists screen,
        content_area ui = Some screen
        /\ App.current_step (app ui) = position screen
        /\ App.main_progress (app ui) = position screen
        /\ App.step_counter (app ui)
           = App.step_counter_text (position screen) 7
        /\ App.total_steps (app ui) = 7
        /\ App.installation_active (app ui) = false
        /\ current_step_name (app ui)
           = nth_error [ "Welcome"; "Disk Setup"; "Stage3"; "Configuration";
                         "Kernel"; "Bootloader"; "Finalization" ]%string
                       (Z.to_nat (position screen)))
  /\ (let ui := call (on_mount (App.new cfg)) back_to_kernel in
      content_area ui = Some KernelScreen
      /\ App.current_step (app ui) = 0
      /\ position KernelScreen = 4).
Proof.
  split; [|repeat split].
  intros hs Hturn ui.
  destruct (calls_in_step hs _ (on_mount_in_step cfg) Hturn)
    as (screen & Hc & Hcur & Hprog & Hctr & Htot & Hact & Hsteps).
  fold ui in Hc, Hcur, Hprog, Hctr, Htot, Hact, Hsteps.
  exists screen. repeat split; try assumption; try congruence.
  unfold current_step_name. rewrite Hsteps, Hcur.
  destruct screen; reflexivity.
Qed.

Lemma screen_and_step_stay_in_step_witness :
  let hs := [welcome_continue; disk_setup_continue; back_to_disk_setup;
             disk_setup_continue; stage3_continue] in
  let ui := calls (on_mount (App.new Config.default_AppConfig)) hs in
  each_in_turn (on_mount (App.new Config.default_AppConfig)) hs
  /\ content_area ui = Some ConfigurationScreen
  /\ exists screen,
       content_area ui = Some screen
       /\ App.current_step (app ui) = position screen.
Proof.
  intros hs ui.
  assert (Hturn : each_in_turn
                    (on_mount (App.new Config.default_AppConfig)) hs).
  { vm_compute. repeat split. }
  split; [exact Hturn|]. split; [reflexivity|].
  destruct (proj1 (screen_and_step_stay_in_step Config.default_AppConfig)
              hs Hturn) as (screen & Hc & Hcur & _).
  exists screen. split; assumption.
Defined.

(** X8.  In every state in step.  The handler given as "continue" (there
    is one on every screen but the last) moves the index up by exactly
    one, and the handler given as "back" (there is one on the screens
    between the first and the last) moves it down by exactly one: called
    in turn, [advance_step] and [previous_step] are never at their
    clamps.  The status text then begins with the display name of the new
    current step.  Going on and coming back by the "back" of the next
    screen restores the attributes, the widgets and the screen; the
    Finalization screen is given no "back" and no "continue", only
    "finish", which moves nothing. *)
Theorem continue_and_back_move_one_step (self : Mounted) (screen : Screen) :
  in_step self ->
  content_area self = Some screen ->
  (forall h,
      on_continue screen = Some h ->
      let next := call self h in
      in_turn self h
      /\ App.current_step (app next) = App.current_step (app self) + 1
      /\ (exists name,
            current_step_name (app next) = Some name
            /\ prefix (name ++ " - ") (status_text next) = true)
      /\ (forall shown hb,
            content_area next = Some shown ->
            on_back shown = Some hb ->
            app (call next hb) = app self
            /\ content_area (call next hb) = content_area self))
  /\ (forall h,
        on_back screen = Some h ->
        let previous := call self h in
        in_turn self h
        /\ App.current_step (app previous) = App.current_step (app self) - 1
        /\ exists name,
             current_step_name (app previous) = Some name
             /\ prefix (name ++ " - ") (status_text previous) = true)
  /\ (forall h,
        on_finish screen = Some h ->
        in_turn self h
        /\ App.current_step (app (call self h))
           = App.current_step (app self)
        /\ content_area (call self h) = content_area self)
  /\ (on_continue screen = None <-> screen = FinalizationScreen)
  /\ (on_back screen = None
      <-> screen = WelcomeScreen \/ screen = FinalizationScreen)
  /\ (on_finish screen = None <-> screen <> FinalizationScreen)
  /\ (forall h,
        given screen h = true
        <-> on_continue screen = Some h \/ on_back screen = Some h
            \/ on_finish screen = Some h
            \/ (screen = WelcomeScreen
                /\ exists config_path, h = load_config config_path)).
Proof.
  intros (screen' & Hc & Hcur & Hprog & Hctr & Htot & Hact & Hsteps) Hshown.
  rewrite Hshown in Hc. inversion Hc; subst screen'. clear Hc.
  unfold in_turn. rewrite Hshown.
  in_step_cases self.
  split; [|split; [|split; [|split; [|split; [|split]]]]].
  - intros h Hh.
    destruct screen; inversion Hh; subst h; clear Hh;
      (split; [reflexivity|]);
      (split; [vm_compute; reflexivity|]);
      (split; [eexists; split; vm_compute; reflexivity|]);
      intros shown hb Hs Hb; inversion Hs; subst shown;
      inversion Hb; subst hb; split; vm_compute; reflexivity.
  - intros h Hh.
    destruct screen; inversion Hh; subst h; clear Hh;
      (split; [reflexivity|]);
      (split; [vm_compute; reflexivity|]);
      eexists; split; vm_compute; reflexivity.
  - intros h Hh.
    destruct screen; inversion Hh; subst h; clear Hh.
    repeat split.
  - destruct screen; split; intros H; try discriminate H; reflexivity.
  - destruct screen; split; intros H; try discriminate H; auto;
      destruct H as [H|H]; discriminate H.
  - destruct screen; split; intros H; try discriminate H;
      try reflexivity; try (intros H'; discriminate H'); now elim H.
  - intros h. destruct screen, h; simpl; split; intros H;
      try discriminate H; try reflexivity; auto;
      try (right; right; right; split; [reflexivity|eexists; reflexivity]);
      destruct H as [H|[H|[H|(H & p & Hp)]]]; discriminate.
Qed.

Lemma continue_and_back_move_one_step_witness :
  let self := calls (on_mount (App.new Config.default_AppConfig))
                [welcome_continue; disk_setup_continue; back_to_disk_setup;
                 disk_setup_continue] in
  in_step self
  /\ content_area self = Some Stage3Screen
  /\ App.current_step (app (call self stage3_continue))
     = App.current_step (app self) + 1.
Proof.
  intros self.
  assert (Hin : in_step self).
  { exists Stage3Screen. vm_compute. repeat split. }
  assert (Hc : content_area self = Some Stage3Screen) by reflexivity.
  split; [exact Hin|]. split; [exact Hc|].
  exact (proj1 (proj2 (proj1
           (continue_and_back_move_one_step self Stage3Screen Hin Hc)
           stage3_continue eq_refl))).
Defined.

(** X9.  Once the Finalization screen is shown, calls made in turn leave
    it mounted with the index at 6: the screen was given "finish" only,
    whose only effect is to rewrite the status text.  The application
    does not enforce this either: [on_back_to_kernel], called out of
    turn, takes the Finalization screen down and shows the Kernel
    screen at index 5. *)
Theorem finalization_cannot_be_left (self : Mounted) (hs : list Handler) :
  in_step self ->
  content_area self = Some FinalizationScreen ->
  (each_in_turn self hs ->
   content_area (calls self hs) = Some FinalizationScreen
   /\ App.current_step (app (calls self hs)) = 6
   /\ app (calls self hs) = app self
   /\ (status_text (calls self hs) = status_text self
       \/ status_text (calls self hs)
          = "Installation completed successfully!"%string))
  /\ (forall h, in_turn self h <-> h = installation_complete)
  /\ (content_area (call self back_to_kernel) = Some KernelScreen
      /\ App.current_step (app (call self back_to_kernel)) = 5).
Proof.
  intros Hin Hc. split; [|split].
  - revert self Hin Hc. induction hs as [|h hs IH];
      intros self Hin Hc Hturn.
    + destruct Hin as (screen & Hc' & Hcur & _). rewrite Hc in Hc'.
      inversion Hc'; subst. repeat split; auto.
    + destruct Hturn as [Hh Hrest]. unfold calls. simpl.
      fold (calls (call self h) hs).
      assert (Hin' := call_in_step self h Hin Hh).
      assert (Hstay : content_area (call self h) = Some FinalizationScreen
                      /\ app (call self h) = app self
                      /\ status_text (call self h)
                         = "Installation completed successfully!"%string).
      { destruct Hin
          as (screen & Hc' & Hcur & Hprog & Hctr & Htot & Hact & Hst).
        rewrite Hc in Hc'. inversion Hc'; subst screen.
        unfold in_turn in Hh. rewrite Hc in Hh.
        destruct h; try discriminate Hh.
        destruct self as [[cur tot act dry stp prog ctr] content status].
        simpl in *. subst. repeat split. }
      destruct Hstay as (Hc1 & Happ & Hst).
      destruct (IH (call self h) Hin' Hc1 Hrest) as (K1 & K2 & K3 & K4).
      repeat split; auto; [congruence|].
      right. destruct K4 as [K4|K4]; congruence.
  - intros h. unfold in_turn. rewrite Hc.
    destruct h; simpl; split; intros H; try discriminate H; reflexivity.
  - destruct Hin as (screen & Hc' & Hcur & Hprog & Hctr & Htot & Hact & Hst).
    rewrite Hc in Hc'. inversion Hc'; subst screen.
    in_step_cases self. split; vm_compute; reflexivity.
Qed.

Lemma finalization_cannot_be_left_witness :
  let self := calls (on_mount (App.new Config.default_AppConfig))
                [welcome_continue; disk_setup_continue; stage3_continue;
                 configuration_continue; kernel_continue;
                 bootloader_continue] in
  in_step self
  /\ content_area self = Some FinalizationScreen
  /\ each_in_turn self [installation_complete; installation_complete]
  /\ content_area
       (calls self [installation_complete; installation_complete])
     = Some FinalizationScreen
  /\ content_area (call self back_to_kernel) = Some KernelScreen.
Proof.
  intros self.
  assert (Hin : in_step self).
  { exists FinalizationScreen. vm_compute. repeat split. }
  assert (Hc : content_area self = Some FinalizationScreen) by reflexivity.
  assert (Hturn : each_in_turn self
                    [installation_complete; installation_complete]).
  { vm_compute. repeat split. }
  split; [exact Hin|]. split; [exact Hc|]. split; [exact Hturn|].
  split.
  - exact (proj1 (proj1 (finalization_cannot_be_left self
                           [installation_complete; installation_complete]
                           Hin Hc) Hturn)).
  - exact (proj1 (proj2 (proj2 (finalization_cannot_be_left self
                                  [] Hin Hc)))).
Defined.

(* ===================================================================== *)
(** ** Mounts and mount points                                            *)
(* ===================================================================== *)

Lemma get_mount_point_loop_first pre p post path :
  (forall q, In q pre -> (Mounts.device q =? path)%string = false) ->
  (Mounts.device p =? path)%string = true ->
  Mounts.get_mount_point_loop (pre ++ p :: post) path
  = Some (Mounts.mountpoint p).
Proof.
  induction pre as [|q pre IH]; intros Hpre Hp; simpl.
  - now rewrite Hp.
  - rewrite (Hpre q) by now left. apply IH; [|exact Hp].
    intros q' Hq'. apply Hpre. now right.
Qed.

Lemma is_mounted_loop_iff partitions path :
  Mounts.is_mounted_loop partitions path = true
  <-> exists mp, Mounts.get_mount_point_loop partitions path = Some mp.
Proof.
  induction partitions as [|p ps IH]; simpl.
  - split; [discriminate|intros [mp H]; discriminate].
  - destruct (Mounts.device p =? path)%string; [|exact IH].
    split; [intros _; now exists (Mounts.mountpoint p)|reflexivity].
Qed.

Lemma get_mount_point_loop_none partitions path :
  Mounts.get_mount_point_loop partitions path = None
  <-> forall q, In q partitions -> (Mounts.device q =? path)%string = false.
Proof.
  induction partitions as [|p ps IH]; simpl.
  - split; [intros _ q []|reflexivity].
  - destruct (Mounts.device p =? path)%string eqn:E.
    + split; [discriminate|]. intros H. specialize (H p (or_introl eq_refl)).
      congruence.
    + rewrite IH. split.
      * intros H q [<-|Hq]; [exact E|now apply H].
      * intros H q Hq. apply H. now right.
Qed.

(** X10.  [is_mounted] and [get_mount_point] agree: on every host,
    [is_mounted] returns True exactly when [get_mount_point] returns a
    mount point, and both raise in the same cases (never an instance of
    [Exception]: when listing the partitions fails they answer False and
    None).  [get_mount_point] answers the mount point of the first listed
    partition whose device is the given path (a device mounted in several
    places has only its first mount point reported) and None when no
    listed partition has that device. *)
Theorem is_mounted_agrees_with_get_mount_point
  (h : Mounts.Host) (path : string) :
  (Mounts.is_mounted h path = Returned true
   <-> exists mp, Mounts.get_mount_point h path = Returned (Some mp))
  /\ (forall e, Mounts.is_mounted h path = Raised e
                <-> Mounts.get_mount_point h path = Raised e)
  /\ only_interrupts (Mounts.is_mounted h path)
  /\ (forall e, Mounts.disk_partitions h = Raised e -> is_Exception e = true ->
                Mounts.is_mounted h path = Returned false
                /\ Mounts.get_mount_point h path = Returned None)
  /\ (forall pre p post,
        Mounts.disk_partitions h = Returned (pre ++ p :: post) ->
        (forall q, In q pre -> (Mounts.device q =? path)%string = false) ->
        (Mounts.device p =? path)%string = true ->
        Mounts.get_mount_point h path = Returned (Some (Mounts.mountpoint p)))
  /\ (forall partitions,
        Mounts.disk_partitions h = Returned partitions ->
        (Mounts.get_mount_point h path = Returned None
         <-> forall q, In q partitions ->
                       (Mounts.device q =? path)%string = false)).
Proof.
  unfold Mounts.is_mounted, Mounts.get_mount_point, Mounts.except_return.
  destruct (Mounts.disk_partitions h) as [ps|e0] eqn:Hp.
  - split; [|split; [|split; [|split; [|split]]]].
    + split.
      * intros K. inversion K as [K']. apply is_mounted_loop_iff in K'.
        destruct K' as [mp ->]. now exists mp.
      * intros [mp K]. inversion K as [K']. f_equal.
        apply is_mounted_loop_iff. now exists mp.
    + intros e. split; discriminate.
    + exact I.
    + intros e K. discriminate.
    + intros pre p post K Hpre Hdev. inversion K; subst. f_equal.
      now apply get_mount_point_loop_first.
    + intros partitions K. inversion K; subst. split.
      * intros K' q Hq. inversion K' as [K''].
        exact (proj1 (get_mount_point_loop_none _ _) K'' q Hq).
      * intros K'. f_equal. now apply get_mount_point_loop_none.
  - destruct (is_Exception e0) eqn:He.
    + split; [|split; [|split; [|split; [|split]]]].
      * split; [discriminate|intros [mp K]; discriminate].
      * intros e. split; discriminate.
      * exact I.
      * intros e _ _. split; reflexivity.
      * intros pre p post K. discriminate.
      * intros partitions K. discriminate.
    + split; [|split; [|split; [|split; [|split]]]].
      * split; [discriminate|intros [mp K]; discriminate].
      * intros e. split; intros K; inversion K; reflexivity.
      * exact He.
      * intros e K. inversion K; subst. congruence.
      * intros pre p post K. discriminate.
      * intros partitions K. discriminate.
Qed.

Lemma is_mounted_agrees_with_get_mount_point_witness :
  let root := Mounts.mkPartition "/dev/sda2" "/" "ext4" in
  let boot := Mounts.mkPartition "/dev/sda1" "/boot" "vfat" in
  let bind := Mounts.mkPartition "/dev/sda1" "/mnt/boot" "vfat" in
  let h := Mounts.mkHost (Returned ([root] ++ boot :: [bind]))
             (fun _ => true) (fun _ => true) (fun _ => Returned [])
             (fun _ _ => None) in
  Mounts.disk_partitions h = Returned ([root] ++ boot :: [bind])
  /\ (forall q, In q [root] -> (Mounts.device q =? "/dev/sda1")%string = false)
  /\ (Mounts.device boot =? "/dev/sda1")%string = true
  /\ Mounts.get_mount_point h "/dev/sda1" = Returned (Some "/boot"%string).
Proof.
  intros root boot bind h.
  assert (Hp : Mounts.disk_partitions h = Returned ([root] ++ boot :: [bind]))
    by reflexivity.
  assert (Hpre : forall q, In q [root] ->
                           (Mounts.device q =? "/dev/sda1")%string = false).
  { intros q [<-|[]]. reflexivity. }
  assert (Hdev : (Mounts.device boot =? "/dev/sda1")%string = true)
    by reflexivity.
  split; [exact Hp|]. split; [exact Hpre|]. split; [exact Hdev|].
  exact (proj1 (proj2 (proj2 (proj2 (proj2
           (is_mounted_agrees_with_get_mount_point h "/dev/sda1")))))
           [root] boot [bind] Hp Hpre Hdev).
Defined.

(** X11.  [ensure_mount_point] never raises an instance of [Exception].
    When listing the partitions does not raise, it returns True in
    exactly three cases: the path does not exist and [mkdir] succeeds;
    the path is a directory that [is_mounted] reports; the path is a
    directory without entries.  [is_mounted] compares the path with the
    device of each partition, not with its mount point: a directory that
    has entries is refused unless its own path is listed as a device, and
    an existing path that is no directory is always refused. *)
Theorem ensure_mount_point_cases (h : Mounts.Host) (path : string) :
  only_interrupts (Mounts.ensure_mount_point h path)
  /\ (forall partitions,
        Mounts.disk_partitions h = Returned partitions ->
        (Mounts.ensure_mount_point h path = Returned true
         <-> (Mounts.exists_ h path = false
              /\ Mounts.mkdir h path 493 = None)
             \/ (Mounts.exists_ h path = true /\ Mounts.is_dir h path = true
                 /\ (Mounts.is_mounted_loop partitions path = true
                     \/ Mounts.iterdir h path = Returned []))))
  /\ (forall partitions entry entries,
        Mounts.disk_partitions h = Returned partitions ->
        Mounts.exists_ h path = true ->
        Mounts.is_dir h path = true ->
        Mounts.iterdir h path = Returned (entry :: entries) ->
        (forall q, In q partitions ->
                   (Mounts.device q =? path)%string = false) ->
        Mounts.ensure_mount_point h path = Returned false)
  /\ (Mounts.exists_ h path = true -> Mounts.is_dir h path = false ->
      Mounts.ensure_mount_point h path = Returned false).
Proof.
  unfold Mounts.ensure_mount_point, Mounts.create_directory,
    Mounts.is_mounted, Mounts.except_return.
  split; [|split; [|split]].
  - destruct (Mounts.exists_ h path); [destruct (Mounts.is_dir h path)|].
    + destruct (Mounts.disk_partitions h) as [ps|e]; simpl.
      * destruct (Mounts.is_mounted_loop ps path); [exact I|].
        destruct (Mounts.iterdir h path) as [[|x xs]|e]; simpl; try exact I.
        destruct (is_Exception e) eqn:He; simpl; auto.
      * destruct (is_Exception e) eqn:He; simpl; [|now rewrite He].
        destruct (Mounts.iterdir h path) as [[|x xs]|e']; simpl; try exact I.
        destruct (is_Exception e') eqn:He'; simpl; auto.
    + exact I.
    + destruct (Mounts.mkdir h path 493) as [e|]; simpl; [|exact I].
      destruct (is_Exception e) eqn:He; simpl; [exact I|now rewrite He].
  - intros ps ->.
    destruct (Mounts.exists_ h path); [destruct (Mounts.is_dir h path)|].
    + destruct (Mounts.is_mounted_loop ps path).
      * split; [intros _; right; auto|reflexivity].
      * destruct (Mounts.iterdir h path) as [[|x xs]|e]; simpl.
        -- split; [intros _; right; auto|reflexivity].
        -- split; [discriminate|].
           intros [[H _]|(_ & _ & [H|H])]; discriminate.
        -- destruct (is_Exception e) eqn:He; simpl; rewrite ?He;
             (split; [discriminate|]);
             intros [[H _]|(_ & _ & [H|H])]; discriminate.
    + split; [discriminate|].
      intros [[H _]|(_ & H & _)]; discriminate.
    + destruct (Mounts.mkdir h path 493) as [e|]; simpl.
      * destruct (is_Exception e) eqn:He; simpl; rewrite ?He;
          (split; [discriminate|]);
          intros [[_ H]|(H & _)]; discriminate.
      * split; [intros _; left; auto|reflexivity].
  - intros ps entry entries -> -> -> -> Hno.
    assert (Hloop : Mounts.is_mounted_loop ps path = false).
    { destruct (Mounts.is_mounted_loop ps path) eqn:E; [|reflexivity].
      apply is_mounted_loop_iff in E. destruct E as [mp E].
      rewrite (proj2 (get_mount_point_loop_none ps path) Hno) in E.
      discriminate. }
    now rewrite Hloop.
  - intros -> ->. reflexivity.
Qed.

Lemma ensure_mount_point_cases_witness :
  let gentoo := Mounts.mkPartition "/dev/sda3" "/mnt/gentoo" "ext4" in
  let h := Mounts.mkHost (Returned [gentoo]) (fun _ => true) (fun _ => true)
             (fun _ => Returned ["lost+found"%string]) (fun _ _ => None) in
  Mounts.disk_partitions h = Returned [gentoo]
  /\ Mounts.iterdir h "/mnt/gentoo" = Returned ["lost+found"%string]
  /\ Mounts.get_mount_point h "/dev/sda3" = Returned (Some "/mnt/gentoo"%string)
  /\ Mounts.ensure_mount_point h "/mnt/gentoo" = Returned false.
Proof.
  intros gentoo h.
  assert (Hp : Mounts.disk_partitions h = Returned [gentoo]) by reflexivity.
  assert (Hi : Mounts.iterdir h "/mnt/gentoo" = Returned ["lost+found"%string])
    by reflexivity.
  split; [exact Hp|]. split; [exact Hi|]. split; [reflexivity|].
  refine (proj1 (proj2 (proj2 (ensure_mount_point_cases h "/mnt/gentoo")))
            [gentoo] _ _ Hp eq_refl eq_refl Hi _).
  intros q [<-|[]]. reflexivity.
Defined.

(* ===================================================================== *)
(** ** Required tools and system compatibility                            *)
(* ===================================================================== *)









(* ===================================================================== *)
(** ** The entry point                                                    *)
(* ===================================================================== *)

Lemma handlers_cases (w : Main.World) (e : exn) :
  (Main.is_KeyboardInterrupt w e = true
   /\ Main.handlers w e = Main.Exits 130)
  \/ (Main.is_KeyboardInterrupt w e = false /\ is_Exception e = true
      /\ Main.handlers w e = Main.Exits 1)
  \/ (Main.is_KeyboardInterrupt w e = false /\ is_Exception e = false
      /\ Main.handlers w e = Main.Propagates e).
Proof.
  unfold Main.handlers.
  destruct (Main.is_KeyboardInterrupt w e); [now left|right].
  destruct (is_Exception e); [left|right]; auto.
Qed.

Lemma configure_and_run_cases (w : Main.World) (o : Main.Options)
  (done : list Main.Action) :
  let loaded := match Main.config o with
                | Some path => Main.load_config w path
                | None => inl Config.default_AppConfig
                end in
  let first := match Main.config o with
               | Some path => Main.LoadConfig path
               | None => Main.UseDefaultConfig
               end in
  match loaded with
  | inr e =>
      Main.configure_and_run w o done
      = (Main.handlers w e, done ++ [first])
  | inl cfg =>
      Main.configure_and_run w o done
      = (match Main.run_app w (Main.set_dry_run cfg (Main.dry_run o)) with
         | Some e => Main.handlers w e
         | None => Main.Returns
         end,
         (done ++ [first])
           ++ (if Main.dry_run o then [Main.WarnDryRun] else [])
           ++ [Main.RunApplication (Main.set_dry_run cfg (Main.dry_run o))])
  end.
Proof.
  unfold Main.configure_and_run.
  destruct (Main.config o) as [path|]; cbn zeta.
  - destruct (Main.load_config w path) as [cfg|r]; [|reflexivity].
    destruct (Main.dry_run o);
      destruct (Main.run_app w _); rewrite <- ?app_assoc; reflexivity.
  - destruct (Main.dry_run o);
      destruct (Main.run_app w _); rewrite <- ?app_assoc; reflexivity.
Qed.

(** Case analysis on every collaborator that [main] consults. *)
Ltac main_cases :=
  unfold Main.main, Main.configure_and_run, Main.check_prerequisites,
    Main.handlers, Main.ran_on;
  match goal with
  | |- context [Main.config ?o] => destruct (Main.config o) eqn:?
  end;
  repeat match goal with
         | |- context [match ?x with _ => _ end] =>
             destruct x eqn:?; cbn [fst snd] in *
         end.

(** Case analysis from the inside: on the scrutinees that contain no
    other case analysis. *)
Ltac innermost_cases :=
  repeat match goal with
         | |- context [match ?x with _ => _ end] =>
             lazymatch x with
             | context [match _ with _ => _ end] => fail
             | _ => destruct x eqn:?; cbn [fst snd] in *
             end
         end.

Ltac under_cases :=
  unfold Main.main_under, Main.main_try_under, Main.configure_and_run_under,
    Main.run_under, Main.check_prerequisites_under, Main.handlers_under,
    Main.guard, Main.ran_on, Main.raised_in_a_handler;
  innermost_cases.

(** When every print and every call of the logger returns, [main_under]
    is [main]. *)
Lemma main_under_returning_statements st w o :
  (forall p, st p = None) -> Main.main_under st w o = Main.main w o.
Proof.
  intros Hq.
  assert (Hh : forall e, Main.handlers_under st w e = Main.handlers w e).
  { intros e. unfold Main.handlers_under, Main.handlers. now rewrite !Hq. }
  unfold Main.main_under, Main.main_try_under, Main.configure_and_run_under,
    Main.run_under, Main.check_prerequisites_under,
    Main.guard, Main.main, Main.configure_and_run, Main.check_prerequisites.
  rewrite !Hq.
  destruct (Main.setup_logging w _ _); [now rewrite Hh|].
  destruct (Main.skip_checks o);
    [|destruct (negb (Tools.check_root_privileges (Main.geteuid w)));
      [reflexivity|
       destruct (fst (Tools.check_system_compatibility (Main.host w)))
         as [[|]|e]; [|reflexivity|now rewrite Hh]]].
  all: destruct (Main.config o) as [path|];
    [destruct (Main.load_config w path) as [cfg|e]; [|now rewrite Hh]|].
  all: destruct (Main.dry_run o);
    destruct (Main.run_app w _); now rewrite ?Hh.
Qed.

Lemma main_propagates (w : Main.World) (o : Main.Options) (e : exn) :
  fst (Main.main w o) = Main.Propagates e ->
  is_Exception e = false /\ Main.is_KeyboardInterrupt w e = false.
Proof.
  main_cases; intros H; inversion H; subst; auto.
Qed.

Lemma main_exits_130 (w : Main.World) (o : Main.Options) :
  fst (Main.main w o) = Main.Exits 130 ->
  exists e,
    Main.is_KeyboardInterrupt w e = true
    /\ ((exists level file,
            In (Main.SetUpLogging level file) (snd (Main.main w o))
            /\ Main.setup_logging w level file = Some e)
        \/ (In Main.CheckPrerequisites (snd (Main.main w o))
            /\ fst (Tools.check_system_compatibility (Main.host w))
               = Raised e)
        \/ (exists path,
               In (Main.LoadConfig path) (snd (Main.main w o))
               /\ Main.load_config w path = inr e)
        \/ (exists cfg,
               Main.ran_on (snd (Main.main w o)) cfg
               /\ Main.run_app w cfg = Some e)).
Proof.
  main_cases; intros H; try discriminate H.
  all: eexists; (split; [eassumption|]).
  all: try (left; do 2 eexists; split; [now left|eassumption]).
  all: try (right; left; split; [simpl; now auto 10|];
            match goal with
            | Hc : (if ?b then _ else _) = Raised _ |- _ =>
                destruct b; [discriminate Hc|];
                destruct (fst (Tools.check_system_compatibility
                                 (Main.host w))) as [[|]|?];
                congruence
            end).
  all: try (right; right; left; eexists; split;
            [apply in_or_app; right; now left|eassumption]).
  all: try (right; right; right; eexists; split;
            [apply in_or_app; right; now left|eassumption]).
Qed.

(** X13.  The ways in which [main] ends, every statement of it being
    allowed to raise or to be interrupted ([st] says which of the prints
    and calls of the logger do).  Its own calls of [sys.exit] give the
    status 1 or 130 and no other.  It returns only after the application
    has run, as the last thing done, and returned, on a configuration
    whose dry-run setting is the flag of the command line.  An exception
    that leaves it is neither an instance of [Exception] nor a
    [KeyboardInterrupt], unless it was raised by a statement of one of
    the two handlers.  Status 130 means that a [KeyboardInterrupt] was
    raised inside the [try].  When the prints and the calls of the logger
    all return, no exception that leaves [main] is an [Exception] or a
    [KeyboardInterrupt], and status 130 means that logging, the
    prerequisite check, the loading of the configuration or the
    application raised [KeyboardInterrupt]. *)
Theorem main_ends_in_four_ways (st : Main.Statement -> option exn)
  (w : Main.World) (o : Main.Options) :
  (forall code, fst (Main.main_under st w o) = Main.Exits code ->
                code = 1 \/ code = 130)
  /\ (fst (Main.main_under st w o) = Main.Returns ->
      exists cfg before,
        snd (Main.main_under st w o) = before ++ [Main.RunApplication cfg]
        /\ Main.run_app w cfg = None
        /\ Config.dry_run cfg = Main.dry_run o)
  /\ (forall e, fst (Main.main_under st w o) = Main.Propagates e ->
                (is_Exception e = false
                 /\ Main.is_KeyboardInterrupt w e = false)
                \/ Main.raised_in_a_handler st e)
  /\ (fst (Main.main_under st w o) = Main.Exits 130 ->
      exists e,
        Main.is_KeyboardInterrupt w e = true
        /\ fst (Main.main_try_under st w o) = Main.Propagates e)
  /\ ((forall p, st p = None) ->
      Main.main_under st w o = Main.main w o
      /\ (forall e, fst (Main.main_under st w o) = Main.Propagates e ->
                    is_Exception e = false
                    /\ Main.is_KeyboardInterrupt w e = false)
      /\ (fst (Main.main_under st w o) = Main.Exits 130 ->
          exists e,
            Main.is_KeyboardInterrupt w e = true
            /\ ((exists level file,
                    In (Main.SetUpLogging level file)
                       (snd (Main.main_under st w o))
                    /\ Main.setup_logging w level file = Some e)
                \/ (In Main.CheckPrerequisites
                       (snd (Main.main_under st w o))
                    /\ fst (Tools.check_system_compatibility (Main.host w))
                       = Raised e)
                \/ (exists path,
                       In (Main.LoadConfig path)
                          (snd (Main.main_under st w o))
                       /\ Main.load_config w path = inr e)
                \/ (exists cfg,
                       Main.ran_on (snd (Main.main_under st w o)) cfg
                       /\ Main.run_app w cfg = Some e)))).
Proof.
  split; [|split; [|split; [|split]]].
  - intros code. under_cases; intros H; inversion H; auto.
  - under_cases; intros H; try discriminate H.
    all: eexists; eexists; split; [reflexivity|];
      split; [eassumption|reflexivity].
  - intros e. under_cases; intros H; inversion H; subst; auto 10.
  - unfold Main.main_under.
    destruct (Main.main_try_under st w o) as [[|c|e] done] eqn:Ht; cbn [fst].
    + discriminate.
    + intros H. inversion H; subst. exfalso. revert Ht.
      unfold Main.main_try_under, Main.configure_and_run_under,
        Main.run_under, Main.check_prerequisites_under, Main.guard.
      innermost_cases; intros H'; inversion H'.
    + intros H. exists e. split; [|reflexivity].
      revert H. unfold Main.handlers_under.
      destruct (Main.is_KeyboardInterrupt w e); [reflexivity|].
      innermost_cases; intros H'; inversion H'.
  - intros Hq. rewrite (main_under_returning_statements st w o Hq).
    split; [reflexivity|]. split.
    + apply main_propagates.
    + apply main_exits_130.
Qed.

(** X14.  Without [--skip-checks], a user who is not root gets nothing
    done, with or without [--dry-run]: [main] does not return, no
    configuration is loaded and the application is not run; when logging
    could be set up, the exit status is 1. *)
Theorem main_requires_root (w : Main.World) (o : Main.Options)
  (Hchecks : Main.skip_checks o = false)
  (Huser : Main.geteuid w <> 0) :
  fst (Main.main w o) <> Main.Returns
  /\ (forall cfg, ~ Main.ran_on (snd (Main.main w o)) cfg)
  /\ (forall a, In a (snd (Main.main w o)) -> Main.is_load a = false)
  /\ (forall level file,
        In (Main.SetUpLogging level file) (snd (Main.main w o)) ->
        Main.setup_logging w level file = None ->
        fst (Main.main w o) = Main.Exits 1).
Proof.
  assert (Hroot : Tools.check_root_privileges (Main.geteuid w) = false).
  { unfold Tools.check_root_privileges. now apply Z.eqb_neq. }
  unfold Main.main, Main.check_prerequisites.
  rewrite Hchecks, Hroot. cbn [negb].
  destruct (Main.setup_logging w _ _) as [e|] eqn:Hlog; cbn [fst snd].
  - split; [|split; [|split]].
    + destruct (handlers_cases w e)
        as [[_ ->]|[(_ & _ & ->)|(_ & _ & ->)]]; discriminate.
    + intros cfg [H|[]]. discriminate H.
    + intros a [<-|[]]. reflexivity.
    + intros level file [H|[]] Hnone. inversion H; subst. congruence.
  - split; [discriminate|]. split; [|split].
    + intros cfg [H|[H|[H|[]]]]; discriminate H.
    + intros a [<-|[<-|[<-|[]]]]; reflexivity.
    + reflexivity.
Qed.

Lemma main_requires_root_witness :
  Main.skip_checks Worlds.dry_run_with_file = false
  /\ Main.geteuid Worlds.as_user <> 0
  /\ Main.dry_run Worlds.dry_run_with_file = true
  /\ fst (Main.main Worlds.as_user Worlds.dry_run_with_file) = Main.Exits 1.
Proof.
  assert (Hchecks : Main.skip_checks Worlds.dry_run_with_file = false)
    by reflexivity.
  assert (Huser : Main.geteuid Worlds.as_user <> 0) by (simpl; lia).
  split; [exact Hchecks|]. split; [exact Huser|]. split; [reflexivity|].
  exact (proj2 (proj2 (proj2
           (main_requires_root Worlds.as_user Worlds.dry_run_with_file
              Hchecks Huser)))
           "INFO"%string "./gentooui.log"%string
           (or_introl eq_refl) eq_refl).
Defined.

(** X15.  With [--skip-checks], [main] consults neither the effective
    user nor the host: it ends the same way, after the same actions, under
    any user and on any host, and the prerequisite check is not among its
    actions. *)
Theorem skip_checks_ignores_the_host (w : Main.World) (o : Main.Options)
  (Hskip : Main.skip_checks o = true) :
  (forall uid h,
      Main.main (Main.mkWorld (Main.setup_logging w) uid h
                   (Main.load_config w) (Main.run_app w)
                   (Main.keyboard_interrupt w)) o
      = Main.main w o)
  /\ ~ In Main.CheckPrerequisites (snd (Main.main w o)).
Proof.
  split.
  - intros uid h. unfold Main.main. cbn [Main.setup_logging].
    rewrite Hskip. reflexivity.
  - unfold Main.main. rewrite Hskip.
    destruct (Main.setup_logging w _ _) as [r|]; cbn [snd].
    + intros [H|[]]. discriminate H.
    + pose proof (configure_and_run_cases w o
                    ([Main.SetUpLogging (Main.log_level o)
                        match Main.log_file o with
                        | Some f => f
                        | None => "./gentooui.log"%string
                        end] ++ [Main.PrintBanner])) as Hc.
      cbn zeta in Hc.
      destruct (Main.config o) as [path|].
      * destruct (Main.load_config w path) as [cfg|r]; rewrite Hc; cbn [snd];
          destruct (Main.dry_run o); simpl;
          intros H; repeat (destruct H as [H|H]; [discriminate H|]);
          exact H.
      * rewrite Hc; cbn [snd];
          destruct (Main.dry_run o); simpl;
          intros H; repeat (destruct H as [H|H]; [discriminate H|]);
          exact H.
Qed.

Lemma skip_checks_ignores_the_host_witness :
  Main.skip_checks
    (Main.mkOptions None "DEBUG" None false true) = true
  /\ Main.main Worlds.as_user (Main.mkOptions None "DEBUG" None false true)
     = Main.main Worlds.as_root (Main.mkOptions None "DEBUG" None false true)
  /\ fst (Main.main Worlds.as_user
            (Main.mkOptions None "DEBUG" None false true)) = Main.Returns.
Proof.
  split; [reflexivity|]. split; [|reflexivity].
  symmetry.
  exact (proj1 (skip_checks_ignores_the_host Worlds.as_user
                  (Main.mkOptions None "DEBUG" None false true) eq_refl)
           0 Worlds.live_medium).
Defined.

(** X16.  The application is run at most once, as the last thing
    [main] does, and only on a configuration whose dry-run setting is the
    flag of the command line, whatever the configuration file says; every
    other setting is the one of the file, or the default when no file is
    given.  With [--dry-run] the warning is printed, once, immediately
    before the application is run; without it no warning is printed. *)
Theorem dry_run_flag_overrides_the_file (w : Main.World) (o : Main.Options)
  (cfg : Config.AppConfig)
  (Hran : Main.ran_on (snd (Main.main w o)) cfg) :
  Config.dry_run cfg = Main.dry_run o
  /\ (exists loaded,
         match Main.config o with
         | Some path => Main.load_config w path = inl loaded
         | None => loaded = Config.default_AppConfig
         end
         /\ Config.verbose cfg = Config.verbose loaded
         /\ Config.disk cfg = Config.disk loaded
         /\ Config.mount_point cfg = Config.mount_point loaded
         /\ Config.work_dir cfg = Config.work_dir loaded)
  /\ filter Main.is_run (snd (Main.main w o)) = [Main.RunApplication cfg]
  /\ (Main.dry_run o = true ->
      exists before,
        snd (Main.main w o)
        = before ++ [Main.WarnDryRun; Main.RunApplication cfg]
        /\ ~ In Main.WarnDryRun before)
  /\ (Main.dry_run o = false ->
      ~ In Main.WarnDryRun (snd (Main.main w o))
      /\ exists before,
           snd (Main.main w o) = before ++ [Main.RunApplication cfg]).
Proof.
  revert Hran. main_cases; intros H; cbn [List.app] in H;
    repeat (destruct H as [H|H]; [try discriminate H|]); try (now elim H).
  all: inversion H; subst; clear H.
  all: split; [reflexivity|].
  all: split; [eexists; split; [first [eassumption|reflexivity]|
                                 repeat split]|].
  all: split; [reflexivity|].
  all: split; intros Hd; try discriminate Hd.
  all: try (eexists; split;
            [rewrite <- app_assoc; reflexivity|
             simpl; intros K;
             repeat (destruct K as [K|K]; [discriminate K|]); exact K]).
  all: split;
    [simpl; intros K;
     repeat (destruct K as [K|K]; [discriminate K|]); exact K
    |eexists; reflexivity].
Qed.

Lemma dry_run_flag_overrides_the_file_witness :
  Config.dry_run Worlds.from_file = false
  /\ Main.dry_run Worlds.dry_run_with_file = true
  /\ Main.ran_on (snd (Main.main Worlds.as_root Worlds.dry_run_with_file))
       (Main.set_dry_run Worlds.from_file true)
  /\ Config.dry_run (Main.set_dry_run Worlds.from_file true) = true.
Proof.
  assert (Hran : Main.ran_on
                   (snd (Main.main Worlds.as_root Worlds.dry_run_with_file))
                   (Main.set_dry_run Worlds.from_file true)).
  { vm_compute. tauto. }
  split; [reflexivity|]. split; [reflexivity|]. split; [exact Hran|].
  exact (proj1 (dry_run_flag_overrides_the_file Worlds.as_root
                  Worlds.dry_run_with_file _ Hran)).
Defined.

(* ===================================================================== *)
(** ** Block devices                                                      *)
(* ===================================================================== *)

(** X17.  [get_block_devices] returns only when [lsblk] completed with
    status 0 and [import json] ran: then it returns the value under
    "blockdevices" of the object that was printed, [[]] when the object
    has no such key, and [[]] when the output is no JSON.  When [lsblk]
    exits with another status, or cannot be started, or is interrupted,
    what leaves the function is [UnboundLocalError], raised by the
    [except] clause itself: the empty list announced for
    [CalledProcessError] is never returned, and an interrupt of [lsblk]
    leaves as an instance of [Exception].  Output that is JSON but no
    object raises [AttributeError].  Whatever else [json.loads] raises
    leaves the function as it is.  These are the only exceptions that
    leave it. *)
Theorem get_block_devices_cases (h : Devices.Host) :
  (forall v,
      Devices.get_block_devices h = Returned v ->
      exists stdout,
        Devices.lsblk h = Devices.Completed stdout
        /\ Devices.import_json h = None
        /\ ((Devices.loads h stdout = Devices.DecodeError
             /\ v = Devices.JArray [])
            \/ exists items,
                 Devices.loads h stdout
                 = Devices.Parsed (Devices.JObject items)
                 /\ v = Devices.get items "blockdevices"
                          (Devices.JArray [])))
  /\ ((forall stdout, Devices.lsblk h <> Devices.Completed stdout)
      \/ Devices.import_json h <> None ->
      Devices.get_block_devices h = Raised Devices.UnboundLocalError
      /\ is_Exception Devices.UnboundLocalError = true)
  /\ (forall stdout data,
        Devices.lsblk h = Devices.Completed stdout ->
        Devices.import_json h = None ->
        Devices.loads h stdout = Devices.Parsed data ->
        Devices.type_name data <> "dict"%string ->
        Devices.get_block_devices h
        = Raised (Devices.AttributeError data))
  /\ (forall stdout e,
        Devices.lsblk h = Devices.Completed stdout ->
        Devices.import_json h = None ->
        Devices.loads h stdout = Devices.LoadsRaises e ->
        Devices.get_block_devices h = Raised e)
  /\ (forall stdout,
        Devices.lsblk h = Devices.Completed stdout ->
        Devices.import_json h = None ->
        Devices.loads h stdout = Devices.DecodeError ->
        Devices.get_block_devices h = Returned (Devices.JArray []))
  /\ (forall e,
        Devices.get_block_devices h = Raised e ->
        e = Devices.UnboundLocalError
        \/ exists stdout,
             Devices.lsblk h = Devices.Completed stdout
             /\ Devices.import_json h = None
             /\ (Devices.loads h stdout = Devices.LoadsRaises e
                 \/ exists data,
                      Devices.loads h stdout = Devices.Parsed data
                      /\ Devices.type_name data <> "dict"%string
                      /\ e = Devices.AttributeError data)).
Proof.
  unfold Devices.get_block_devices, Devices.except_clause.
  split; [|split; [|split; [|split; [|split]]]].
  - intros v. destruct (Devices.lsblk h) as [stdout|code|e]; cbn [negb];
      try discriminate.
    destruct (Devices.import_json h) as [e|]; cbn [negb];
      try discriminate.
    destruct (Devices.loads h stdout) as [[| | | | | |items]| |e] eqn:Hl;
      try discriminate; intros H; inversion H; subst; exists stdout;
      (split; [reflexivity|]); (split; [reflexivity|]).
    + right. now exists items.
    + now left.
  - intros Hno. split; [|reflexivity].
    destruct (Devices.lsblk h) as [stdout|code|e];
      [|reflexivity|reflexivity].
    destruct (Devices.import_json h) as [e|]; [reflexivity|].
    destruct Hno as [Hno|Hno]; [now elim (Hno stdout)|now elim Hno].
  - intros stdout data -> -> -> Hty.
    destruct data; try reflexivity. now elim Hty.
  - intros stdout e -> -> ->. reflexivity.
  - intros stdout -> -> ->. reflexivity.
  - intros e. destruct (Devices.lsblk h) as [stdout|code|e0]; cbn [negb].
    + destruct (Devices.import_json h) as [e0|]; cbn [negb].
      * intros H; inversion H. now left.
      * destruct (Devices.loads h stdout) as [data| |e0] eqn:Hl.
        -- destruct data; try discriminate; intros H; inversion H;
             right; exists stdout; (split; [reflexivity|]);
             (split; [reflexivity|]); right; eexists;
             (split; [exact Hl|]); (split; [discriminate|reflexivity]).
        -- discriminate.
        -- intros H; inversion H; subst. right. exists stdout.
           split; [reflexivity|]. split; [reflexivity|]. left. exact Hl.
    + intros H; inversion H. now left.
    + intros H; inversion H. now left.
Qed.

Lemma get_block_devices_cases_witness :
  Devices.get_block_devices Devices.lsblk_exits_32
  = Raised Devices.UnboundLocalError
  /\ Devices.get_block_devices Devices.lsblk_interrupted
     = Raised Devices.UnboundLocalError
  /\ is_Exception Devices.KeyboardInterrupt = false
  /\ Devices.get_block_devices Devices.lsblk_prints_a_list
     = Raised (mk_exn OtherException
                 "'list' object has no attribute 'get'").
Proof.
  split; [|split; [|split; [reflexivity|]]].
  - apply (proj1 (proj2 (get_block_devices_cases Devices.lsblk_exits_32))).
    left. intros stdout H. discriminate H.
  - apply (proj1 (proj2 (get_block_devices_cases
                           Devices.lsblk_interrupted))).
    left. intros stdout H. discriminate H.
  - apply (proj1 (proj2 (proj2
             (get_block_devices_cases Devices.lsblk_prints_a_list)))
             "[]"%string (Devices.JArray []));
      [reflexivity|reflexivity|reflexivity|].
    intros H. discriminate H.
Defined.

(* ===================================================================== *)
(** ** Host names                                                         *)
(* ===================================================================== *)

Section HostNames.

Import Ascii Hostname.

Lemma matches_nothing s : matches Nothing s <-> False.
Proof. split; intros H; [inversion H|elim H]. Qed.

Lemma matches_eps s : matches Eps s <-> s = [].
Proof. split; intros H; [now inversion H|subst; constructor]. Qed.

Lemma matches_class p s :
  matches (Class p) s <-> exists c, s = [c] /\ p c = true.
Proof.
  split.
  - intros H. inversion H; subst. eauto.
  - intros (c & -> & H). now constructor.
Qed.

Lemma matches_seq r1 r2 s :
  matches (Seq r1 r2) s
  <-> exists s1 s2, s = s1 ++ s2 /\ matches r1 s1 /\ matches r2 s2.
Proof.
  split.
  - intros H. inversion H; subst. eauto.
  - intros (s1 & s2 & -> & H1 & H2). now constructor.
Qed.

Lemma matches_alt r1 r2 s :
  matches (Alt r1 r2) s <-> matches r1 s \/ matches r2 s.
Proof.
  split.
  - intros H. inversion H; subst; auto.
  - intros [H|H]; [now apply MAltL|now apply MAltR].
Qed.

Lemma nullable_matches r : nullable r = true <-> matches r [].
Proof.
  induction r; simpl.
  - rewrite matches_nothing. split; [discriminate|tauto].
  - rewrite matches_eps. tauto.
  - rewrite matches_class. split; [discriminate|].
    intros (c & H & _). discriminate H.
  - rewrite andb_true_iff, IHr1, IHr2, matches_seq. split.
    + intros [H1 H2]. exists [], []. auto.
    + intros (s1 & s2 & Heq & H1 & H2). symmetry in Heq.
      apply app_eq_nil in Heq as [-> ->]. auto.
  - rewrite orb_true_iff, IHr1, IHr2, matches_alt. tauto.
  - split; intros H; [constructor|reflexivity].
Qed.

Lemma star_cons r c s :
  matches (Star r) (c :: s) ->
  exists s1 s2, s = s1 ++ s2 /\ matches r (c :: s1) /\ matches (Star r) s2.
Proof.
  intros H. remember (Star r) as r' eqn:Hr. remember (c :: s) as cs eqn:Hs.
  revert s Hs.
  induction H as [| | | | | |r0 s1 s2 H1 IH1 H2 IH2]; intros s' Hs;
    try discriminate.
  inversion Hr; subst r0.
  destruct s1 as [|c1 s1]; simpl in Hs.
  - apply IH2; auto.
  - inversion Hs; subst. exists s1, s2. auto.
Qed.

Lemma deriv_matches r : forall c s,
  matches (deriv c r) s <-> matches r (c :: s).
Proof.
  induction r; intros c s; simpl.
  - rewrite !matches_nothing. tauto.
  - rewrite matches_nothing, matches_eps. split; [tauto|discriminate].
  - rewrite matches_class. destruct (p c) eqn:Hp.
    + rewrite matches_eps. split.
      * intros ->. eauto.
      * intros (c' & H & _). now inversion H.
    + rewrite matches_nothing. split; [tauto|].
      intros (c' & H & Hp'). inversion H; subst. congruence.
  - assert (Hseq : matches (Seq (deriv c r1) r2) s
                   <-> exists s1 s2, s = s1 ++ s2 /\ matches r1 (c :: s1)
                                     /\ matches r2 s2).
    { rewrite matches_seq. split; intros (s1 & s2 & -> & H1 & H2);
        exists s1, s2; (split; [reflexivity|]); split; auto;
        now apply IHr1. }
    rewrite (matches_seq r1 r2).
    destruct (nullable r1) eqn:Hn.
    + rewrite matches_alt, Hseq, IHr2. split.
      * intros [(s1 & s2 & -> & H1 & H2)|H].
        -- exists (c :: s1), s2. auto.
        -- exists [], (c :: s). split; [reflexivity|].
           split; [now apply nullable_matches|assumption].
      * intros (s1 & s2 & Heq & H1 & H2).
        destruct s1 as [|c1 s1]; simpl in Heq.
        -- subst s2. now right.
        -- inversion Heq; subst. left. eauto.
    + rewrite Hseq. split.
      * intros (s1 & s2 & -> & H1 & H2). exists (c :: s1), s2. auto.
      * intros (s1 & s2 & Heq & H1 & H2).
        destruct s1 as [|c1 s1]; simpl in Heq.
        -- apply nullable_matches in H1. congruence.
        -- inversion Heq; subst. eauto.
  - rewrite !matches_alt, IHr1, IHr2. tauto.
  - rewrite matches_seq. split.
    + intros (s1 & s2 & -> & H1 & H2).
      change (c :: s1 ++ s2) with ((c :: s1) ++ s2).
      constructor; [now apply IHr|assumption].
    + intros H. apply star_cons in H as (s1 & s2 & -> & H1 & H2).
      exists s1, s2. split; [reflexivity|]. split; [now apply IHr|assumption].
Qed.

Lemma accepts_matches s : forall r, accepts r s = true <-> matches r s.
Proof.
  induction s as [|c s IH]; intros r; simpl.
  - apply nullable_matches.
  - rewrite IH. apply deriv_matches.
Qed.

Lemma matches_upto_class n p : forall w,
  matches (Upto n (Class p)) w
  <-> (List.length w <= n)%nat /\ forallb p w = true.
Proof.
  induction n as [|n IH]; intros w; simpl Upto; unfold Opt.
  - rewrite matches_eps. split.
    + intros ->. simpl. auto.
    + intros [H _]. destruct w; simpl in H; [reflexivity|lia].
  - rewrite matches_alt, matches_seq, matches_eps. split.
    + intros [(s1 & s2 & -> & H1 & H2)| ->].
      * apply matches_class in H1 as (c & -> & Hp).
        apply IH in H2 as [Hl Hf]. simpl. rewrite Hp, Hf.
        split; [lia|reflexivity].
      * simpl. split; [lia|reflexivity].
    + intros [Hl Hf]. destruct w as [|c w]; [now right|left].
      simpl in Hl, Hf. apply andb_true_iff in Hf as [Hp Hf].
      exists [c], w. split; [reflexivity|]. split.
      * apply matches_class. eauto.
      * apply IH. split; [lia|assumption].
Qed.

Lemma alnum_is_alnum_hyphen c : alnum c = true -> alnum_hyphen c = true.
Proof.
  unfold alnum, alnum_hyphen. intros ->. reflexivity.
Qed.

Lemma alnum_hyphen_no_dot c : alnum_hyphen c = true -> dot c = false.
Proof.
  destruct c as [[] [] [] [] [] [] [] []]; vm_compute; intros H;
    first [reflexivity|discriminate H].
Qed.

Lemma matches_label l : matches label l <-> is_label l = true.
Proof.
  unfold label, Opt, is_label.
  rewrite matches_seq. split.
  - intros (s1 & s2 & -> & H1 & H2).
    apply matches_class in H1 as (c & -> & Hc).
    apply matches_alt in H2 as [H2|H2].
    + apply matches_seq in H2 as (w & s3 & -> & Hw & H3).
      apply matches_class in H3 as (d & -> & Hd).
      apply matches_upto_class in Hw as [Hl Hf].
      change ([c] ++ w ++ [d]) with ((c :: w) ++ [d]).
      rewrite last_last, forallb_app, length_app. simpl.
      rewrite Hc, Hd, Hf, (alnum_is_alnum_hyphen c Hc),
        (alnum_is_alnum_hyphen d Hd). simpl.
      rewrite !andb_true_r. apply Nat.leb_le. lia.
    + apply matches_eps in H2 as ->. simpl.
      rewrite Hc, (alnum_is_alnum_hyphen c Hc). reflexivity.
  - intros H.
    repeat (apply andb_true_iff in H as [H ?]).
    destruct l as [|c rest]; [discriminate H|].
    exists [c], rest. split; [reflexivity|].
    simpl hd in *. split; [apply matches_class; eauto|].
    apply matches_alt.
    destruct rest as [|x r _] using rev_ind; [right; constructor|left].
    change (c :: r ++ [x]) with ((c :: r) ++ [x]) in *.
    rewrite last_last in *.
    apply matches_seq. exists r, [x]. split; [reflexivity|]. split.
    + apply matches_upto_class.
      match goal with
      | Hl : (_ <=? 63)%nat = true |- _ =>
          apply Nat.leb_le in Hl; rewrite length_app in Hl; simpl in Hl
      end.
      match goal with
      | Hf : forallb _ _ = true |- _ =>
          rewrite forallb_app in Hf; simpl in Hf;
          apply andb_true_iff in Hf as [Hf _];
          apply andb_true_iff in Hf as [_ Hf]
      end.
      split; [lia|assumption].
    + apply matches_class. eauto.
Qed.

Lemma matches_dotted_labels_star w :
  matches (Star (Seq (Class dot) label)) w
  <-> exists ls, w = List.concat (map (cons "."%char) ls)
                 /\ forallb is_label ls = true.
Proof.
  split.
  - intros H. remember (Star (Seq (Class dot) label)) as r eqn:Hr.
    induction H as [| | | | | |r0 s1 s2 H1 _ H2 IH2]; try discriminate.
    + exists []. auto.
    + inversion Hr; subst r0.
      destruct (IH2 eq_refl) as (ls & -> & Hls).
      apply matches_seq in H1 as (d & l & -> & Hd & Hl).
      apply matches_class in Hd as (c & -> & Hc).
      apply Ascii.eqb_eq in Hc. subst c.
      apply matches_label in Hl.
      exists (l :: ls). simpl. rewrite Hl, Hls. auto.
  - intros (ls & -> & Hls). induction ls as [|l ls IH]; simpl.
    + constructor.
    + simpl in Hls. apply andb_true_iff in Hls as [Hl Hls].
      change ("."%char :: l ++ List.concat (map (cons "."%char) ls))
        with (("."%char :: l) ++ List.concat (map (cons "."%char) ls)).
      constructor; [|now apply IH].
      change ("."%char :: l) with (["."%char] ++ l).
      constructor; [now constructor|now apply matches_label].
Qed.

Lemma split_dots_nonempty s : split_dots s <> [].
Proof.
  destruct s as [|c s]; simpl; [discriminate|].
  destruct (dot c); [discriminate|].
  destruct (split_dots s); discriminate.
Qed.

Lemma split_dots_single l : no_dot l -> split_dots l = [l].
Proof.
  unfold no_dot. induction l as [|c l IH]; simpl; [reflexivity|].
  intros H. apply andb_true_iff in H as [Hc Hl].
  apply negb_true_iff in Hc. rewrite Hc, (IH Hl). reflexivity.
Qed.

Lemma split_dots_app l rest :
  no_dot l -> split_dots (l ++ "."%char :: rest) = l :: split_dots rest.
Proof.
  unfold no_dot. induction l as [|c l IH]; simpl; [reflexivity|].
  intros H. apply andb_true_iff in H as [Hc Hl].
  apply negb_true_iff in Hc. rewrite Hc, (IH Hl). reflexivity.
Qed.

Lemma split_dots_join s : forall l ls,
  split_dots s = l :: ls -> s = l ++ List.concat (map (cons "."%char) ls).
Proof.
  induction s as [|c s IH]; simpl; intros l ls H.
  - inversion H; subst. reflexivity.
  - destruct (dot c) eqn:Hc.
    + apply Ascii.eqb_eq in Hc. subst c. inversion H; subst.
      destruct (split_dots s) as [|l' ls'] eqn:Hs;
        [now elim (split_dots_nonempty s)|].
      simpl. now rewrite (IH l' ls' eq_refl).
    + destruct (split_dots s) as [|l' ls'] eqn:Hs;
        [now elim (split_dots_nonempty s)|].
      inversion H; subst. simpl. now rewrite (IH l' ls eq_refl).
Qed.

Lemma is_label_no_dot l : is_label l = true -> no_dot l.
Proof.
  unfold is_label, no_dot. intros H.
  repeat (apply andb_true_iff in H as [H ?]).
  match goal with
  | Hf : forallb alnum_hyphen l = true |- _ =>
      rewrite forallb_forall in Hf; apply forallb_forall; intros c Hin;
      now rewrite (alnum_hyphen_no_dot c (Hf c Hin))
  end.
Qed.

Lemma split_dots_labels ls : forall l,
  no_dot l -> forallb is_label ls = true ->
  split_dots (l ++ List.concat (map (cons "."%char) ls)) = l :: ls.
Proof.
  induction ls as [|l1 ls IH]; intros l Hl Hls; simpl.
  - rewrite app_nil_r. now apply split_dots_single.
  - simpl in Hls. apply andb_true_iff in Hls as [H1 Hls].
    rewrite (split_dots_app l _ Hl).
    now rewrite (IH l1 (is_label_no_dot l1 H1) Hls).
Qed.

Lemma matches_pattern s : matches pattern s <-> dotted_labels s.
Proof.
  unfold pattern, dotted_labels. rewrite matches_seq. split.
  - intros (l & w & -> & Hl & Hw).
    apply matches_label in Hl.
    apply matches_dotted_labels_star in Hw as (ls & -> & Hls).
    rewrite (split_dots_labels ls l (is_label_no_dot l Hl) Hls).
    simpl. now rewrite Hl, Hls.
  - intros H. destruct (split_dots s) as [|l ls] eqn:Hs;
      [now elim (split_dots_nonempty s)|].
    simpl in H. apply andb_true_iff in H as [Hl Hls].
    exists l, (List.concat (map (cons "."%char) ls)).
    split; [now apply split_dots_join|].
    split; [now apply matches_label|].
    apply matches_dotted_labels_star. eauto.
Qed.

Lemma before_final_newline_app s' :
  before_final_newline (s' ++ ["010"%char]) = Some s'.
Proof.
  induction s' as [|c s' IH]; [reflexivity|].
  cbn [List.app]. destruct (s' ++ ["010"%char]) as [|x r] eqn:E.
  - now destruct s'.
  - change (before_final_newline (c :: x :: r))
      with (option_map (cons c) (before_final_newline (x :: r))).
    now rewrite IH.
Qed.

Lemma before_final_newline_some s : forall s',
  before_final_newline s = Some s' -> s = s' ++ ["010"%char].
Proof.
  induction s as [|c s IH]; intros s' H; [discriminate|].
  destruct s as [|x r].
  - simpl in H. destruct (Ascii.eqb_spec c "010"%char) as [->|];
      [|discriminate]. inversion H. reflexivity.
  - change (before_final_newline (c :: x :: r))
      with (option_map (cons c) (before_final_newline (x :: r))) in H.
    destruct (before_final_newline (x :: r)) as [p|] eqn:Hp;
      [|discriminate]. simpl in H. inversion H; subst.
    now rewrite (IH p eq_refl).
Qed.

Lemma re_match_pattern s :
  re_match pattern s = true
  <-> dotted_labels s
      \/ exists s', s = s' ++ ["010"%char] /\ dotted_labels s'.
Proof.
  unfold re_match. rewrite orb_true_iff, accepts_matches, matches_pattern.
  split; (intros [H|H]; [now left|right]).
  - destruct (before_final_newline s) as [s'|] eqn:Hs; [|discriminate].
    exists s'. split; [now apply before_final_newline_some|].
    now apply matches_pattern, accepts_matches.
  - destruct H as (s' & -> & H). rewrite before_final_newline_app.
    now apply accepts_matches, matches_pattern.
Qed.

(** X18.  [validate_hostname] accepts exactly the non-empty strings of at
    most 253 characters that are labels separated by single dots, each
    label 1 to 63 letters, digits and hyphens that neither begins nor ends
    with a hyphen, possibly followed by one newline, which [$] lets pass:
    the newline counts in the 253.  Labels made of digits only are
    accepted; an empty label (a dot first, last or doubled) is not. *)
Theorem validate_hostname_reading (hostname : string) :
  validate_hostname hostname = true
  <-> hostname <> ""%string
      /\ (String.length hostname <= 253)%nat
      /\ (dotted_labels (list_ascii_of_string hostname)
          \/ exists s',
               list_ascii_of_string hostname = s' ++ ["010"%char]
               /\ dotted_labels s').
Proof.
  unfold validate_hostname.
  destruct (String.eqb_spec hostname "") as [->|Hne].
  - split; [discriminate|]. intros [H _]. now elim H.
  - destruct (Nat.ltb_spec 253 (String.length hostname)) as [Hlong|Hlen].
    + split; [discriminate|]. intros (_ & H & _). lia.
    + rewrite re_match_pattern. tauto.
Qed.

Lemma dotted_labels_chars s :
  dotted_labels s ->
  forallb (fun c => alnum_hyphen c || dot c) s = true.
Proof.
  unfold dotted_labels. intros H.
  destruct (split_dots s) as [|l ls] eqn:Hs;
    [now elim (split_dots_nonempty s)|].
  rewrite (split_dots_join s l ls Hs). clear Hs.
  assert (Hlabel : forall l, is_label l = true ->
            forallb (fun c => alnum_hyphen c || dot c) l = true).
  { intros l0 Hl0. unfold is_label in Hl0.
    repeat (apply andb_true_iff in Hl0 as [Hl0 ?]).
    match goal with
    | Hf : forallb alnum_hyphen l0 = true |- _ =>
        rewrite forallb_forall in Hf; apply forallb_forall; intros c Hin;
        now rewrite (Hf c Hin)
    end. }
  simpl in H. apply andb_true_iff in H as [Hl Hls].
  rewrite forallb_app, (Hlabel l Hl). simpl.
  induction ls as [|l1 ls IH]; [reflexivity|].
  simpl in Hls. apply andb_true_iff in Hls as [H1 Hls].
  simpl. rewrite forallb_app, (Hlabel l1 H1), (IH Hls). reflexivity.
Qed.

Lemma dotted_labels_no_newline s t :
  ~ dotted_labels (s ++ "010"%char :: t).
Proof.
  intros H. apply dotted_labels_chars in H.
  rewrite forallb_app in H. apply andb_true_iff in H as [_ H].
  discriminate H.
Qed.

Lemma list_ascii_of_string_append a b :
  list_ascii_of_string (a ++ b)%string
  = list_ascii_of_string a ++ list_ascii_of_string b.
Proof.
  induction a as [|c a IH]; simpl; [reflexivity|now rewrite IH].
Qed.

Lemma length_append a b :
  String.length (a ++ b)%string = (String.length a + String.length b)%nat.
Proof.
  induction a as [|c a IH]; simpl; [reflexivity|now rewrite IH].
Qed.

(** X19.  A name of at most 252 characters that is made of labels is
    accepted, and so is the same name followed by a newline; followed by
    two newlines, or preceded by one, it is refused. *)
Theorem hostname_with_final_newline (hostname : string)
  (Hlabels : dotted_labels (list_ascii_of_string hostname))
  (Hlen : (String.length hostname <= 252)%nat) :
  validate_hostname hostname = true
  /\ validate_hostname (hostname ++ newline) = true
  /\ validate_hostname (hostname ++ newline ++ newline) = false
  /\ validate_hostname (newline ++ hostname) = false.
Proof.
  assert (Hne : forall s, (hostname ++ s)%string <> ""%string).
  { intros s Hs. destruct hostname; [|discriminate Hs].
    vm_compute in Hlabels. discriminate Hlabels. }
  split; [|split; [|split]].
  - apply validate_hostname_reading.
    split; [|split; [lia|now left]].
    intros ->. vm_compute in Hlabels. discriminate Hlabels.
  - apply validate_hostname_reading. split; [apply Hne|]. split.
    + rewrite length_append. simpl. lia.
    + right. exists (list_ascii_of_string hostname).
      split; [apply list_ascii_of_string_append|assumption].
  - apply not_true_is_false. intros H.
    apply validate_hostname_reading in H as (_ & _ & [H|(s' & Hs & H)]).
    + rewrite list_ascii_of_string_append in H.
      now apply dotted_labels_no_newline in H.
    + rewrite list_ascii_of_string_append in Hs. simpl in Hs.
      change (list_ascii_of_string hostname ++ ["010"%char; "010"%char])
        with (list_ascii_of_string hostname
                ++ ["010"%char] ++ ["010"%char]) in Hs.
      rewrite app_assoc in Hs. apply app_inj_tail in Hs as [<- _].
      now apply dotted_labels_no_newline in H.
  - apply not_true_is_false. intros H.
    apply validate_hostname_reading in H as (_ & _ & [H|(s' & Hs & H)]).
    + now apply (dotted_labels_no_newline []) in H.
    + simpl in Hs. destruct s' as [|c s']; simpl in Hs.
      * inversion Hs. vm_compute in H. discriminate H.
      * inversion Hs; subst c.
        now apply (dotted_labels_no_newline []) in H.
Qed.

Lemma hostname_with_final_newline_witness :
  dotted_labels (list_ascii_of_string "gentoo.example.org")
  /\ (String.length "gentoo.example.org" <= 252)%nat
  /\ validate_hostname ("gentoo.example.org" ++ newline) = true
  /\ validate_hostname "gentoo_box" = false.
Proof.
  assert (Hlabels : dotted_labels (list_ascii_of_string "gentoo.example.org"))
    by (vm_compute; reflexivity).
  assert (Hlen : (String.length "gentoo.example.org" <= 252)%nat)
    by (simpl; lia).
  split; [exact Hlabels|]. split; [exact Hlen|].
  split; [|vm_compute; reflexivity].
  exact (proj1 (proj2 (hostname_with_final_newline "gentoo.example.org"
                         Hlabels Hlen))).
Defined.

End HostNames.

(* ===================================================================== *)
(** ** Time zones and locales                                             *)
(* ===================================================================== *)

Section Lists.

Import Listings.
Local Open Scope string_scope.

Lemma split_nonempty sep s : split sep s <> [].
Proof.
  destruct s as [|c s]; simpl; [discriminate|].
  destruct (c =? sep)%char; [discriminate|].
  destruct (split sep s); discriminate.
Qed.

Lemma join_split sep s :
  Tools.join (String sep EmptyString) (split sep s) = s.
Proof.
  induction s as [|c s IH]; [reflexivity|].
  simpl split. destruct (Ascii.eqb_spec c sep) as [->|Hne].
  - destruct (split sep s) as [|l ls] eqn:Hs;
      [now elim (split_nonempty sep s)|].
    change (Tools.join (String sep "") ("" :: l :: ls))
      with ("" ++ String sep "" ++ Tools.join (String sep "") (l :: ls)).
    rewrite IH. reflexivity.
  - destruct (split sep s) as [|l ls] eqn:Hs;
      [now elim (split_nonempty sep s)|].
    rewrite <- IH. destruct ls as [|l2 ls]; reflexivity.
Qed.

Lemma split_free_of sep s :
  Forall (fun l => free_of sep l = true) (split sep s).
Proof.
  induction s as [|c s IH]; simpl.
  - constructor; [reflexivity|constructor].
  - destruct (c =? sep)%char eqn:Hc.
    + constructor; [reflexivity|assumption].
    + destruct (split sep s) as [|l ls].
      * constructor; [|constructor]. simpl. now rewrite Hc.
      * inversion IH; subst.
        constructor; [|assumption]. simpl. now rewrite Hc.
Qed.

Lemma lstrip_head s c r : lstrip s = String c r -> is_space c = false.
Proof.
  induction s as [|x s IH]; simpl; [discriminate|].
  destruct (is_space x) eqn:Hx; [exact IH|].
  intros H. inversion H; subst. exact Hx.
Qed.

Lemma lstrip_fixed s :
  match s with
  | EmptyString => True
  | String c _ => is_space c = false
  end -> lstrip s = s.
Proof.
  destruct s as [|c s]; simpl; [reflexivity|]. now intros ->.
Qed.

Lemma lstrip_idem s : lstrip (lstrip s) = lstrip s.
Proof.
  apply lstrip_fixed. destruct (lstrip s) as [|c r] eqn:H; [exact I|].
  exact (lstrip_head s c r H).
Qed.

Lemma rstrip_idem s : rstrip (rstrip s) = rstrip s.
Proof.
  induction s as [|c s IH]; [reflexivity|].
  simpl. destruct (rstrip s) as [|x r] eqn:Hr.
  - destruct (is_space c) eqn:Hc; [reflexivity|].
    simpl. now rewrite Hc.
  - change (rstrip (String c (String x r)))
      with (match rstrip (String x r) with
            | EmptyString => if is_space c then EmptyString
                             else String c EmptyString
            | kept => String c kept
            end).
    rewrite IH. reflexivity.
Qed.

Lemma rstrip_head s c r :
  rstrip s = String c r -> exists r', s = String c r'.
Proof.
  destruct s as [|x s]; simpl; [discriminate|].
  destruct (rstrip s) as [|y k].
  - destruct (is_space x); [discriminate|].
    intros H. inversion H; subst. eauto.
  - intros H. inversion H; subst. eauto.
Qed.

Lemma strip_trimmed s : trimmed (strip s).
Proof.
  unfold trimmed, strip. split; [|apply rstrip_idem].
  apply lstrip_fixed.
  destruct (rstrip (lstrip s)) as [|c r] eqn:H; [exact I|].
  destruct (rstrip_head _ c r H) as (r' & Hl).
  exact (lstrip_head s c r' Hl).
Qed.

Lemma trimmed_strip s : trimmed s -> strip s = s.
Proof.
  unfold trimmed, strip. intros [Hl Hr]. now rewrite Hl.
Qed.


Lemma lstrip_free_of c s : free_of c s = true -> free_of c (lstrip s) = true.
Proof.
  induction s as [|x s IH]; simpl; [reflexivity|].
  intros H. destruct (is_space x).
  - apply andb_true_iff in H as [_ H]. now apply IH.
  - exact H.
Qed.

Lemma rstrip_free_of c s : free_of c s = true -> free_of c (rstrip s) = true.
Proof.
  induction s as [|x s IH]; simpl; [reflexivity|].
  intros H. apply andb_true_iff in H as [Hx H].
  destruct (rstrip s) as [|y k] eqn:Hr.
  - destruct (is_space x); [reflexivity|]. simpl. now rewrite Hx.
  - simpl. rewrite Hx. exact (IH H).
Qed.

Lemma strip_free_of c s : free_of c s = true -> free_of c (strip s) = true.
Proof.
  intros H. unfold strip. now apply rstrip_free_of, lstrip_free_of.
Qed.

Lemma is_empty_false s : is_empty s = false <-> s <> "".
Proof.
  destruct s; simpl; split; intros H; congruence.
Qed.

(** X20.  [get_timezone_list] returns the ten fallback names when
    [timedatectl] exits with a status other than 0, and otherwise only
    when the command completes and its stripped output is these ten
    names, one on a line; when the command cannot be started (a system
    without [timedatectl]) the exception leaves the function and the
    fallback is not used.  When the command completes, the result is
    never the empty list: its entries, none of which holds a newline,
    joined by newlines give back the stripped output, so that a command
    that prints nothing gives the list of one empty name. *)
Theorem timezone_list_cases (h : Host) :
  (forall zones,
      get_timezone_list h = Returned zones ->
      (exists code, timedatectl h = Devices.ExitStatus code
                    /\ zones = fallback_timezones)
      \/ (exists stdout,
             timedatectl h = Devices.Completed stdout
             /\ zones <> []
             /\ Tools.join (String newline "") zones = strip stdout
             /\ Forall (fun z => free_of newline z = true) zones
             /\ (strip stdout = "" -> zones = [""])))
  /\ (forall e, get_timezone_list h = Raised e
                <-> timedatectl h = Devices.Fails e)
  /\ (forall code, timedatectl h = Devices.ExitStatus code ->
                   get_timezone_list h = Returned fallback_timezones)
  /\ (get_timezone_list h = Returned fallback_timezones
      <-> (exists code, timedatectl h = Devices.ExitStatus code)
          \/ (exists stdout,
                 timedatectl h = Devices.Completed stdout
                 /\ strip stdout
                    = Tools.join (String newline "") fallback_timezones)).
Proof.
  unfold get_timezone_list. split; [|split; [|split]].
  - intros zones. destruct (timedatectl h) as [stdout|code|e];
      intros H; inversion H; subst; [right|left].
    + exists stdout. split; [reflexivity|].
      split; [apply split_nonempty|].
      split; [apply join_split|].
      split; [apply split_free_of|].
      intros ->. reflexivity.
    + exists code. auto.
  - intros e. destruct (timedatectl h) as [stdout|code|e0];
      split; intros H; inversion H; reflexivity.
  - intros code ->. reflexivity.
  - destruct (timedatectl h) as [stdout|code|e]; split.
    + intros H. right. exists stdout. split; [reflexivity|].
      inversion H as [Hs]. rewrite <- (join_split newline (strip stdout)).
      now rewrite Hs.
    + intros [[code H]|(out & H & Hs)]; [discriminate H|].
      inversion H; subst out. rewrite Hs. reflexivity.
    + intros _. left. now exists code.
    + reflexivity.
    + discriminate.
    + intros [[code H]|(out & H & _)]; discriminate H.
Qed.

(** X21.  [get_available_locales] returns the ten fallback names exactly
    when [locale -a] exits with a status other than 0, and lets the
    exception pass when the command cannot be started.  When the command
    completes, the result is in ascending order and holds, as often as
    they occur, the stripped lines of the output that are not blank: no
    entry is empty, begins or ends with white space or holds a newline.
    Blank output gives the empty list, not the fallback. *)
Theorem available_locales_cases (h : Host) :
  (forall stdout,
      locale h = Devices.Completed stdout ->
      exists locales,
        get_available_locales h = Returned locales
        /\ Sorted (fun a b => String.leb a b = true) locales
        /\ Permutation
             (map strip
                (filter (fun line => negb (is_empty (strip line)))
                   (split newline stdout)))
             locales
        /\ (forall l, In l locales
                      <-> l <> ""
                          /\ exists line, In line (split newline stdout)
                                          /\ strip line = l)
        /\ Forall (fun l => trimmed l /\ free_of newline l = true) locales
        /\ ((forall line, In line (split newline stdout) ->
                          strip line = "")
            -> locales = []))
  /\ (forall e, get_available_locales h = Raised e
                <-> locale h = Devices.Fails e)
  /\ (forall code, locale h = Devices.ExitStatus code ->
                   get_available_locales h = Returned fallback_locales).
Proof.
  unfold get_available_locales. split; [|split].
  - intros stdout ->. eexists. split; [reflexivity|].
    set (lines := split newline stdout).
    set (kept := map strip
                   (filter (fun line => negb (is_empty (strip line)))
                      lines)).
    assert (Hperm : Permutation kept (StringSort.sort kept))
      by apply StringSort.Permuted_sort.
    assert (Hin : forall l, In l kept
                            <-> l <> ""
                                /\ exists line, In line lines
                                                /\ strip line = l).
    { intros l. unfold kept. rewrite in_map_iff. split.
      - intros (line & <- & Hl). apply filter_In in Hl as [Hl Hne].
        apply negb_true_iff, is_empty_false in Hne. eauto.
      - intros (Hne & line & Hl & <-). exists line. split; [reflexivity|].
        apply filter_In. split; [assumption|].
        now apply negb_true_iff, is_empty_false. }
    split; [apply StringSort.Sorted_sort|].
    split; [exact Hperm|].
    split; [|split].
    + intros l. rewrite <- Hin. split; intros H.
      * now apply (Permutation_in l (Permutation_sym Hperm)).
      * now apply (Permutation_in l Hperm).
    + apply Forall_forall. intros l Hl.
      apply (Permutation_in l (Permutation_sym Hperm)) in Hl.
      apply Hin in Hl as (_ & line & Hline & <-).
      split; [apply strip_trimmed|]. apply strip_free_of.
      pose proof (split_free_of newline stdout) as Hfree.
      rewrite Forall_forall in Hfree. now apply Hfree.
    + intros Hblank.
      assert (Hk : kept = []).
      { clear Hperm. destruct kept as [|l k]; [reflexivity|].
        assert (Hl : In l (l :: k)) by now left.
        apply Hin in Hl as (Hne & line & Hline & <-).
        now elim Hne; apply Hblank. }
      rewrite Hk. reflexivity.
  - intros e. destruct (locale h) as [stdout|code|e0];
      split; intros H; inversion H; reflexivity.
  - intros code ->. reflexivity.
Qed.

Lemma timezone_list_cases_witness :
  get_timezone_list openrc_host = Raised FileNotFoundError
  /\ (exists stdout, timedatectl ten_zones_host = Devices.Completed stdout)
  /\ get_timezone_list ten_zones_host = Returned fallback_timezones.
Proof.
  split; [|split].
  - exact (proj2 (proj1 (proj2 (timezone_list_cases openrc_host))
                    FileNotFoundError) eq_refl).
  - eexists. reflexivity.
  - apply (proj2 (proj2 (proj2 (timezone_list_cases ten_zones_host)))).
    right. eexists. split; reflexivity.
Defined.

Lemma available_locales_cases_witness :
  exists locales,
    get_available_locales openrc_host = Returned locales
    /\ locales = ["C"; "POSIX"; "en_US.utf8"]
    /\ Sorted (fun a b => String.leb a b = true) locales.
Proof.
  destruct (proj1 (available_locales_cases openrc_host) _ eq_refl)
    as (locales & Heq & Hsorted & _).
  exists locales. split; [exact Heq|]. split; [|exact Hsorted].
  vm_compute in Heq. now inversion Heq.
Defined.

End Lists.

(* ===================================================================== *)
(** ** The deep merge of configuration data                               *)
(* ===================================================================== *)

Section DeepMerge.

Import Merge.

Lemma lookup_assign items key v k :
  lookup (assign items key v) k
  = if (key =? k)%string then Some v else lookup items k.
Proof.
  induction items as [|[k0 x] rest IH]; simpl.
  - reflexivity.
  - destruct (String.eqb_spec k0 key) as [->|Hne]; simpl.
    + destruct (key =? k)%string; reflexivity.
    + rewrite IH. destruct (String.eqb_spec k0 k) as [->|Hne'].
      * destruct (String.eqb_spec key k) as [->|]; [now elim Hne|reflexivity].
      * reflexivity.
Qed.

Lemma has_key_lookup items k :
  has_key items k = true <-> lookup items k <> None.
Proof.
  unfold has_key, keys. induction items as [|[k0 x] rest IH]; simpl.
  - split; [discriminate|congruence].
  - rewrite (String.eqb_sym k k0).
    destruct (k0 =? k)%string; simpl; [|exact IH].
    split; [discriminate|reflexivity].
Qed.

Lemma keys_assign items key v :
  keys (assign items key v)
  = if has_key items key then keys items else keys items ++ [key].
Proof.
  unfold has_key, keys. induction items as [|[k0 x] rest IH]; simpl.
  - reflexivity.
  - rewrite (String.eqb_sym key k0).
    destruct (k0 =? key)%string; simpl; [reflexivity|].
    rewrite IH. destruct (existsb _ _); reflexivity.
Qed.

Lemma lookup_not_key items k :
  ~ In k (keys items) -> lookup items k = None.
Proof.
  unfold keys. induction items as [|[k0 x] rest IH]; simpl; [reflexivity|].
  intros H. destruct (String.eqb_spec k0 k) as [->|Hne]; [tauto|].
  apply IH. tauto.
Qed.

Lemma lookup_merge_loop merge override : forall result k,
  NoDup (keys override) ->
  lookup (merge_loop merge result override) k
  = match lookup override k with
    | Some v => Some (merge (lookup result k) v)
    | None => lookup result k
    end.
Proof.
  induction override as [|[k0 v0] rest IH]; intros result k Hnd; simpl.
  - reflexivity.
  - inversion Hnd as [|? ? Hnot Hrest]; subst.
    rewrite (IH _ k Hrest), lookup_assign.
    destruct (String.eqb_spec k0 k) as [->|Hne].
    + now rewrite (lookup_not_key rest k Hnot).
    + reflexivity.
Qed.

Lemma keys_merge_loop merge override : forall result,
  NoDup (keys override) ->
  keys (merge_loop merge result override)
  = keys result
      ++ filter (fun k => negb (has_key result k)) (keys override).
Proof.
  induction override as [|[k0 v0] rest IH]; intros result Hnd; simpl.
  - now rewrite app_nil_r.
  - inversion Hnd as [|? ? Hnot Hrest]; subst.
    rewrite (IH _ Hrest), keys_assign.
    destruct (has_key result k0) eqn:Hk0; simpl.
    + f_equal. apply filter_ext_in. intros k Hk.
      f_equal. unfold has_key. now rewrite keys_assign, Hk0.
    + rewrite <- app_assoc. simpl. f_equal. f_equal.
      apply filter_ext_in. intros k Hk.
      f_equal. unfold has_key. rewrite keys_assign, Hk0.
      fold (has_key result k0). rewrite existsb_app. simpl.
      destruct (String.eqb_spec k k0) as [->|Hne]; [now elim Hnot|].
      now rewrite !orb_false_r.
Qed.


Lemma has_key_In items k : has_key items k = true <-> In k (keys items).
Proof.
  unfold has_key. rewrite existsb_exists. split.
  - intros (x & Hx & Heq). apply String.eqb_eq in Heq. now subst.
  - intros H. exists k. split; [assumption|apply String.eqb_refl].
Qed.

Lemma lookup_In items k v :
  lookup items k = Some v -> In (k, v) items.
Proof.
  induction items as [|[k0 x] rest IH]; simpl; [discriminate|].
  destruct (String.eqb_spec k0 k) as [->|Hne].
  - intros H. inversion H. now left.
  - intros H. right. now apply IH.
Qed.

Lemma lookup_key items k v :
  lookup items k = Some v -> In k (keys items).
Proof.
  intros H. apply lookup_In in H. unfold keys.
  change k with (fst (k, v)). now apply in_map.
Qed.

Lemma items_ext (a : Items) : forall b : Items,
  NoDup (keys a) -> keys a = keys b ->
  (forall k, lookup a k = lookup b k) -> a = b.
Proof.
  induction a as [|[k x] a IH]; intros [|[k' x'] b] Hnd Hkeys Hlook;
    try discriminate Hkeys; [reflexivity|].
  simpl in Hkeys. inversion Hkeys as [[Hk Hrest]]. subst k'.
  inversion Hnd as [|? ? Hnot Hnd']; subst.
  pose proof (Hlook k) as Hx. simpl in Hx.
  rewrite String.eqb_refl in Hx. inversion Hx; subst x'.
  f_equal. apply IH; [assumption|assumption|].
  intros k1. pose proof (Hlook k1) as H1. simpl in H1.
  destruct (String.eqb_spec k k1) as [->|Hne]; [|exact H1].
  rewrite (lookup_not_key a k1 Hnot).
  rewrite Hrest in Hnot. now rewrite (lookup_not_key b k1 Hnot).
Qed.

Lemma keys_deep_merge_NoDup base override :
  NoDup (keys base) -> NoDup (keys override) ->
  NoDup (keys (deep_merge base override)).
Proof.
  intros Hb Ho. unfold deep_merge. rewrite keys_merge_loop by assumption.
  apply NoDup_app.
  - assumption.
  - now apply NoDup_filter.
  - intros k Hk Hf. apply filter_In in Hf as [_ Hf].
    apply negb_true_iff in Hf. apply has_key_In in Hk. congruence.
Qed.

Lemma merge_twice_keys (a override : Items) :
  (forall k, In k (keys override) -> In k (keys a)) ->
  filter (fun k => negb (has_key a k)) (keys override) = [].
Proof.
  intros H. induction (keys override) as [|k ks IH]; [reflexivity|].
  simpl. assert (Hk : has_key a k = true)
    by (apply has_key_In, H; now left).
  rewrite Hk. simpl. apply IH. intros k' Hk'. apply H. now right.
Qed.

Lemma self_merge value :
  well_formed value ->
  merge_entry (Some value) value = value.
Proof.
  induction 1 as [v|items Hnd Hwf IH]; [reflexivity|].
  simpl. f_equal. symmetry. apply items_ext.
  - assumption.
  - rewrite keys_merge_loop by assumption.
    rewrite merge_twice_keys by auto. now rewrite app_nil_r.
  - intros k. rewrite lookup_merge_loop by assumption.
    destruct (lookup items k) as [v|] eqn:Hk; [|reflexivity].
    f_equal. symmetry. apply (IH k v). now apply lookup_In.
Qed.

Lemma merge_entry_twice value :
  well_formed value ->
  forall current,
    (forall c, current = Some c -> well_formed c) ->
    merge_entry (Some (merge_entry current value)) value
    = merge_entry current value.
Proof.
  induction 1 as [v|override Hnd Hwf IH]; intros current Hc.
  - destruct current as [[|]|]; reflexivity.
  - assert (Hself : merge_entry (Some (Dict override)) (Dict override)
                    = Dict override)
      by (apply self_merge; now constructor).
    destruct current as [[v|base]|]; try exact Hself.
    pose proof (Hc _ eq_refl) as Hbase.
    inversion Hbase as [|? Hndb Hwfb]; subst.
    simpl. f_equal. fold (deep_merge base override).
    fold (deep_merge (deep_merge base override) override).
    symmetry. apply items_ext.
    + now apply keys_deep_merge_NoDup.
    + unfold deep_merge at 2. rewrite keys_merge_loop by assumption.
      rewrite merge_twice_keys; [now rewrite app_nil_r|].
      intros k Hk. unfold deep_merge. rewrite keys_merge_loop by assumption.
      apply in_or_app.
      destruct (has_key base k) eqn:Hb.
      * left. now apply has_key_In.
      * right. apply filter_In. split; [assumption|]. now rewrite Hb.
    + intros k. unfold deep_merge.
      rewrite !lookup_merge_loop by assumption.
      destruct (lookup override k) as [v|] eqn:Hk; [|reflexivity].
      f_equal. symmetry. apply (IH k v).
      * now apply lookup_In.
      * intros c Hcur. apply (Hwfb k c). now apply lookup_In.
Qed.


(** X22.  [deep_merge], for an override whose keys are distinct: a key
    the override does not have keeps the value of the base; a key it has
    gets the override's value, unless both values are dicts, which are
    merged in the same way; the keys of the base keep their order and the
    new keys of the override follow in theirs; and the keys of the result
    are distinct when those of the base are. *)
Theorem deep_merge_reading (base override : Items)
  (Hkeys : NoDup (keys override)) :
  (forall k,
      lookup (deep_merge base override) k
      = match lookup override k with
        | None => lookup base k
        | Some (Leaf v) => Some (Leaf v)
        | Some (Dict o) =>
            match lookup base k with
            | Some (Dict b) => Some (Dict (deep_merge b o))
            | _ => Some (Dict o)
            end
        end)
  /\ keys (deep_merge base override)
     = keys base ++ filter (fun k => negb (has_key base k)) (keys override)
  /\ (NoDup (keys base) -> NoDup (keys (deep_merge base override))).
Proof.
  split; [|split].
  - intros k. unfold deep_merge at 1.
    rewrite lookup_merge_loop by assumption.
    destruct (lookup override k) as [[v|o]|]; [| |reflexivity].
    + destruct (lookup base k) as [[|]|]; reflexivity.
    + destruct (lookup base k) as [[|]|]; reflexivity.
  - now apply keys_merge_loop.
  - intros Hb. now apply keys_deep_merge_NoDup.
Qed.

Lemma deep_merge_reading_witness :
  NoDup (keys override_disk)
  /\ lookup (deep_merge dumped override_disk) "disk"
     = Some (Dict [("target_disk"%string, Leaf "/dev/nvme0n1");
                   ("swap_size"%string, Leaf "4G")])
  /\ keys (deep_merge dumped override_disk)
     = ["dry_run"; "disk"; "mount_point"; "hostname"]%string.
Proof.
  assert (Hkeys : NoDup (keys override_disk)).
  { repeat constructor; simpl; intuition discriminate. }
  split; [exact Hkeys|]. split.
  - rewrite (proj1 (deep_merge_reading dumped override_disk Hkeys)).
    reflexivity.
  - rewrite (proj1 (proj2 (deep_merge_reading dumped override_disk Hkeys))).
    reflexivity.
Defined.

(** X23.  On Python values, merging the same override a second time
    changes nothing, merging a dict into itself gives it back, and so do
    merging it into the empty dict and merging the empty dict into it. *)
Theorem deep_merge_idempotent (base override : Items)
  (Hbase : well_formed (Dict base))
  (Hoverride : well_formed (Dict override)) :
  deep_merge (deep_merge base override) override = deep_merge base override
  /\ deep_merge override override = override
  /\ deep_merge [] override = override
  /\ deep_merge base [] = base.
Proof.
  split; [|split; [|split]].
  - pose proof (merge_entry_twice (Dict override) Hoverride
                  (Some (Dict base))) as H.
    assert (Hc : forall c, Some (Dict base) = Some c -> well_formed c).
    { intros c Hc. inversion Hc; subst. exact Hbase. }
    specialize (H Hc). simpl in H. injection H as H. exact H.
  - pose proof (self_merge (Dict override) Hoverride) as H.
    simpl in H. injection H as H. exact H.
  - inversion Hoverride as [|? Hnd _]; subst.
    symmetry. apply items_ext; [assumption| |].
    + unfold deep_merge. rewrite keys_merge_loop by assumption.
      simpl. symmetry. apply filter_true.
    + intros k. unfold deep_merge. rewrite lookup_merge_loop by assumption.
      simpl. destruct (lookup override k) as [[|]|]; reflexivity.
  - reflexivity.
Qed.

Ltac python_value :=
  repeat match goal with
         | |- well_formed (Leaf _) => constructor
         | |- well_formed (Dict _) => constructor
         | |- NoDup _ => repeat constructor; simpl; intuition discriminate
         | |- forall k v, In (k, v) _ -> well_formed v =>
             let k := fresh "k" in
             let v := fresh "v" in
             let H := fresh "H" in
             intros k v H; simpl in H;
             repeat (destruct H as [H|H]; [inversion H; subst; clear H|]);
             [..|elim H]
         end.

Lemma deep_merge_idempotent_witness :
  well_formed (Dict dumped)
  /\ well_formed (Dict override_disk)
  /\ deep_merge (deep_merge dumped override_disk) override_disk
     = deep_merge dumped override_disk.
Proof.
  assert (Hbase : well_formed (Dict dumped)) by python_value.
  assert (Hoverride : well_formed (Dict override_disk)) by python_value.
  split; [exact Hbase|]. split; [exact Hoverride|].
  exact (proj1 (deep_merge_idempotent dumped override_disk
                  Hbase Hoverride)).
Defined.

End DeepMerge.

(* ===================================================================== *)
(** ** System information                                                 *)
(* ===================================================================== *)

Section SystemInformation.

Import Info.

Lemma disk_loop_returned h parts : forall acc r,
  disk_loop h parts acc = Returned r ->
  Forall (fun p => breaks h (Mounts.mountpoint p) = false) parts
  /\ exists added,
       r = acc ++ added
       /\ map di_mountpoint added
          = filter (measured h) (map Mounts.mountpoint parts)
       /\ forall d, In d added ->
            exists p u, In p parts
                        /\ disk_usage h (Mounts.mountpoint p) = Measured u
                        /\ d = entry p u.
Proof.
  induction parts as [|p parts IH]; intros acc r; simpl.
  - intros H. inversion H; subst. split; [constructor|].
    exists []. rewrite app_nil_r. split; [reflexivity|].
    split; [reflexivity|]. intros d [].
  - unfold breaks, measured.
    destruct (disk_usage h (Mounts.mountpoint p)) as [u| |e] eqn:Hu;
      [| |discriminate]; intros H;
      destruct (IH _ _ H) as (Hall & added & -> & Hmp & Hin).
    + split; [constructor; [now rewrite Hu|assumption]|].
      exists (entry p u :: added). rewrite <- app_assoc.
      split; [reflexivity|]. split; [simpl; now rewrite Hmp|].
      intros d [<-|Hd].
      * exists p, u. auto.
      * destruct (Hin d Hd) as (p' & u' & Hp & Hu' & ->).
        exists p', u'. auto.
    + split; [constructor; [now rewrite Hu|assumption]|].
      exists added. split; [reflexivity|]. split; [assumption|].
      intros d Hd. destruct (Hin d Hd) as (p' & u' & Hp & Hu' & ->).
      exists p', u'. auto.
Qed.

Lemma disk_loop_breaks h before p after e : forall acc,
  Forall (fun p => breaks h (Mounts.mountpoint p) = false) before ->
  disk_usage h (Mounts.mountpoint p) = UsageFails e ->
  disk_loop h (before ++ p :: after) acc = Raised e.
Proof.
  induction before as [|q before IH]; intros acc Hall Hp; simpl.
  - now rewrite Hp.
  - inversion Hall as [|? ? Hq Hrest]; subst. unfold breaks in Hq.
    destruct (disk_usage h (Mounts.mountpoint q)); try discriminate Hq;
      now apply IH.
Qed.

(** X24.  When [get_system_info] returns, [disk_info] holds, in the
    order of [psutil.disk_partitions()], one entry for each partition
    whose usage could be read, with the device, mount point and file
    system of the partition and the three figures of its usage; the
    partitions that raised [PermissionError] are left out and no other
    partition failed; there is one interface entry per item of
    [net_if_addrs]; the boot mode is "UEFI" exactly when
    /sys/firmware/efi exists and "Unknown" exactly when asking raised.
    The first partition whose usage raises anything other than
    [PermissionError] makes the whole function raise that exception,
    which is logged when it is an instance of [Exception]. *)
Theorem system_info_cases (h : Host) :
  (forall info,
      fst (get_system_info h) = Returned info ->
      exists parts items,
        disk_partitions h = Returned parts
        /\ net_if_addrs h = Returned items
        /\ Forall (fun p => breaks h (Mounts.mountpoint p) = false) parts
        /\ map di_mountpoint (disk_info info)
           = filter (measured h) (map Mounts.mountpoint parts)
        /\ (forall d, In d (disk_info info) ->
              exists p u,
                In p parts
                /\ disk_usage h (Mounts.mountpoint p) = Measured u
                /\ d = mkDiskInfo (Mounts.device p) (Mounts.mountpoint p)
                         (Mounts.fstype p) (total u) (used u) (free u))
        /\ map name (network_interfaces info) = map fst items
        /\ (boot_mode info = "UEFI"%string
            <-> efi_exists h = Returned true)
        /\ (boot_mode info = "Unknown"%string
            <-> exists e, efi_exists h = Raised e))
  /\ (forall before p after e,
        disk_partitions h = Returned (before ++ p :: after) ->
        Forall (fun p => breaks h (Mounts.mountpoint p) = false) before ->
        disk_usage h (Mounts.mountpoint p) = UsageFails e ->
        fst (get_system_info h) = Raised e)
  /\ (forall e,
        fst (get_system_info h) = Raised e ->
        (In (ERROR,
             ("Error gathering system information: " ++ exn_str e)%string)
            (snd (get_system_info h))
         <-> is_Exception e = true)).
Proof.
  split; [|split].
  - intros info. unfold get_system_info.
    destruct (gather h) as [i|e] eqn:Hg;
      [|destruct (is_Exception e); discriminate].
    cbn [fst]. intros H. inversion H; subst i. clear H.
    unfold gather in Hg.
    destruct (disk_partitions h) as [parts|] eqn:Hparts; [|discriminate].
    destruct (disk_loop h parts []) as [disks|] eqn:Hloop; [|discriminate].
    destruct (net_if_addrs h) as [items|] eqn:Hnet; [|discriminate].
    destruct (detect_boot_mode h) as [mode|] eqn:Hmode; [|discriminate].
    inversion Hg; subst info. clear Hg. cbn.
    destruct (disk_loop_returned h parts [] disks Hloop)
      as (Hall & added & -> & Hmp & Hin).
    exists parts, items. cbn [List.app].
    split; [reflexivity|]. split; [reflexivity|].
    split; [assumption|]. split; [assumption|]. split; [exact Hin|].
    split; [now rewrite map_map|].
    unfold detect_boot_mode in Hmode.
    destruct (efi_exists h) as [[|]|e]; [| |destruct (is_Exception e)];
      inversion Hmode; subst; split; split; intros H;
      try discriminate H; try reflexivity;
      try (destruct H as (e' & H); discriminate H); eauto.
  - intros before p after e Hparts Hall Hp.
    unfold get_system_info, gather. rewrite Hparts.
    rewrite (disk_loop_breaks h before p after e [] Hall Hp).
    destruct (is_Exception e); reflexivity.
  - intros e. unfold get_system_info.
    destruct (gather h) as [i|e0]; [discriminate|].
    destruct (is_Exception e0) eqn:He; cbn [fst snd]; intros H;
      inversion H; subst e0; rewrite He.
    + split; [reflexivity|]. intros _. simpl. auto.
    + split; [|discriminate]. intros [Hin|[]]. discriminate Hin.
Qed.

Lemma system_info_cases_witness :
  fst (get_system_info stale_mount) = Raised OSError
  /\ snd (get_system_info stale_mount)
     = [(INFO, "Gathering system information"%string);
        (ERROR,
         "Error gathering system information: [Errno 116] Stale file handle: '/mnt/nfs'"%string)].
Proof.
  split; [|reflexivity].
  apply (proj1 (proj2 (system_info_cases stale_mount))
           [Mounts.mkPartition "/dev/sda2" "/" "ext4";
            Mounts.mkPartition "/dev/sdb1" "/home/other" "ext4"]
           (Mounts.mkPartition "server:/export" "/mnt/nfs" "nfs") []).
  - reflexivity.
  - repeat constructor.
  - reflexivity.
Defined.

End SystemInformation.

(* ===================================================================== *)
(** ** From the command line to the application                           *)
(* ===================================================================== *)

Lemma call_keeps_dry_run_mode (self : Mounted) (h : Handler) :
  App.dry_run_mode (app (call self h)) = App.dry_run_mode (app self).
Proof.
  destruct self as [[cur tot act dry stp prog ctr] content status].
  destruct h; simpl;
    unfold on_welcome_continue, on_disk_setup_continue, on_stage3_continue,
      on_configuration_continue, on_kernel_continue, on_bootloader_continue,
      on_back_to_welcome, on_back_to_disk_setup, on_back_to_stage3,
      on_back_to_configuration, on_back_to_kernel, App.advance_step,
      App.previous_step;
    cbn [app with_app App.current_step App.total_steps];
    try (destruct (cur <? tot - 1)); try (destruct (cur >? 0));
    reflexivity.
Qed.

Lemma calls_keep_dry_run_mode (hs : list Handler) :
  forall self,
    App.dry_run_mode (app (calls self hs)) = App.dry_run_mode (app self).
Proof.
  induction hs as [|h hs IH]; intros self; [reflexivity|].
  unfold calls. simpl. fold (calls (call self h) hs).
  rewrite IH. apply call_keeps_dry_run_mode.
Qed.

Lemma validate_true_cause self h :
  dry_run (config self) = false ->
  fst (validate_prerequisites self h) = Returned true ->
  geteuid h = 0
  /\ exists_ h (target_disk (disk (config self))) = Returned true.
Proof.
  intros Hdry. unfold validate_prerequisites. rewrite Hdry.
  cbn [negb andb].
  destruct (geteuid h =? 0) eqn:Hu; cbn [negb fst]; [|discriminate].
  destruct (exists_ h (target_disk (disk (config self))))
    as [[|]|e]; cbn [negb fst]; try discriminate.
  intros _. split; [now apply Z.eqb_eq|reflexivity].
Qed.

(** X25.  The dry-run flag of the command line is the dry-run mode of
    the application that [main] runs, whatever the configuration file
    says, and stays so through every sequence of calls of the handlers,
    in turn or not: no handler writes it.  It is also the dry-run setting
    of the installation manager the application creates, whose
    [validate_prerequisites] therefore refuses on no host with
    [--dry-run] and, without it, passes only for root with an existing
    target disk. *)
Theorem dry_run_flag_reaches_the_application
  (w : Main.World) (o : Main.Options) (cfg : Config.AppConfig)
  (Hran : Main.ran_on (snd (Main.main w o)) cfg) :
  App.dry_run_mode (App.new cfg) = Main.dry_run o
  /\ (forall hs,
        App.dry_run_mode (app (calls (on_mount (App.new cfg)) hs))
        = Main.dry_run o)
  /\ (forall m, Config.dry_run (config (Installer.new cfg m))
                = Main.dry_run o)
  /\ (forall m h,
        Main.dry_run o = true ->
        fst (validate_prerequisites (Installer.new cfg m) h)
        <> Returned false)
  /\ (forall m h,
        Main.dry_run o = false ->
        fst (validate_prerequisites (Installer.new cfg m) h)
        = Returned true ->
        geteuid h = 0
        /\ exists_ h (Config.target_disk (Config.disk cfg))
           = Returned true).
Proof.
  assert (Hdry : Config.dry_run cfg = Main.dry_run o).
  { revert Hran. main_cases; intros H; simpl in H;
      repeat (destruct H as [H|H]; [try discriminate H|]);
      try (now elim H); inversion H; reflexivity. }
  split; [|split; [|split; [|split]]].
  - exact Hdry.
  - intros hs. rewrite calls_keep_dry_run_mode. exact Hdry.
  - intros m. exact Hdry.
  - intros m h Hflag Hfalse.
    destruct (validate_false_cause _ _ Hfalse) as [Hno _].
    change (config (Installer.new cfg m)) with cfg in Hno. congruence.
  - intros m h Hflag Htrue.
    apply (validate_true_cause (Installer.new cfg m) h); [|exact Htrue].
    change (config (Installer.new cfg m)) with cfg. congruence.
Qed.

Lemma dry_run_flag_reaches_the_application_witness :
  Main.ran_on (snd (Main.main Worlds.as_root Worlds.dry_run_with_file))
    (Main.set_dry_run Worlds.from_file true)
  /\ Config.dry_run Worlds.from_file = false
  /\ App.dry_run_mode
       (app (calls
               (on_mount (App.new (Main.set_dry_run Worlds.from_file true)))
               [welcome_continue; back_to_kernel; load_config "other.yaml"]))
     = true.
Proof.
  assert (Hran : Main.ran_on
                   (snd (Main.main Worlds.as_root Worlds.dry_run_with_file))
                   (Main.set_dry_run Worlds.from_file true)).
  { vm_compute. tauto. }
  split; [exact Hran|]. split; [reflexivity|].
  exact (proj1 (proj2 (dry_run_flag_reaches_the_application Worlds.as_root
                         Worlds.dry_run_with_file _ Hran))
           [welcome_continue; back_to_kernel; load_config "other.yaml"]).
Defined.
